(** * PEX evaluation handlers: URI evaluation and limit disclosure

    A shallow embedding of
    - [src/lib/evaluation/handlers/uriEvaluationHandler.ts]
      ([UriEvaluationHandler]) and
    - the limit-disclosure handler ([LimitDisclosureEvaluationHandler]),
    followed by the properties of the two handlers.

    Conventions of the embedding.
    - A JavaScript value is a [value]; an object is an ordered list of
      own properties, a list is a [list value] (a hole of a sparse list
      reads as [JUndefined]).  Only own properties are modelled, not the
      members inherited from prototypes.
    - Strings are byte strings.  The handlers compare strings for
      equality and match them against ASCII character classes only, and
      both read the same on UTF-8 bytes as on UTF-16 code units.
    - A thrown [TypeError] is [None] in the [option] monad.
    - The shared handler state ([this.getResults()],
      [this.presentationSubmission], [this.verifiablePresentation]) is
      passed explicitly. *)

From Stdlib Require Import List String Ascii Bool Arith Lia ZArith.
From Stdlib Require Import DecimalString DecimalNat.
Import ListNotations.

Open Scope string_scope.
Open Scope list_scope.

Set Implicit Arguments.
Set Warnings "-register-all".

(* ================================================================= *)
(** * Part I: definitions *)
(* ================================================================= *)

(** ** JavaScript values *)

Inductive value : Type :=
| JUndefined
| JNull
| JBool (b : bool)
| JNumber (z : Z)
| JString (s : string)
| JArray (elems : list value)
| JObject (props : list (string * value)).

(** ToBoolean *)
Definition truthy (v : value) : bool :=
  match v with
  | JUndefined | JNull => false
  | JBool b => b
  | JNumber z => negb (Z.eqb z 0)
  | JString s => negb (String.eqb s "")
  | JArray _ | JObject _ => true
  end.

(** Array.isArray *)
Definition isArray (v : value) : bool :=
  match v with JArray _ => true | _ => false end.

(** A path segment as jsonpath reports it: a string key or a number. *)
Inductive segment : Type :=
| SKey (k : string)
| SIdx (n : nat).

(** [typeof seg === 'string'] *)
Definition is_string_segment (s : segment) : bool :=
  match s with SKey _ => true | SIdx _ => false end.

(** Number-to-string of a non-negative integer, as a template literal or
    a property key prints it. *)
Definition string_of_nat (n : nat) : string :=
  NilEmpty.string_of_uint (Nat.to_uint n).

(** ToPropertyKey of a segment *)
Definition property_key (s : segment) : string :=
  match s with SKey k => k | SIdx n => string_of_nat n end.

(** The canonical list index a property key denotes, if any. *)
Definition array_index (key : string) : option nat :=
  match NilEmpty.uint_of_string key with
  | Some u =>
      let n := Nat.of_uint u in
      if String.eqb (string_of_nat n) key then Some n else None
  | None => None
  end.

Fixpoint lookup (key : string) (props : list (string * value)) : option value :=
  match props with
  | [] => None
  | (k, v) :: rest => if String.eqb key k then Some v else lookup key rest
  end.

(** [o[key] = v] on the own properties of an object: an existing property
    keeps its position, a new one is added at the end. *)
Fixpoint assign (key : string) (v : value) (props : list (string * value))
  : list (string * value) :=
  match props with
  | [] => [(key, v)]
  | (k, w) :: rest =>
      if String.eqb key k then (k, v) :: rest else (k, w) :: assign key v rest
  end.

Definition has_key (key : string) (props : list (string * value)) : bool :=
  match lookup key props with Some _ => true | None => false end.

(** [o[key]] on an object whose own properties are [props]: a missing
    property reads as [undefined]. *)
Definition field (props : list (string * value)) (key : string) : value :=
  match lookup key props with Some v => v | None => JUndefined end.

Definition char_at (s : string) (n : nat) : value :=
  match String.get n s with
  | Some c => JString (String c EmptyString)
  | None => JUndefined
  end.

(** [v[key]] on any value; reading a member of [undefined] or [null]
    throws. *)
Definition get_member (v : value) (key : string) : option value :=
  match v with
  | JUndefined | JNull => None
  | JBool _ | JNumber _ => Some JUndefined
  | JString s =>
      if String.eqb key "length" then Some (JNumber (Z.of_nat (String.length s)))
      else match array_index key with
           | Some n => Some (char_at s n)
           | None => Some JUndefined
           end
  | JArray l =>
      if String.eqb key "length" then Some (JNumber (Z.of_nat (List.length l)))
      else match array_index key with
           | Some n => Some (nth n l JUndefined)
           | None => Some JUndefined
           end
  | JObject props => Some (field props key)
  end.

(** [a[n] = v] on a list: inside the list the element is replaced, past
    its end the list is extended up to position [n]. *)
Fixpoint array_set (n : nat) (v : value) (l : list value) : list value :=
  match n, l with
  | O, [] => [v]
  | O, _ :: rest => v :: rest
  | S m, [] => JUndefined :: array_set m v []
  | S m, x :: rest => x :: array_set m v rest
  end.

(** [c[key] = v] on a container.  A key that is no index, written into a
    list, would become a named property of the list, which [JArray] does
    not hold; the handlers never write one.  Primitives ignore the
    write. *)
Definition set_member (c : value) (key : string) (v : value) : value :=
  match c with
  | JObject props => JObject (assign key v props)
  | JArray l =>
      match array_index key with
      | Some n => JArray (array_set n v l)
      | None => JArray l
      end
  | other => other
  end.

(** Array.prototype.push, on the list itself *)
Definition push {A : Type} (l : list A) (x : A) : list A := l ++ [x].

(** The option monad carries a thrown TypeError. *)
Definition bind {A B : Type} (m : option A) (f : A -> option B) : option B :=
  match m with Some a => f a | None => None end.

Notation "x <- m ;; k" := (bind m (fun x => k))
  (at level 61, m at next level, right associativity).
Notation "' pat <- m ;; k" := (bind m (fun x => match x with pat => k end))
  (at level 61, pat pattern, m at next level, right associativity).

(** [l.forEach((x, i) => body)], and [for (let i = 0; i < l.length; i++)]
    over a list the body does not change, with the state threaded
    through; [i] is the position the iteration starts to count from. *)
Fixpoint forEach {A St : Type} (body : A -> nat -> St -> option St)
  (l : list A) (i : nat) (s : St) : option St :=
  match l with
  | [] => Some s
  | x :: rest => s' <- body x i s ;; forEach body rest (S i) s'
  end.

(** The elements two nested loops produce, in the order of the loops. *)
Fixpoint flat_mapi {A B : Type} (f : A -> nat -> list B) (l : list A) (i : nat)
  : list B :=
  match l with
  | [] => []
  | x :: rest => f x i ++ flat_mapi f rest (S i)
  end.

(** The value reached from [v] along the segments [segs]. *)
Fixpoint walk (v : value) (segs : list segment) : option value :=
  match segs with
  | [] => Some v
  | seg :: rest => v' <- get_member v (property_key seg) ;; walk v' rest
  end.

Definition is_some {A : Type} (o : option A) : bool :=
  match o with Some _ => true | None => false end.

(** ** Evaluation results *)

(** Modelled from the spec: [Status] of [ConstraintUtils], which is not
    among the sources; the status of a result is INFO, WARN or ERROR. *)
Inductive Status : Type := INFO | WARN | ERROR.

Definition Status_eqb (a b : Status) : bool :=
  match a, b with
  | INFO, INFO | WARN, WARN | ERROR, ERROR => true
  | _, _ => false
  end.

(** Modelled from the spec: [PexMessages] of [types/Messages], which is
    not among the sources.  These are the members the URI handler names;
    their texts are not known here, so the members are kept symbolic. *)
Inductive PexMessages : Type :=
| URI_EVALUATION_PASSED
| URI_EVALUATION_DIDNT_PASS
| INPUT_DESCRIPTOR_CONTEXT_CONTAINS_HASHLINK_VERIFICATION_NOT_SUPPORTED.

Inductive message : Type :=
| MsgUndefined
| MsgPex (m : PexMessages)
| MsgText (s : string).

Inductive payload : Type :=
| PayloadUndefined
| PayloadPex (m : PexMessages)
| PayloadUris (vcContext vcCredentialSchema : value)
              (inputDescriptorsUris : list string)
| PayloadPathDetails (pathDetails : list segment)
| PayloadPath (path : list string).

(** Modelled from the spec: [HandlerCheckResult] of [evaluation/core],
    which is not among the sources, with the fields of an evaluation
    result; the handlers fill in all of them. *)
Record HandlerCheckResult : Type := mkResult {
  input_descriptor_path : string;
  verifiable_credential_path : string;
  evaluator : string;
  status : Status;
  result_message : message;
  result_payload : payload
}.

(** [`$.input_descriptors[${idIdx}]`] *)
Definition input_descriptors_path (idIdx : nat) : string :=
  "$.input_descriptors[" ++ string_of_nat idIdx ++ "]".

(** An entry of a submission's [descriptor_map]. *)
Record Descriptor : Type := mkDescriptor {
  descriptor_id : string;
  descriptor_format : string;
  descriptor_path : string
}.

(** ** Regular expressions

    The two hashlink patterns are JavaScript regular expressions.  The
    handler only asks whether a pattern matches somewhere in a string,
    so a backtracking matcher in continuation-passing style decides it;
    [prev] is the character before the current position, which the word
    boundary looks at. *)

Inductive regex : Type :=
| Eps
| Class (p : ascii -> bool)
| Seq (r1 r2 : regex)
| Optional (r : regex)
| Star (r : regex)
| Repeat (lo hi : nat) (r : regex)
| WordBoundary.

Definition code_between (lo hi : nat) (c : ascii) : bool :=
  let n := nat_of_ascii c in Nat.leb lo n && Nat.leb n hi.

Definition is_digit : ascii -> bool := code_between 48 57.
Definition is_upper : ascii -> bool := code_between 65 90.
Definition is_lower : ascii -> bool := code_between 97 122.

(** [[a-zA-Z0-9]] *)
Definition is_alnum (c : ascii) : bool :=
  is_lower c || is_upper c || is_digit c.

(** [\w] *)
Definition is_word (c : ascii) : bool :=
  is_alnum c || Ascii.eqb c "_"%char.

Fixpoint one_of (chars : string) (c : ascii) : bool :=
  match chars with
  | EmptyString => false
  | String x rest => Ascii.eqb c x || one_of rest c
  end.

Definition is_word_at (o : option ascii) : bool :=
  match o with Some c => is_word c | None => false end.

Definition head_char (s : string) : option ascii :=
  match s with EmptyString => None | String c _ => Some c end.

Fixpoint rmatch (r : regex) (prev : option ascii) (s : string)
  (k : option ascii -> string -> bool) {struct r} : bool :=
  match r with
  | Eps => k prev s
  | Class p =>
      match s with
      | EmptyString => false
      | String c rest => if p c then k (Some c) rest else false
      end
  | Seq r1 r2 => rmatch r1 prev s (fun prev' s' => rmatch r2 prev' s' k)
  | Optional r1 => if rmatch r1 prev s k then true else k prev s
  | Star r1 =>
      (fix iterate (fuel : nat) (prev0 : option ascii) (s0 : string) : bool :=
         if k prev0 s0 then true
         else match fuel with
              | O => false
              | S fuel' =>
                  rmatch r1 prev0 s0
                    (fun prev' s' =>
                       if Nat.ltb (String.length s') (String.length s0)
                       then iterate fuel' prev' s' else false)
              end) (String.length s) prev s
  | Repeat lo hi r1 =>
      (fix times (lo0 hi0 : nat) (prev0 : option ascii) (s0 : string) : bool :=
         if (if Nat.eqb lo0 0 then k prev0 s0 else false) then true
         else match hi0 with
              | O => false
              | S hi' =>
                  rmatch r1 prev0 s0
                    (fun prev' s' => times (Nat.pred lo0) hi' prev' s')
              end) lo hi prev s
  | WordBoundary =>
      if xorb (is_word_at prev) (is_word_at (head_char s))
      then k prev s else false
  end.

(** Is there a match starting at some position of [s]? *)
Fixpoint search (r : regex) (prev : option ascii) (s : string) : bool :=
  if rmatch r prev s (fun _ _ => true) then true
  else match s with
       | EmptyString => false
       | String c rest => search r (Some c) rest
       end.

(** [matchAll(s, r).next().done]: no match at all.  [matchAll] works on
    a copy of the pattern, so the [lastIndex] of the shared static
    pattern stays 0. *)
Definition matchAll_done (s : string) (r : regex) : bool :=
  negb (search r None s).

Fixpoint lit (s : string) : regex :=
  match s with
  | EmptyString => Eps
  | String c rest => Seq (Class (Ascii.eqb c)) (lit rest)
  end.

(** [r+] *)
Definition plus (r : regex) : regex := Seq r (Star r).

(** Every character of [s] is in the class [p]. *)
Fixpoint all_chars (p : ascii -> bool) (s : string) : bool :=
  match s with
  | EmptyString => true
  | String c rest => if p c then all_chars p rest else false
  end.

(** The character before the position that follows [s], when [prev] is
    the character before [s]. *)
Fixpoint last_char (prev : option ascii) (s : string) : option ascii :=
  match s with
  | EmptyString => prev
  | String c rest => last_char (Some c) rest
  end.

(** ** The URI evaluation handler *)

Module UriEvaluationHandler.

Definition getName : string := "UriEvaluation".

(** [/hl:[a-zA-Z0-9]+:[a-zA-Z0-9]+/g] *)
Definition HASHLINK_URL_ENCODED_REGEX : regex :=
  Seq (lit "hl:") (Seq (plus (Class is_alnum))
    (Seq (lit ":") (plus (Class is_alnum)))).

(** The query form: [http], any number of [s], [://], an optional
    [www.], 1 to 256 characters of the host class, a dot, 1 to 6
    characters of letters, digits and parentheses, a word boundary, any
    number of characters of the path class, and [hl=] followed by one or
    more letters or digits. *)
Definition HASHLINK_QUERY_URL_REGEX : regex :=
  Seq (lit "http") (Seq (Star (Class (Ascii.eqb "s"%char)))
  (Seq (lit "://") (Seq (Optional (lit "www."))
  (Seq (Repeat 1 256 (Class (fun c => is_alnum c || one_of "-@:%._+~#=" c)))
  (Seq (lit ".")
  (Seq (Repeat 1 6 (Class (fun c => is_alnum c || one_of "()" c)))
  (Seq WordBoundary
  (Seq (Star (Class (fun c => is_alnum c || one_of "-()@:%_+.~#?&/=" c)))
  (Seq (lit "hl=") (plus (Class is_alnum))))))))))).

Definition containsHashlink (url : string) : bool :=
  negb (if matchAll_done url HASHLINK_QUERY_URL_REGEX
        then matchAll_done url HASHLINK_URL_ENCODED_REGEX
        else false).

(** Modelled from the spec: [PEVersion] of [types], which is not among
    the sources; a definition is of version 1 or of version 2. *)
Inductive PEVersion : Type := v1 | v2.

Definition PEVersion_eqb (a b : PEVersion) : bool :=
  match a, b with
  | v1, v1 | v2, v2 => true
  | _, _ => false
  end.

Record Schema : Type := mkSchema { uri : string }.

Record InputDescriptorV1 : Type := mkInputDescriptor {
  id : string;
  schema : list Schema
}.

(** Modelled from the spec: [IInternalPresentationDefinition] of
    [types], which is not among the sources, with what the handler reads
    of a definition: [id], [getVersion()] and [input_descriptors]. *)
Record IInternalPresentationDefinition : Type := mkDefinition {
  pd_id : string;
  getVersion : PEVersion;
  input_descriptors : list InputDescriptorV1
}.

(** A credential is a JSON object, given by its own properties. *)
Record WrappedVerifiableCredential : Type := mkWrapped {
  credential : list (string * value)
}.

Record PresentationSubmission : Type := mkSubmission {
  submission_id : string;
  definition_id : string;
  descriptor_map : list Descriptor
}.

(** Modelled from the spec: the evaluation context the handler reaches
    through [this] ([AbstractEvaluationHandler] and [EvaluationClient]
    are not among the sources): the result log behind [getResults()]
    and the submission. *)
Record EvaluationClient : Type := mkClient {
  results : list HandlerCheckResult;
  presentationSubmission : option PresentationSubmission
}.

Definition createResult (idIdx vcIdx : nat) : HandlerCheckResult :=
  {| input_descriptor_path := input_descriptors_path idIdx;
     verifiable_credential_path := "$[" ++ string_of_nat vcIdx ++ "]";
     evaluator := getName;
     status := INFO;
     result_message := MsgUndefined;
     result_payload := PayloadUndefined |}.

Definition with_outcome (result : HandlerCheckResult) (st : Status)
  (m : message) (p : payload) : HandlerCheckResult :=
  {| input_descriptor_path := input_descriptor_path result;
     verifiable_credential_path := verifiable_credential_path result;
     evaluator := evaluator result;
     status := st;
     result_message := m;
     result_payload := p |}.

Definition createSuccessResultObject (wvc : WrappedVerifiableCredential)
  (inputDescriptorsUris : list string) (idIdx vcIdx : nat) : HandlerCheckResult :=
  with_outcome (createResult idIdx vcIdx) INFO (MsgPex URI_EVALUATION_PASSED)
    (PayloadUris (field (credential wvc) "@context")
                 (field (credential wvc) "credentialSchema")
                 inputDescriptorsUris).

Definition createErrorResultObject (wvc : WrappedVerifiableCredential)
  (inputDescriptorsUris : list string) (idIdx vcIdx : nat) : HandlerCheckResult :=
  with_outcome (createResult idIdx vcIdx) ERROR (MsgPex URI_EVALUATION_DIDNT_PASS)
    (PayloadUris (field (credential wvc) "@context")
                 (field (credential wvc) "credentialSchema")
                 inputDescriptorsUris).

Definition createWarnResultObject (idIdx vcIdx : nat) : HandlerCheckResult :=
  with_outcome (createResult idIdx vcIdx) WARN (MsgPex URI_EVALUATION_DIDNT_PASS)
    (PayloadPex INPUT_DESCRIPTOR_CONTEXT_CONTAINS_HASHLINK_VERIFICATION_NOT_SUPPORTED).

(** [el === v] for a string [el] *)
Definition strict_equals (el : string) (v : value) : bool :=
  match v with JString s => String.eqb el s | _ => false end.

(** [x != undefined] for the outcome of [find] over strings: the element
    found is a string, and no string is loosely equal to [undefined]. *)
Definition not_undefined (found : option string) : bool :=
  match found with Some _ => true | None => false end.

Definition evaluateUris (wvc : WrappedVerifiableCredential)
  (verifiableCredentialUris : list value) (inputDescriptorsUris : list string)
  (idIdx vcIdx : nat) (pdVersion : PEVersion)
  (results0 : list HandlerCheckResult) : list HandlerCheckResult :=
  let hasAnyMatch := false in
  let '(hasAnyMatch, results1) :=
    if PEVersion_eqb pdVersion v1 then
      let results1 :=
        fold_left (fun rs u =>
                     if containsHashlink u
                     then push rs (createWarnResultObject idIdx vcIdx)
                     else rs)
                  inputDescriptorsUris results0 in
      let hasAnyMatch :=
        fold_left (fun matched vcUri =>
                     if not_undefined
                          (find (fun el => strict_equals el vcUri)
                                inputDescriptorsUris)
                     then true else matched)
                  verifiableCredentialUris hasAnyMatch in
      (hasAnyMatch, results1)
    else (true, results0) in
  if hasAnyMatch
  then push results1 (createSuccessResultObject wvc inputDescriptorsUris idIdx vcIdx)
  else push results1 (createErrorResultObject wvc inputDescriptorsUris idIdx vcIdx).

(** [element.id] pushed for each element, in order; [undefined] and
    [null] elements have no members to read. *)
Fixpoint push_ids (elements : list value) (uris : list value) : option (list value) :=
  match elements with
  | [] => Some uris
  | element :: rest =>
      i <- get_member element "id" ;; push_ids rest (push uris i)
  end.

Definition buildVcContextAndSchemaUris (credential : list (string * value))
  : option (list value) :=
  let uris : list value := [] in
  let uris :=
    match field credential "@context" with
    | JArray values => fold_left push values uris
    | context => push uris context
    end in
  uris <-
    match field credential "credentialSchema" with
    | JArray (e :: es) => push_ids (e :: es) uris
    | credentialSchema =>
        if truthy credentialSchema
        then i <- get_member credentialSchema "id" ;; Some (push uris i)
        else Some uris
    end ;;
  let uris :=
    match field credential "type" with
    | JArray types => fold_left push types uris
    | type => if truthy type then push uris type else uris
    end in
  Some uris.

Fixpoint strip_prefix (prefix s : string) : option string :=
  match prefix, s with
  | EmptyString, _ => Some s
  | String a prefix', String b s' =>
      if Ascii.eqb a b then strip_prefix prefix' s' else None
  | String _ _, EmptyString => None
  end.

(** [s] without its last character, which has to be a closing bracket. *)
Fixpoint strip_closing_bracket (s : string) : option string :=
  match s with
  | EmptyString => None
  | String c EmptyString =>
      if Ascii.eqb c "]"%char then Some EmptyString else None
  | String c rest => option_map (String c) (strip_closing_bracket rest)
  end.

(** The position a path expression of the form [$.input_descriptors[n]]
    addresses. *)
Definition descriptor_index (pathExpression : string) : option nat :=
  rest <- strip_prefix "$.input_descriptors[" pathExpression ;;
  digits <- strip_closing_bracket rest ;;
  array_index digits.

(** [jp.nodes(d, pathExpression)] of the jsonpath library, on the
    addressing form the handlers stamp into their results: the values
    of the nodes found, which is the descriptor at [$.input_descriptors[n]]
    when [n] is a position of the list.  The library resolves other
    spellings too (bracket notation, the list as a whole, filters);
    these are not modelled and have no nodes here, so this definition
    says what the library does only on the handlers' form.  Every
    property of [handle] below is stated where the INFO entries of the
    log are written in that form, or where they are known to resolve. *)
Definition jp_nodes (d : IInternalPresentationDefinition)
  (pathExpression : string) : list InputDescriptorV1 :=
  match descriptor_index pathExpression with
  | Some n =>
      match nth_error (input_descriptors d) n with
      | Some inDesc => [inDesc]
      | None => []
      end
  | None => []
  end.

(** [nodes[0].value]; there is nothing to read [value] from when the
    list of nodes is empty. *)
Definition first_node_value (nodes : list InputDescriptorV1)
  : option InputDescriptorV1 :=
  match nodes with
  | node :: _ => Some node
  | [] => None
  end.

(** [l.map(f)] where [f] may throw *)
Fixpoint traverse {A B : Type} (f : A -> option B) (l : list A) : option (list B) :=
  match l with
  | [] => Some []
  | x :: rest => y <- f x ;; ys <- traverse f rest ;; Some (y :: ys)
  end.

Definition is_info (e : HandlerCheckResult) : bool := Status_eqb (status e) INFO.

Definition descriptor_of_result (d : IInternalPresentationDefinition)
  (e : HandlerCheckResult) : option Descriptor :=
  inputDescriptor <- first_node_value (jp_nodes d (input_descriptor_path e)) ;;
  Some {| descriptor_id := id inputDescriptor;
          descriptor_format := "ldp_vc";
          descriptor_path := verifiable_credential_path e |}.

(** The schema URIs a descriptor is evaluated with. *)
Definition descriptor_uris (d : IInternalPresentationDefinition)
  (inDesc : InputDescriptorV1) : list string :=
  if negb (PEVersion_eqb (getVersion d) v2) then map uri (schema inDesc) else [].

(** [handle]; [nanoid] is the identifier the call of [nanoid()] returns. *)
Definition handle (d : IInternalPresentationDefinition)
  (wrappedVcs : list WrappedVerifiableCredential) (nanoid : string)
  (this : EvaluationClient) : option EvaluationClient :=
  results1 <-
    forEach (fun inDesc i rs =>
               let uris := descriptor_uris d inDesc in
               forEach (fun wvc j rs' =>
                          vcUris <- buildVcContextAndSchemaUris (credential wvc) ;;
                          Some (evaluateUris wvc vcUris uris i j (getVersion d) rs'))
                       wrappedVcs 0 rs)
            (input_descriptors d) 0 (results this) ;;
  descriptorMap <- traverse (descriptor_of_result d) (filter is_info results1) ;;
  Some {| results := results1;
          presentationSubmission :=
            Some {| submission_id := nanoid;
                    definition_id := pd_id d;
                    descriptor_map := descriptorMap |} |}.

(** *** Descriptions of what the handler computes *)

(** [v.id], [undefined] where there is nothing to read it from *)
Definition id_of (v : value) : value :=
  match get_member v "id" with Some i => i | None => JUndefined end.

Definition context_uris (c : list (string * value)) : list value :=
  match field c "@context" with
  | JArray values => values
  | context => [context]
  end.

Definition schema_uris (c : list (string * value)) : list value :=
  match field c "credentialSchema" with
  | JArray (e :: es) => map id_of (e :: es)
  | credentialSchema => if truthy credentialSchema then [id_of credentialSchema] else []
  end.

Definition type_uris (c : list (string * value)) : list value :=
  match field c "type" with
  | JArray types => types
  | type => if truthy type then [type] else []
  end.

Definition extracted_uris (c : list (string * value)) : list value :=
  context_uris c ++ schema_uris c ++ type_uris c.

(** No entry of a [credentialSchema] list is [undefined] or [null]. *)
Definition schema_readable (c : list (string * value)) : bool :=
  match field c "credentialSchema" with
  | JArray es => forallb (fun e => is_some (get_member e "id")) es
  | _ => true
  end.

Definition extractable (wvc : WrappedVerifiableCredential) : bool :=
  schema_readable (credential wvc).

(** Is some extracted URI a string equal to some declared URI? *)
Definition has_match (inputDescriptorsUris : list string)
  (verifiableCredentialUris : list value) : bool :=
  existsb (fun vcUri => existsb (fun el => strict_equals el vcUri) inputDescriptorsUris)
          verifiableCredentialUris.

(** The result of the match check of one pair. *)
Definition match_result (wvc : WrappedVerifiableCredential)
  (vcUris : list value) (uris : list string) (i j : nat) (version : PEVersion)
  : HandlerCheckResult :=
  if match version with v1 => has_match uris vcUris | v2 => true end
  then createSuccessResultObject wvc uris i j
  else createErrorResultObject wvc uris i j.

(** The warnings of one pair: one for each declared URI with a hashlink. *)
Definition warn_results (uris : list string) (i j : nat) (version : PEVersion)
  : list HandlerCheckResult :=
  match version with
  | v1 => map (fun _ => createWarnResultObject i j) (filter containsHashlink uris)
  | v2 => []
  end.

Definition pair_results (d : IInternalPresentationDefinition)
  (inDesc : InputDescriptorV1) (i : nat) (wvc : WrappedVerifiableCredential)
  (j : nat) : list HandlerCheckResult :=
  warn_results (descriptor_uris d inDesc) i j (getVersion d)
  ++ [match_result wvc (extracted_uris (credential wvc))
                   (descriptor_uris d inDesc) i j (getVersion d)].

(** Everything one run of [handle] appends to the result log. *)
Definition appended_results (d : IInternalPresentationDefinition)
  (wrappedVcs : list WrappedVerifiableCredential) : list HandlerCheckResult :=
  flat_mapi (fun inDesc i => flat_mapi (pair_results d inDesc i) wrappedVcs 0)
            (input_descriptors d) 0.

Definition resolvable (d : IInternalPresentationDefinition)
  (e : HandlerCheckResult) : bool :=
  is_some (first_node_value (jp_nodes d (input_descriptor_path e))).

(** Every INFO entry already in the log addresses a descriptor of [d]. *)
Definition log_resolves (d : IInternalPresentationDefinition)
  (log : list HandlerCheckResult) : bool :=
  forallb (resolvable d) (filter is_info log).

Definition of_pair (i j : nat) (e : HandlerCheckResult) : bool :=
  String.eqb (input_descriptor_path e) (input_descriptors_path i)
  && String.eqb (verifiable_credential_path e) ("$[" ++ string_of_nat j ++ "]").

(** The match results (INFO or ERROR) of the pair [(i, j)]. *)
Definition is_match_result_of (i j : nat) (e : HandlerCheckResult) : bool :=
  of_pair i j e && negb (Status_eqb (status e) WARN).

(** The warnings of the pair [(i, j)]. *)
Definition is_warn_result_of (i j : nat) (e : HandlerCheckResult) : bool :=
  of_pair i j e && Status_eqb (status e) WARN.

(** The extraction as the specification words it: the [@context] values,
    the [id] of each [credentialSchema] entry (a single object counting
    as one entry, nothing when absent), the [type] values. *)
Definition stated_uris (c : list (string * value)) : list value :=
  context_uris c
  ++ match field c "credentialSchema" with
     | JUndefined => []
     | JArray es => map id_of es
     | single => [id_of single]
     end
  ++ match field c "type" with
     | JUndefined => []
     | JArray types => types
     | single => [single]
     end.

End UriEvaluationHandler.

(** ** The limit disclosure handler *)

Module LimitDisclosureEvaluationHandler.

Definition getName : string := "LimitDisclosureEvaluation".

Definition mandatoryFields : list string :=
  ["@context"; "id"; "credentialSchema"; "credentialSubject"; "type"].

Inductive Optionality : Type := Required | Preferred.

Record Field : Type := mkField { path : list string }.

Record Constraints : Type := mkConstraints {
  fields : list Field;
  limit_disclosure : option Optionality
}.

Record InputDescriptor : Type := mkInputDescriptor {
  id : string;
  constraints : option Constraints
}.

Record PresentationDefinition : Type := mkDefinition {
  input_descriptors : list InputDescriptor
}.

Record PresentationSubmission : Type := mkSubmission {
  descriptor_map : option (list Descriptor)
}.

(** A presentation: its credentials are JSON objects, each given by its
    own properties. *)
Record VerifiablePresentation : Type := mkPresentation {
  verifiableCredential : option (list (list (string * value)));
  presentationSubmission : option PresentationSubmission
}.

(** Modelled from the spec: the evaluation context the handler reaches
    through [this] ([AbstractEvaluationHandler] and [EvaluationClient]
    are not among the sources): the result log and the presentation
    under construction, an object of its own, distinct from the
    presentation [handle] is given. *)
Record EvaluationClient : Type := mkClient {
  results : list HandlerCheckResult;
  verifiablePresentation : VerifiablePresentation
}.

(** A match of the path resolver: the segments of the path, the first
    one the root marker, and the value found there. *)
Record Node : Type := mkNode {
  node_path : list segment;
  node_value : value
}.

Definition verifiableCredential_path (vcIdx : nat) : string :=
  "$.verifiableCredential[" ++ string_of_nat vcIdx ++ "]".

(** The object literal [createSuccessResult] pushes. *)
Definition success_result (idIdx vcIdx : nat) (pathDetails : list segment)
  : HandlerCheckResult :=
  {| input_descriptor_path := input_descriptors_path idIdx;
     verifiable_credential_path := verifiableCredential_path vcIdx;
     evaluator := getName;
     status := INFO;
     result_message :=
       MsgText "added variable in the limit_disclosure to the verifiableCredential";
     result_payload := PayloadPathDetails pathDetails |}.

Definition createSuccessResult (idIdx vcIdx : nat) (pathDetails : list segment)
  (results0 : list HandlerCheckResult) : list HandlerCheckResult :=
  push results0 (success_result idIdx vcIdx pathDetails).

(** The object literal [createMandatoryFieldNotFoundResult] pushes. *)
Definition not_found_result (idIdx vcIdx : nat) (path : list string)
  : HandlerCheckResult :=
  {| input_descriptor_path := input_descriptors_path idIdx;
     verifiable_credential_path := verifiableCredential_path vcIdx;
     evaluator := getName;
     status := ERROR;
     result_message :=
       MsgText "mandatory field not present in the verifiableCredential";
     result_payload := PayloadPath path |}.

Definition createMandatoryFieldNotFoundResult (idIdx vcIdx : nat)
  (path : list string) (results0 : list HandlerCheckResult)
  : list HandlerCheckResult :=
  push results0 (not_found_result idIdx vcIdx path).

(** [keys.indexOf(key)] followed by [keys.splice(index, 1)] when the key
    is found *)
Fixpoint remove_first (key : string) (keys : list string) : list string :=
  match keys with
  | [] => []
  | k :: rest => if String.eqb key k then rest else k :: remove_first key rest
  end.

Definition copyMandatoryFieldsAndDeletePredefinedKeys
  (verifiableCredential verifiableCredentialToSend : list (string * value))
  (keys : list string) : list (string * value) * list string :=
  fold_left
    (fun '(toSend, keys0) mandatory =>
       (assign mandatory (field verifiableCredential mandatory) toSend,
        remove_first mandatory keys0))
    mandatoryFields (verifiableCredentialToSend, keys).

(** [c[key] = v] on the container reached from [root] along [cursor].
    The handler keeps a reference to a container it has created inside
    the object under construction; every such container is referenced
    from one place only, so the keys leading to it identify it. *)
Fixpoint write_at (root : value) (cursor : list string) (key : string)
  (v : value) : value :=
  match cursor with
  | [] => set_member root key v
  | c :: cursor' =>
      match get_member root c with
      | Some child => set_member root c (write_at child cursor' key v)
      | None => root
      end
  end.

Definition write_root (toSend : list (string * value)) (cursor : list string)
  (key : string) (v : value) : list (string * value) :=
  match cursor with
  | [] => assign key v toSend
  | c :: cursor' => assign c (write_at (field toSend c) cursor' key v) toSend
  end.

(** The container made for a segment that is not the last one. *)
Definition intermediate_container (seg next : segment) : value :=
  if is_string_segment seg && is_string_segment next then JObject []
  else if is_string_segment seg && negb (is_string_segment next)
       then JArray [JObject []]
       else JObject [].

(** The loop of [copyResultPathToDestinationCredential] over
    [pathDetails[1..]]: [segs] are the segments still to visit,
    [objectCursor] the position in the source, [cursor] the position in
    the object under construction. *)
Fixpoint copy_path_loop (segs : list segment) (objectCursor : value)
  (toSend : list (string * value)) (cursor : list string)
  : option (list (string * value)) :=
  match segs with
  | [] => Some toSend
  | seg :: rest =>
      objectCursor' <- get_member objectCursor (property_key seg) ;;
      match rest with
      | [] => Some (write_root toSend cursor (property_key seg) objectCursor')
      | next :: _ =>
          copy_path_loop rest objectCursor'
            (write_root toSend cursor (property_key seg)
                        (intermediate_container seg next))
            (cursor ++ [property_key seg])
      end
  end.

Definition copyResultPathToDestinationCredential (pathDetails : list segment)
  (verifiableCredential verifiableCredentialToSend : list (string * value))
  (idIdx vcIdx : nat) (results0 : list HandlerCheckResult)
  : option (list (string * value) * list HandlerCheckResult) :=
  let results1 := createSuccessResult idIdx vcIdx pathDetails results0 in
  toSend <- copy_path_loop (tl pathDetails) (JObject verifiableCredential)
                           verifiableCredentialToSend [] ;;
  Some (toSend, results1).

(** *** Descriptions of what the handler builds *)

(** Can [c[key] = v] be recorded in the container [c]? *)
Definition accepts (c : value) (key : string) : bool :=
  match c with
  | JObject _ => true
  | JArray _ => is_some (array_index key)
  | _ => false
  end.

(** [addresses root cursor c]: the keys [cursor] lead from [root] to the
    container [c], through containers that hold the keys used. *)
Inductive addresses : value -> list string -> value -> Prop :=
| addresses_here (c : value) : addresses c [] c
| addresses_step (root : value) (key : string) (child : value)
                 (cursor : list string) (c : value) :
    accepts root key = true ->
    get_member root key = Some child ->
    addresses child cursor c ->
    addresses root (key :: cursor) c.

(** What ends up under the key of [seg] once the path [seg :: rest] has
    been copied: the value found in the source when [seg] is the last
    segment, and otherwise the container made for [seg], holding under
    the key of the next segment what the rest of the path puts there. *)
Fixpoint disclosed (seg : segment) (rest : list segment) (source : value)
  {struct rest} : option value :=
  source' <- get_member source (property_key seg) ;;
  match rest with
  | [] => Some source'
  | next :: rest' =>
      sub <- disclosed next rest' source' ;;
      Some (set_member (intermediate_container seg next) (property_key next) sub)
  end.

Definition is_object (v : value) : bool :=
  match v with JObject _ => true | _ => false end.

Section Resolver.

(** [JsonPathUtils.extractInputField(obj, paths)] of [utils/jsonPathUtils],
    which is not among the sources: the path resolver, taken as it
    comes.  It returns the matches of the first path expression of
    [paths] that has any, and none if no expression matches. *)
Variable extractInputField : value -> list string -> list Node.

Definition determineNecessaryPaths (vc vcToSend : list (string * value))
  (fields : list Field) (idIdx vcIdx : nat) (results0 : list HandlerCheckResult)
  : option (list (string * value) * list HandlerCheckResult) :=
  forEach
    (fun field _ '(toSend, rs) =>
       match extractInputField (JObject vc) (path field) with
       | first :: _ =>
           copyResultPathToDestinationCredential (node_path first) vc toSend
                                                 idIdx vcIdx rs
       | [] =>
           Some (toSend, createMandatoryFieldNotFoundResult idIdx vcIdx (path field) rs)
       end)
    fields 0 (vcToSend, results0).

Definition copyModifiedVerifiableCredentialToExisting
  (verifiableCredentialToSend : list (string * value)) (inputDescriptorId : string)
  (descriptors : list Descriptor) (this : EvaluationClient) : EvaluationClient :=
  let vp := verifiablePresentation this in
  let credentials :=
    match verifiableCredential vp with
    | Some existing => existing
    | None => []
    end in
  let credentials :=
    fold_left
      (fun creds currentDescriptor =>
         if String.eqb (descriptor_id currentDescriptor) inputDescriptorId
         then push creds verifiableCredentialToSend
         else creds)
      descriptors credentials in
  {| results := results this;
     verifiablePresentation :=
       {| verifiableCredential := Some credentials;
          presentationSubmission := presentationSubmission vp |} |}.

(** The descriptor map the guard of [limitDisclosureShouldBeEnforced]
    finds: the submission and its [descriptor_map] both have to be
    there. *)
Definition existing_descriptor_map (this : EvaluationClient)
  : option (list Descriptor) :=
  match presentationSubmission (verifiablePresentation this) with
  | Some submission => descriptor_map submission
  | None => None
  end.

Definition with_results (this : EvaluationClient)
  (rs : list HandlerCheckResult) : EvaluationClient :=
  {| results := rs; verifiablePresentation := verifiablePresentation this |}.

(** One turn of the loop of [limitDisclosureShouldBeEnforced], for the
    credential [vc] at position [i]. *)
Definition enforce_on_credential (fields : list Field) (idIdx : nat)
  (inputDescriptorId : string) (vc : list (string * value)) (i : nat)
  (this : EvaluationClient) : option EvaluationClient :=
  let verifiableCredentialToSend : list (string * value) := [] in
  let keys := map fst vc in
  let '(verifiableCredentialToSend, keys) :=
    copyMandatoryFieldsAndDeletePredefinedKeys vc verifiableCredentialToSend keys in
  '(verifiableCredentialToSend, rs) <-
    determineNecessaryPaths vc verifiableCredentialToSend fields idIdx i
                            (results this) ;;
  let this := with_results this rs in
  match existing_descriptor_map this with
  | Some descriptors =>
      Some (copyModifiedVerifiableCredentialToExisting
              verifiableCredentialToSend inputDescriptorId descriptors this)
  | None => Some this
  end.

(** [verifiablePresentation.verifiableCredential.length] has nothing to
    read from when the presentation has no credential list. *)
Definition limitDisclosureShouldBeEnforced (verifiablePresentation : VerifiablePresentation)
  (fields : list Field) (idIdx : nat) (inputDescriptorId : string)
  (this : EvaluationClient) : option EvaluationClient :=
  credentials <- verifiableCredential verifiablePresentation ;;
  forEach (enforce_on_credential fields idIdx inputDescriptorId) credentials 0 this.

Definition limit_disclosure_required (inDesc : InputDescriptor) : option Constraints :=
  match constraints inDesc with
  | Some c =>
      match limit_disclosure c with
      | Some Required => Some c
      | _ => None
      end
  | None => None
  end.

Definition handle (pd : PresentationDefinition) (p : VerifiablePresentation)
  (this : EvaluationClient) : option EvaluationClient :=
  forEach
    (fun inDesc i this0 =>
       match limit_disclosure_required inDesc with
       | Some c => limitDisclosureShouldBeEnforced p (fields c) i (id inDesc) this0
       | None => Some this0
       end)
    (input_descriptors pd) 0 this.

(** *** Descriptions of what the handler logs *)

(** The one result a field leaves in the log. *)
Definition field_result (vc : list (string * value)) (idIdx vcIdx : nat)
  (f : Field) : HandlerCheckResult :=
  match extractInputField (JObject vc) (path f) with
  | first :: _ => success_result idIdx vcIdx (node_path first)
  | [] => not_found_result idIdx vcIdx (path f)
  end.

(** The path the resolver reports first for a field, if any, leads to a
    value of the credential. *)
Definition field_walks (vc : list (string * value)) (f : Field) : bool :=
  match extractInputField (JObject vc) (path f) with
  | first :: _ => is_some (walk (JObject vc) (tl (node_path first)))
  | [] => true
  end.

Definition all_fields_walk (pd : PresentationDefinition)
  (credentials : list (list (string * value))) : bool :=
  forallb (fun inDesc =>
             match limit_disclosure_required inDesc with
             | Some c =>
                 forallb (fun vc => forallb (field_walks vc) (fields c)) credentials
             | None => true
             end)
          (input_descriptors pd).

(** Everything one run of [handle] appends to the result log: for each
    descriptor that requires limited disclosure, for each credential,
    one result for each field, in the order of the loops. *)
Definition expected_results (pd : PresentationDefinition)
  (credentials : list (list (string * value))) : list HandlerCheckResult :=
  flat_mapi
    (fun inDesc i =>
       match limit_disclosure_required inDesc with
       | Some c =>
           flat_mapi (fun vc j => map (field_result vc i j) (fields c)) credentials 0
       | None => []
       end)
    (input_descriptors pd) 0.

End Resolver.

(** The credentials of the presentation under construction, none when
    the list has not been made yet. *)
Definition credentials_of (this : EvaluationClient) : list (list (string * value)) :=
  match verifiableCredential (verifiablePresentation this) with
  | Some existing => existing
  | None => []
  end.

Definition names_descriptor (inputDescriptorId : string) (entry : Descriptor) : bool :=
  String.eqb (descriptor_id entry) inputDescriptorId.

End LimitDisclosureEvaluationHandler.

(** ** Sample data *)

Module Samples.

Definition degree_credential : list (string * value) :=
  [("@context", JArray [JString "https://www.w3.org/2018/credentials/v1"]);
   ("id", JString "urn:uuid:degree-1");
   ("credentialSchema", JObject [("id", JString "https://example.org/schema#A")]);
   ("credentialSubject",
    JObject [("id", JString "did:example:holder");
             ("degree", JObject [("type", JString "BachelorDegree");
                                 ("name", JString "Bachelor of Science")])]);
   ("type", JArray [JString "VerifiableCredential"]);
   ("issuer", JString "did:example:issuer")].

(** No [@context], and an empty [credentialSchema] list. *)
Definition bare_credential : list (string * value) :=
  [("credentialSchema", JArray []); ("type", JString "https://example.org/schema#B")].

(** An empty [@context] list and nothing else. *)
Definition empty_context_credential : list (string * value) :=
  [("@context", JArray [])].

(** A single [@context], an empty [credentialSchema] list, a single [type]. *)
Definition empty_schema_credential : list (string * value) :=
  [("@context", JString "https://www.w3.org/2018/credentials/v1");
   ("credentialSchema", JArray []);
   ("type", JString "VerifiableCredential")].

(** A path resolver for child paths such as [$.credentialSubject.degree],
    all the sample fields need. *)
Fixpoint split_dots (s current : string) : list string :=
  match s with
  | EmptyString => [current]
  | String c rest =>
      if Ascii.eqb c "."%char then current :: split_dots rest EmptyString
      else split_dots rest (current ++ String c EmptyString)
  end.

Fixpoint own_path (v : value) (keys : list string) : option value :=
  match keys with
  | [] => Some v
  | k :: rest =>
      match v with
      | JObject props =>
          match lookup k props with
          | Some child => own_path child rest
          | None => None
          end
      | _ => None
      end
  end.

Definition child_path_nodes (doc : value) (expression : string)
  : list LimitDisclosureEvaluationHandler.Node :=
  match split_dots expression EmptyString with
  | marker :: keys =>
      if String.eqb marker "$" then
        match own_path doc keys with
        | Some v => [LimitDisclosureEvaluationHandler.mkNode
                       (SKey "$" :: map SKey keys) v]
        | None => []
        end
      else []
  | [] => []
  end.

Fixpoint extractInputField (doc : value) (paths : list string)
  : list LimitDisclosureEvaluationHandler.Node :=
  match paths with
  | [] => []
  | expression :: rest =>
      match child_path_nodes doc expression with
      | [] => extractInputField doc rest
      | nodes => nodes
      end
  end.

(** A source with a list inside a list. *)
Definition nested_list_credential : list (string * value) :=
  [("a", JArray [JArray [JNumber 10; JNumber 20]])].

Definition degree_type_field : LimitDisclosureEvaluationHandler.Field :=
  LimitDisclosureEvaluationHandler.mkField
    ["$.credentialSubject.degree.kind"; "$.credentialSubject.degree.type"].

Definition missing_field : LimitDisclosureEvaluationHandler.Field :=
  LimitDisclosureEvaluationHandler.mkField ["$.credentialSubject.birthdate"].

(** One descriptor that requires limited disclosure, one that prefers
    it. *)
Definition disclosure_definition : LimitDisclosureEvaluationHandler.PresentationDefinition :=
  LimitDisclosureEvaluationHandler.mkDefinition
    [LimitDisclosureEvaluationHandler.mkInputDescriptor "degree"
       (Some (LimitDisclosureEvaluationHandler.mkConstraints
                [missing_field; degree_type_field]
                (Some LimitDisclosureEvaluationHandler.Required)));
     LimitDisclosureEvaluationHandler.mkInputDescriptor "licence"
       (Some (LimitDisclosureEvaluationHandler.mkConstraints
                [degree_type_field]
                (Some LimitDisclosureEvaluationHandler.Preferred)))].

Definition candidate_presentation : LimitDisclosureEvaluationHandler.VerifiablePresentation :=
  LimitDisclosureEvaluationHandler.mkPresentation (Some [degree_credential]) None.

(** The handler's client after the URI handler has run: two entries of
    the descriptor map name the descriptor ["degree"]. *)
Definition disclosure_client : LimitDisclosureEvaluationHandler.EvaluationClient :=
  LimitDisclosureEvaluationHandler.mkClient []
    (LimitDisclosureEvaluationHandler.mkPresentation
       (Some [degree_credential])
       (Some (LimitDisclosureEvaluationHandler.mkSubmission
                (Some [mkDescriptor "degree" "ldp_vc" "$[0]";
                       mkDescriptor "licence" "ldp_vc" "$[0]";
                       mkDescriptor "degree" "ldp_vc" "$[1]"])))).

(** A version 1 definition: the first descriptor declares a hashlink and
    the schema of [degree_credential], the second a schema no sample
    credential has. *)
Definition definition_v1 : UriEvaluationHandler.IInternalPresentationDefinition :=
  UriEvaluationHandler.mkDefinition "definition-1" UriEvaluationHandler.v1
    [UriEvaluationHandler.mkInputDescriptor "degree"
       [UriEvaluationHandler.mkSchema "hl:zQmAbc:zQmXyz";
        UriEvaluationHandler.mkSchema "https://example.org/schema#A"];
     UriEvaluationHandler.mkInputDescriptor "licence"
       [UriEvaluationHandler.mkSchema "https://example.org/schema#C"]].

Definition definition_v2 : UriEvaluationHandler.IInternalPresentationDefinition :=
  UriEvaluationHandler.mkDefinition "definition-2" UriEvaluationHandler.v2
    [UriEvaluationHandler.mkInputDescriptor "degree" []].

Definition wrapped_credentials : list UriEvaluationHandler.WrappedVerifiableCredential :=
  [UriEvaluationHandler.mkWrapped degree_credential;
   UriEvaluationHandler.mkWrapped bare_credential].

(** A client at the start of a run, and one whose log already holds an
    INFO entry of another handler. *)
Definition fresh_client : UriEvaluationHandler.EvaluationClient :=
  UriEvaluationHandler.mkClient [] None.

Definition used_client : UriEvaluationHandler.EvaluationClient :=
  UriEvaluationHandler.mkClient
    [mkResult "$.input_descriptors[1]" "$[0]" "Earlier" INFO MsgUndefined
              PayloadUndefined]
    (Some (UriEvaluationHandler.mkSubmission "old" "definition-0" [])).

End Samples.

(** ** What a pattern matches

    The matcher above is the executable side; [matches] says which
    strings a pattern matches, and the two are shown to agree. *)

(** The loop of [rmatch] under [Star], by name. *)
Definition star_iterate (r1 : regex) (k : option ascii -> string -> bool)
  : nat -> option ascii -> string -> bool :=
  fix iterate (fuel : nat) (prev0 : option ascii) (s0 : string) : bool :=
    if k prev0 s0 then true
    else match fuel with
         | O => false
         | S fuel' =>
             rmatch r1 prev0 s0
               (fun prev' s' =>
                  if Nat.ltb (String.length s') (String.length s0)
                  then iterate fuel' prev' s' else false)
         end.

(** The loop of [rmatch] under [Repeat], by name. *)
Definition repeat_times (r1 : regex) (k : option ascii -> string -> bool)
  : nat -> nat -> option ascii -> string -> bool :=
  fix times (lo0 hi0 : nat) (prev0 : option ascii) (s0 : string) : bool :=
    if (if Nat.eqb lo0 0 then k prev0 s0 else false) then true
    else match hi0 with
         | O => false
         | S hi' =>
             rmatch r1 prev0 s0
               (fun prev' s' => times (Nat.pred lo0) hi' prev' s')
         end.

(** [matches r prev m rest]: at a position with [prev] before it and
    [m ++ rest] after it, the pattern [r] matches [m]. *)
Inductive matches : regex -> option ascii -> string -> string -> Prop :=
| matches_eps (prev : option ascii) (rest : string) :
    matches Eps prev EmptyString rest
| matches_class (p : ascii -> bool) (c : ascii) (prev : option ascii)
                (rest : string) :
    p c = true -> matches (Class p) prev (String c EmptyString) rest
| matches_seq (r1 r2 : regex) (prev : option ascii) (m1 m2 rest : string) :
    matches r1 prev m1 (m2 ++ rest) ->
    matches r2 (last_char prev m1) m2 rest ->
    matches (Seq r1 r2) prev (m1 ++ m2) rest
| matches_optional_some (r : regex) (prev : option ascii) (m rest : string) :
    matches r prev m rest -> matches (Optional r) prev m rest
| matches_optional_none (r : regex) (prev : option ascii) (rest : string) :
    matches (Optional r) prev EmptyString rest
| matches_star_stop (r : regex) (prev : option ascii) (rest : string) :
    matches (Star r) prev EmptyString rest
| matches_star_step (r : regex) (prev : option ascii) (m1 m2 rest : string) :
    m1 <> EmptyString ->
    matches r prev m1 (m2 ++ rest) ->
    matches (Star r) (last_char prev m1) m2 rest ->
    matches (Star r) prev (m1 ++ m2) rest
| matches_repeat_stop (r : regex) (hi : nat) (prev : option ascii)
                      (rest : string) :
    matches (Repeat 0 hi r) prev EmptyString rest
| matches_repeat_step (r : regex) (lo hi : nat) (prev : option ascii)
                      (m1 m2 rest : string) :
    matches r prev m1 (m2 ++ rest) ->
    matches (Repeat (Nat.pred lo) hi r) (last_char prev m1) m2 rest ->
    matches (Repeat lo (S hi) r) prev (m1 ++ m2) rest
| matches_word_boundary (prev : option ascii) (rest : string) :
    xorb (is_word_at prev) (is_word_at (head_char rest)) = true ->
    matches WordBoundary prev EmptyString rest.

(** The encoded form of a hashlink: [hl:], a token, a colon, a token;
    a token is one or more letters or digits. *)
Definition encoded_hashlink (m : string) : Prop :=
  exists token1 token2,
    m = ("hl:" ++ token1 ++ ":" ++ token2)%string
    /\ token1 <> EmptyString /\ all_chars is_alnum token1 = true
    /\ token2 <> EmptyString /\ all_chars is_alnum token2 = true.

Definition host_char (c : ascii) : bool := is_alnum c || one_of "-@:%._+~#=" c.
Definition domain_char (c : ascii) : bool := is_alnum c || one_of "()" c.
Definition path_char (c : ascii) : bool := is_alnum c || one_of "-()@:%_+.~#?&/=" c.

(** The query form of a hashlink: [http], any number of [s], [://], an
    optional [www.], a host of 1 to 256 host characters, a dot, a domain
    of 1 to 6 letters, digits and parentheses that ends at a word
    boundary, any path characters, and [hl=] with a token. *)
Definition query_hashlink (m : string) : Prop :=
  exists ss www host domain path token,
    m = ("http" ++ ss ++ "://" ++ www ++ host ++ "." ++ domain ++ path
         ++ "hl=" ++ token)%string
    /\ all_chars (Ascii.eqb "s"%char) ss = true
    /\ (www = EmptyString \/ www = "www.")
    /\ all_chars host_char host = true
    /\ 1 <= String.length host <= 256
    /\ all_chars domain_char domain = true
    /\ 1 <= String.length domain <= 6
    /\ xorb (is_word_at (last_char None domain))
            (is_word_at (head_char (path ++ "hl=")%string)) = true
    /\ all_chars path_char path = true
    /\ token <> EmptyString /\ all_chars is_alnum token = true.

(** ** Further descriptions of the URI handler *)

Section UriDescriptions.
Import UriEvaluationHandler.

(** Does the credential satisfy the descriptor?  Under version 1 some
    extracted URI has to be a declared one; under version 2 every
    credential does. *)
Definition satisfies (d : IInternalPresentationDefinition)
  (inDesc : InputDescriptorV1) (wvc : WrappedVerifiableCredential) : bool :=
  match getVersion d with
  | v1 => has_match (map uri (schema inDesc)) (extracted_uris (credential wvc))
  | v2 => true
  end.

(** The entry of the descriptor map for descriptor [inDesc] and the
    credential at position [j]. *)
Definition map_entry (inDesc : InputDescriptorV1) (j : nat) : Descriptor :=
  {| descriptor_id := id inDesc;
     descriptor_format := "ldp_vc";
     descriptor_path := "$[" ++ string_of_nat j ++ "]" |}.

(** The descriptor map of a run that starts with an empty log: descriptor
    by descriptor, the credentials that satisfy it. *)
Definition satisfied_pairs (d : IInternalPresentationDefinition)
  (wrappedVcs : list WrappedVerifiableCredential) : list Descriptor :=
  flat_mapi
    (fun inDesc _ =>
       flat_mapi (fun wvc j => if satisfies d inDesc wvc then [map_entry inDesc j]
                               else [])
                 wrappedVcs 0)
    (input_descriptors d) 0.

(** The two nested loops of [handle], from the log [log] on. *)
Definition pairs_loop (d : IInternalPresentationDefinition)
  (wrappedVcs : list WrappedVerifiableCredential)
  (log : list HandlerCheckResult) : option (list HandlerCheckResult) :=
  forEach (fun inDesc i rs =>
             let uris := descriptor_uris d inDesc in
             forEach (fun wvc j rs' =>
                        vcUris <- buildVcContextAndSchemaUris (credential wvc) ;;
                        Some (evaluateUris wvc vcUris uris i j (getVersion d) rs'))
                     wrappedVcs 0 rs)
          (input_descriptors d) 0 log.

(** When [handle] runs to its end: the credentials are looked at only
    when there is a descriptor. *)
Definition handle_completes (d : IInternalPresentationDefinition)
  (wrappedVcs : list WrappedVerifiableCredential)
  (log : list HandlerCheckResult) : bool :=
  match input_descriptors d with
  | [] => true
  | _ :: _ => forallb extractable wrappedVcs
  end && log_resolves d log.

End UriDescriptions.

(** ** Further descriptions of the limit disclosure handler *)

Section LimitDisclosureDescriptions.
Import LimitDisclosureEvaluationHandler.

(** The chain of single-key objects that leads to [leaf] along [keys]. *)
Fixpoint nest (keys : list string) (leaf : value) : value :=
  match keys with
  | [] => leaf
  | k :: rest => JObject [(k, nest rest leaf)]
  end.

(** When [handle] runs to its end: a descriptor that requires limited
    disclosure needs the credential list, and every path the resolver
    reports first has to lead to a value of its credential. *)
Definition disclosure_completes
  (extractInputField : value -> list string -> list Node)
  (pd : PresentationDefinition) (p : VerifiablePresentation) : bool :=
  forallb
    (fun inDesc =>
       match limit_disclosure_required inDesc with
       | Some c =>
           match verifiableCredential p with
           | Some credentials =>
               forallb (fun vc => forallb (field_walks extractInputField vc)
                                          (fields c))
                       credentials
           | None => false
           end
       | None => true
       end)
    (input_descriptors pd).

(** The credentials [handle] goes through, none when the presentation
    has no list. *)
Definition candidates (p : VerifiablePresentation) : list (list (string * value)) :=
  match verifiableCredential p with
  | Some credentials => credentials
  | None => []
  end.

Definition is_mandatory (key : string) : bool :=
  existsb (String.eqb key) mandatoryFields.

(** The object built for a credential keeps the five mandatory keys. *)
Definition has_mandatory_keys (c : list (string * value)) : bool :=
  forallb (fun key => has_key key c) mandatoryFields.

(** How many objects one run appends to the presentation whose
    descriptor map is [descriptors]: for each descriptor that requires
    limited disclosure, one for each credential and each entry of the
    map that carries the [id] of the descriptor. *)
Definition appended_count (pd : PresentationDefinition)
  (p : VerifiablePresentation) (descriptors : list Descriptor) : nat :=
  list_sum
    (map (fun inDesc =>
            match limit_disclosure_required inDesc with
            | Some _ =>
                List.length (candidates p)
                * List.length (filter (names_descriptor (id inDesc)) descriptors)
            | None => 0
            end)
         (input_descriptors pd)).

(** Does the path found first for the field [f] start at [key]?  The
    first segment of the path is the root marker, the one after it the
    key the copy writes at in the object under construction. *)
Definition path_starts_at
  (extractInputField : value -> list string -> list Node)
  (vc : list (string * value)) (key : string) (f : Field) : bool :=
  match extractInputField (JObject vc) (path f) with
  | first :: _ =>
      match tl (node_path first) with
      | seg :: _ => String.eqb (property_key seg) key
      | [] => false
      end
  | [] => false
  end.

End LimitDisclosureDescriptions.


(** ** Further sample data *)

Module FurtherSamples.

(** A version 1 definition whose only descriptor declares no schema. *)
Definition definition_without_schema
  : UriEvaluationHandler.IInternalPresentationDefinition :=
  UriEvaluationHandler.mkDefinition "definition-3" UriEvaluationHandler.v1
    [UriEvaluationHandler.mkInputDescriptor "anything" []].

(** One descriptor that prefers limited disclosure, one without
    constraints. *)
Definition preferred_definition
  : LimitDisclosureEvaluationHandler.PresentationDefinition :=
  LimitDisclosureEvaluationHandler.mkDefinition
    [LimitDisclosureEvaluationHandler.mkInputDescriptor "licence"
       (Some (LimitDisclosureEvaluationHandler.mkConstraints
                [Samples.degree_type_field]
                (Some LimitDisclosureEvaluationHandler.Preferred)));
     LimitDisclosureEvaluationHandler.mkInputDescriptor "other" None].

(** A presentation without credential list. *)
Definition empty_presentation
  : LimitDisclosureEvaluationHandler.VerifiablePresentation :=
  LimitDisclosureEvaluationHandler.mkPresentation None None.

(** A client whose presentation has credentials but no submission. *)
Definition client_without_submission
  : LimitDisclosureEvaluationHandler.EvaluationClient :=
  LimitDisclosureEvaluationHandler.mkClient []
    (LimitDisclosureEvaluationHandler.mkPresentation
       (Some [Samples.degree_credential]) None).

(** A credential with a list of three grades. *)
Definition grades_credential : list (string * value) :=
  [("id", JString "urn:uuid:grades-1");
   ("grades", JArray [JNumber 1; JNumber 2; JNumber 3])].

End FurtherSamples.

(* ================================================================= *)
(** * Part II: properties *)
(* ================================================================= *)

Unset Implicit Arguments.

(** ** Generalities *)

Lemma fold_left_push {A : Type} (xs acc : list A) :
  fold_left push xs acc = acc ++ xs.
Proof.
  revert acc; induction xs as [|x xs IH]; intros acc; simpl.
  - now rewrite app_nil_r.
  - rewrite IH. unfold push. now rewrite <- app_assoc.
Qed.

(** ** URI extraction *)

Section UriExtraction.
Import UriEvaluationHandler.

Lemma push_ids_spec (es acc : list value) :
  forallb (fun e => is_some (get_member e "id")) es = true ->
  push_ids es acc = Some (acc ++ map id_of es).
Proof.
  revert acc; induction es as [|e es IH]; intros acc Hok; simpl in *.
  - now rewrite app_nil_r.
  - apply andb_prop in Hok as [He Hes]. unfold id_of.
    destruct (get_member e "id") as [i|]; [simpl|discriminate].
    rewrite (IH _ Hes). unfold push. now rewrite <- app_assoc.
Qed.

Lemma push_ids_throws (es acc : list value) :
  forallb (fun e => is_some (get_member e "id")) es = false ->
  push_ids es acc = None.
Proof.
  revert acc; induction es as [|e es IH]; intros acc Hok; simpl in *.
  - discriminate.
  - destruct (get_member e "id") as [i|]; simpl in *; [now apply IH|reflexivity].
Qed.

Lemma truthy_id_readable (v : value) :
  truthy v = true -> get_member v "id" = Some (id_of v).
Proof.
  unfold id_of. destruct v; simpl; try discriminate; intros _; reflexivity.
Qed.

Lemma context_step (c : list (string * value)) :
  match field c "@context" with
  | JArray values => fold_left push values []
  | context => push [] context
  end = context_uris c.
Proof.
  unfold context_uris.
  destruct (field c "@context"); try reflexivity. apply fold_left_push.
Qed.

Lemma type_step (c : list (string * value)) (uris : list value) :
  match field c "type" with
  | JArray types => fold_left push types uris
  | type => if truthy type then push uris type else uris
  end = uris ++ type_uris c.
Proof.
  unfold type_uris.
  destruct (field c "type") as [| |b|z|s|ts|ps]; simpl;
    try apply fold_left_push;
    repeat match goal with |- context [if ?b then _ else _] => destruct b end;
    rewrite ?app_nil_r; reflexivity.
Qed.

Lemma schema_step (c : list (string * value)) (uris : list value) :
  schema_readable c = true ->
  match field c "credentialSchema" with
  | JArray (e :: es) => push_ids (e :: es) uris
  | credentialSchema =>
      if truthy credentialSchema
      then i <- get_member credentialSchema "id" ;; Some (push uris i)
      else Some uris
  end = Some (uris ++ schema_uris c).
Proof.
  unfold schema_readable, schema_uris. intros Hok.
  destruct (field c "credentialSchema") as [| |b|z|s|es|ps];
    try (simpl; rewrite ?app_nil_r; reflexivity).
  - destruct (truthy (JBool b)) eqn:Ht; [|now rewrite app_nil_r].
    now rewrite (truthy_id_readable _ Ht).
  - destruct (truthy (JNumber z)) eqn:Ht; [|now rewrite app_nil_r].
    now rewrite (truthy_id_readable _ Ht).
  - destruct (truthy (JString s)) eqn:Ht; [|now rewrite app_nil_r].
    now rewrite (truthy_id_readable _ Ht).
  - destruct es as [|e es].
    + now rewrite (truthy_id_readable (JArray []) eq_refl).
    + now apply push_ids_spec.
Qed.

Lemma buildVcContextAndSchemaUris_spec (c : list (string * value)) :
  schema_readable c = true ->
  buildVcContextAndSchemaUris c = Some (extracted_uris c).
Proof.
  intros Hok. unfold buildVcContextAndSchemaUris, extracted_uris.
  rewrite context_step, (schema_step _ _ Hok). cbn [bind].
  now rewrite type_step, app_assoc.
Qed.

Lemma buildVcContextAndSchemaUris_throws (c : list (string * value)) :
  schema_readable c = false ->
  buildVcContextAndSchemaUris c = None.
Proof.
  intros Hbad. unfold buildVcContextAndSchemaUris, schema_readable in *.
  rewrite context_step.
  destruct (field c "credentialSchema") as [| |b|z|s|es|ps]; try discriminate.
  destruct es as [|e es]; [discriminate|].
  now rewrite (push_ids_throws _ _ Hbad).
Qed.

(** C8, as the specification words it, fails: an empty [credentialSchema]
    list has no entries, yet one [undefined] entry is extracted for it,
    between the [@context] values and the [type] values. *)
Lemma uri_extraction_as_stated_fails :
  schema_readable Samples.empty_schema_credential = true
  /\ buildVcContextAndSchemaUris Samples.empty_schema_credential
     = Some [JString "https://www.w3.org/2018/credentials/v1"; JUndefined;
             JString "VerifiableCredential"]
  /\ stated_uris Samples.empty_schema_credential
     = [JString "https://www.w3.org/2018/credentials/v1";
        JString "VerifiableCredential"]
  /\ buildVcContextAndSchemaUris Samples.empty_schema_credential
     <> Some (stated_uris Samples.empty_schema_credential).
Proof.
  repeat split; try reflexivity. vm_compute. discriminate.
Qed.

(** C8, amended: the URIs extracted from a credential are, in this order
    and with duplicates kept, the [@context] values (the elements of a
    list, any other value as one entry); then the [id] of each entry of
    a non-empty [credentialSchema] list, or the one [id] read from any
    other truthy [credentialSchema] (a single object, but also an empty
    list, whose [id] is [undefined]), nothing when it is absent; then
    the [type] values (the elements of a list, a single truthy value as
    one entry, nothing when absent). *)
Theorem uri_extraction_order (c : list (string * value)) :
  schema_readable c = true ->
  buildVcContextAndSchemaUris c
  = Some (context_uris c ++ schema_uris c ++ type_uris c)
  /\ context_uris c
     = match field c "@context" with
       | JArray values => values
       | single => [single]
       end
  /\ schema_uris c
     = match field c "credentialSchema" with
       | JArray (e :: es) => map id_of (e :: es)
       | JArray [] => [JUndefined]
       | JUndefined => []
       | other => if truthy other then [id_of other] else []
       end
  /\ type_uris c
     = match field c "type" with
       | JArray types => types
       | JUndefined => []
       | single => if truthy single then [single] else []
       end.
Proof.
  intros Hok. split; [now apply buildVcContextAndSchemaUris_spec|].
  split; [reflexivity|]. split.
  - unfold schema_uris.
    destruct (field c "credentialSchema") as [| |b|z|s|es|ps]; reflexivity.
  - unfold type_uris. destruct (field c "type"); reflexivity.
Qed.

Lemma uri_extraction_order_witness :
  schema_readable Samples.degree_credential = true
  /\ buildVcContextAndSchemaUris Samples.degree_credential
     = Some [JString "https://www.w3.org/2018/credentials/v1";
             JString "https://example.org/schema#A";
             JString "VerifiableCredential"].
Proof.
  split; [reflexivity|].
  exact (proj1 (uri_extraction_order Samples.degree_credential eq_refl)).
Defined.

(** C10, as stated, fails in its last part: a credential whose
    [@context] is an empty list, without [credentialSchema] and [type],
    has no URI at all. *)
Lemma uri_extraction_can_be_empty :
  buildVcContextAndSchemaUris Samples.empty_context_credential = Some []
  /\ ~ (forall c uris, buildVcContextAndSchemaUris c = Some uris -> uris <> []).
Proof.
  split; [reflexivity|].
  intros H. now apply (H Samples.empty_context_credential [] eq_refl).
Qed.

(** C10, amended: an empty [credentialSchema] list is not skipped, it
    contributes one [undefined] entry; an absent [@context] contributes
    one [undefined] entry too; and the extracted list has at least one
    element whenever [@context] is not an empty list. *)
Theorem uri_extraction_undefined_entries (c : list (string * value)) :
  schema_readable c = true ->
  exists uris,
    buildVcContextAndSchemaUris c = Some uris
    /\ (field c "credentialSchema" = JArray [] ->
        uris = context_uris c ++ [JUndefined] ++ type_uris c)
    /\ (field c "@context" = JUndefined -> exists rest, uris = JUndefined :: rest)
    /\ (field c "@context" <> JArray [] -> uris <> []).
Proof.
  intros Hok. exists (extracted_uris c).
  split; [now apply buildVcContextAndSchemaUris_spec|].
  unfold extracted_uris. repeat split.
  - intros Hcs. unfold schema_uris. now rewrite Hcs.
  - intros Hctx. unfold context_uris. rewrite Hctx. simpl. eauto.
  - intros Hctx. unfold context_uris.
    destruct (field c "@context") as [| |b|z|s|vs|ps]; try discriminate.
    destruct vs; [congruence|discriminate].
Qed.

Lemma uri_extraction_undefined_entries_witness :
  schema_readable Samples.bare_credential = true
  /\ exists uris,
       buildVcContextAndSchemaUris Samples.bare_credential = Some uris
       /\ uris = [JUndefined; JUndefined; JString "https://example.org/schema#B"].
Proof.
  split; [reflexivity|].
  destruct (uri_extraction_undefined_entries Samples.bare_credential eq_refl)
    as (uris & Hrun & Hschema & _).
  exists uris. split; [exact Hrun|]. exact (Hschema eq_refl).
Defined.

End UriExtraction.

(** ** Decimal indices and addressing strings *)

Lemma array_index_string_of_nat (n : nat) :
  array_index (string_of_nat n) = Some n.
Proof.
  unfold array_index, string_of_nat.
  rewrite NilEmpty.usu, DecimalNat.Unsigned.of_to.
  now rewrite String.eqb_refl.
Qed.

Lemma string_of_nat_inj (a b : nat) :
  string_of_nat a = string_of_nat b -> a = b.
Proof.
  intros H. pose proof (array_index_string_of_nat a) as Ha.
  rewrite H, array_index_string_of_nat in Ha. congruence.
Qed.

Lemma string_app_inv_head (p a b : string) :
  (p ++ a)%string = (p ++ b)%string -> a = b.
Proof.
  induction p as [|c p IH]; simpl; intros H; [exact H|].
  injection H as H. now apply IH.
Qed.

Section UriAddressing.
Import UriEvaluationHandler.

Lemma strip_closing_bracket_app (s : string) :
  strip_closing_bracket (s ++ "]") = Some s.
Proof.
  induction s as [|c s IH]; [reflexivity|].
  change ((String c s ++ "]")%string) with (String c (s ++ "]")).
  cbn [strip_closing_bracket]. rewrite IH.
  destruct s; reflexivity.
Qed.

Lemma descriptor_index_path (i : nat) :
  descriptor_index (input_descriptors_path i) = Some i.
Proof.
  unfold descriptor_index, input_descriptors_path. cbn [strip_prefix append].
  rewrite !Ascii.eqb_refl. cbn [bind].
  rewrite strip_closing_bracket_app. cbn [bind].
  apply array_index_string_of_nat.
Qed.

Lemma input_descriptors_path_inj (a b : nat) :
  input_descriptors_path a = input_descriptors_path b -> a = b.
Proof.
  intros H. pose proof (descriptor_index_path a) as Ha.
  rewrite H, descriptor_index_path in Ha. congruence.
Qed.

Lemma credential_path_inj (a b : nat) :
  ("$[" ++ string_of_nat a ++ "]")%string = ("$[" ++ string_of_nat b ++ "]")%string
  -> a = b.
Proof.
  intros H. apply string_app_inv_head in H.
  apply string_of_nat_inj.
  pose proof (strip_closing_bracket_app (string_of_nat a)) as Ha.
  rewrite H, strip_closing_bracket_app in Ha. congruence.
Qed.

(** The path a result of this handler carries leads back to the
    descriptor it was made for. *)
Lemma jp_nodes_own_path (d : IInternalPresentationDefinition) (i : nat)
  (inDesc : InputDescriptorV1) :
  nth_error (input_descriptors d) i = Some inDesc ->
  jp_nodes d (input_descriptors_path i) = [inDesc].
Proof.
  intros H. unfold jp_nodes. now rewrite descriptor_index_path, H.
Qed.

End UriAddressing.

(** ** Loops *)

Lemma in_flat_mapi {A B : Type} (f : A -> nat -> list B) (l : list A) (i : nat) (y : B) :
  In y (flat_mapi f l i) <->
  exists x k, nth_error l k = Some x /\ In y (f x (i + k)).
Proof.
  revert i; induction l as [|x l IH]; intros i; simpl.
  - split; [tauto|]. intros (x & k & Hk & _). now destruct k.
  - rewrite in_app_iff, IH. split.
    + intros [H|(x' & k & Hk & H)].
      * exists x, 0. rewrite Nat.add_0_r. now split.
      * exists x', (S k). split; [exact Hk|]. now rewrite Nat.add_succ_r.
    + intros (x' & [|k] & Hk & H); simpl in Hk.
      * injection Hk as <-. rewrite Nat.add_0_r in H. now left.
      * right. exists x', k. split; [exact Hk|]. now rewrite Nat.add_succ_r in H.
Qed.

(** Filtering what two nested loops produced, when the filter keeps
    elements of one turn only. *)
Lemma filter_flat_mapi_select {A B : Type} (f : A -> nat -> list B)
  (keep : B -> bool) (l : list A) (i k : nat) (x : A) :
  (forall x' k', k' <> i + k -> filter keep (f x' k') = []) ->
  nth_error l k = Some x ->
  filter keep (flat_mapi f l i) = filter keep (f x (i + k)).
Proof.
  intros Hother. revert i k Hother.
  induction l as [|x0 l IH]; intros i k Hother Hk; [now destruct k|].
  simpl. rewrite filter_app. destruct k as [|k]; simpl in Hk.
  - injection Hk as ->. rewrite Nat.add_0_r in *.
    assert (Hrest : filter keep (flat_mapi f l (S i)) = []).
    { clear IH. assert (Hgen : forall m, i < m -> filter keep (flat_mapi f l m) = []).
      { induction l as [|x1 l IHl]; intros m Hm; simpl; [reflexivity|].
        rewrite filter_app, (Hother x1 m) by lia. now apply IHl; lia. }
      apply Hgen. lia. }
    now rewrite Hrest, app_nil_r.
  - rewrite (Hother x0 i) by lia. simpl.
    rewrite (IH (S i) k); [now rewrite Nat.add_succ_r| |exact Hk].
    intros x' k' Hk'. apply Hother. lia.
Qed.

(** A loop whose every turn appends to a log appends the turns' entries
    in order. *)
Lemma forEach_appends {A B : Type} (body : A -> nat -> list B -> option (list B))
  (f : A -> nat -> list B) (l : list A) :
  (forall x k log, In x l -> body x k log = Some (log ++ f x k)) ->
  forall i log, forEach body l i log = Some (log ++ flat_mapi f l i).
Proof.
  induction l as [|x l IH]; intros Hbody i log; simpl.
  - now rewrite app_nil_r.
  - rewrite (Hbody x i log) by now left. cbn [bind].
    rewrite IH by (intros; apply Hbody; now right).
    now rewrite <- app_assoc.
Qed.

Section UriHandle.
Import UriEvaluationHandler.

Lemma warn_loop (uris : list string) (i j : nat) (log : list HandlerCheckResult) :
  fold_left (fun rs u => if containsHashlink u
                         then push rs (createWarnResultObject i j) else rs)
            uris log
  = log ++ map (fun _ => createWarnResultObject i j) (filter containsHashlink uris).
Proof.
  revert log; induction uris as [|u uris IH]; intros log; simpl.
  - now rewrite app_nil_r.
  - rewrite IH. destruct (containsHashlink u); [|reflexivity].
    unfold push. now rewrite <- app_assoc.
Qed.

Lemma find_not_undefined {A : Type} (p : A -> bool) (l : list A) :
  is_some (find p l) = existsb p l.
Proof.
  induction l as [|x l IH]; simpl; [reflexivity|].
  destruct (p x); [reflexivity|exact IH].
Qed.

Lemma match_loop (uris : list string) (vcUris : list value) (matched : bool) :
  fold_left (fun m vcUri =>
               if not_undefined (find (fun el => strict_equals el vcUri) uris)
               then true else m)
            vcUris matched
  = matched || has_match uris vcUris.
Proof.
  revert matched; induction vcUris as [|v vcUris IH]; intros matched; simpl.
  - now rewrite orb_false_r.
  - rewrite IH. change not_undefined with (@is_some string).
    rewrite find_not_undefined.
    destruct (existsb _ uris); simpl; [now rewrite orb_true_r|reflexivity].
Qed.

Lemma evaluateUris_spec (wvc : WrappedVerifiableCredential) (vcUris : list value)
  (uris : list string) (i j : nat) (version : PEVersion)
  (log : list HandlerCheckResult) :
  evaluateUris wvc vcUris uris i j version log
  = log ++ warn_results uris i j version
        ++ [match_result wvc vcUris uris i j version].
Proof.
  unfold evaluateUris, warn_results, match_result.
  destruct version; cbn [PEVersion_eqb].
  - rewrite warn_loop, match_loop. cbn [orb]. unfold push.
    destruct (has_match uris vcUris); now rewrite <- app_assoc.
  - reflexivity.
Qed.

Lemma handle_log (d : IInternalPresentationDefinition)
  (wrappedVcs : list WrappedVerifiableCredential) (log : list HandlerCheckResult) :
  forallb extractable wrappedVcs = true ->
  forEach (fun inDesc i rs =>
             let uris := descriptor_uris d inDesc in
             forEach (fun wvc j rs' =>
                        vcUris <- buildVcContextAndSchemaUris (credential wvc) ;;
                        Some (evaluateUris wvc vcUris uris i j (getVersion d) rs'))
                     wrappedVcs 0 rs)
          (input_descriptors d) 0 log
  = Some (log ++ appended_results d wrappedVcs).
Proof.
  intros Hok. unfold appended_results.
  apply forEach_appends. intros inDesc i rs _. cbv zeta.
  apply forEach_appends. intros wvc j rs' Hin.
  rewrite forallb_forall in Hok. specialize (Hok wvc Hin).
  rewrite (buildVcContextAndSchemaUris_spec _ Hok). cbn [bind].
  now rewrite evaluateUris_spec.
Qed.

Lemma traverse_Forall2 {A B : Type} (f : A -> option B) (l : list A) :
  forallb (fun x => is_some (f x)) l = true ->
  exists ys, traverse f l = Some ys /\ Forall2 (fun x y => f x = Some y) l ys.
Proof.
  induction l as [|x l IH]; simpl; intros Hok.
  - exists []. split; [reflexivity|constructor].
  - apply andb_prop in Hok as [Hx Hl].
    destruct (f x) as [y|] eqn:Hfx; [|discriminate].
    destruct (IH Hl) as (ys & Hys & Hall). rewrite Hys. cbn [bind].
    exists (y :: ys). split; [reflexivity|]. now constructor.
Qed.

Lemma appended_results_resolve (d : IInternalPresentationDefinition)
  (wrappedVcs : list WrappedVerifiableCredential) (e : HandlerCheckResult) :
  In e (appended_results d wrappedVcs) ->
  exists i j inDesc wvc,
    nth_error (input_descriptors d) i = Some inDesc
    /\ nth_error wrappedVcs j = Some wvc
    /\ In e (pair_results d inDesc i wvc j).
Proof.
  unfold appended_results. rewrite in_flat_mapi.
  intros (inDesc & i & Hi & He). rewrite in_flat_mapi in He.
  destruct He as (wvc & j & Hj & He). simpl in He.
  now exists i, j, inDesc, wvc.
Qed.

Lemma pair_results_paths (d : IInternalPresentationDefinition)
  (inDesc : InputDescriptorV1) (i : nat) (wvc : WrappedVerifiableCredential)
  (j : nat) (e : HandlerCheckResult) :
  In e (pair_results d inDesc i wvc j) ->
  input_descriptor_path e = input_descriptors_path i
  /\ verifiable_credential_path e = ("$[" ++ string_of_nat j ++ "]")%string.
Proof.
  unfold pair_results, warn_results, match_result. rewrite in_app_iff.
  intros [H|[<-|[]]].
  - destruct (getVersion d); [|destruct H].
    apply in_map_iff in H as (u & <- & _). now split.
  - destruct (match getVersion d with v1 => _ | v2 => true end); now split.
Qed.

Lemma log_resolves_app (d : IInternalPresentationDefinition)
  (wrappedVcs : list WrappedVerifiableCredential) (log : list HandlerCheckResult) :
  log_resolves d log = true ->
  log_resolves d (log ++ appended_results d wrappedVcs) = true.
Proof.
  unfold log_resolves. intros Hlog.
  rewrite filter_app, forallb_app, Hlog. cbn [andb].
  apply forallb_forall. intros e He. apply filter_In in He as [He _].
  apply appended_results_resolve in He as (i & j & inDesc & wvc & Hi & _ & He).
  apply pair_results_paths in He as [Hp _].
  unfold resolvable. now rewrite Hp, (jp_nodes_own_path _ _ _ Hi).
Qed.

(** What one run of the handler leaves behind. *)
Lemma handle_spec (d : IInternalPresentationDefinition)
  (wrappedVcs : list WrappedVerifiableCredential) (nanoid : string)
  (this : EvaluationClient) :
  forallb extractable wrappedVcs = true ->
  log_resolves d (results this) = true ->
  exists descriptorMap,
    traverse (descriptor_of_result d)
             (filter is_info (results this ++ appended_results d wrappedVcs))
    = Some descriptorMap
    /\ Forall2 (fun e entry => descriptor_of_result d e = Some entry)
               (filter is_info (results this ++ appended_results d wrappedVcs))
               descriptorMap
    /\ handle d wrappedVcs nanoid this
       = Some {| results := results this ++ appended_results d wrappedVcs;
                 presentationSubmission :=
                   Some {| submission_id := nanoid;
                           definition_id := pd_id d;
                           descriptor_map := descriptorMap |} |}.
Proof.
  intros Hok Hlog. unfold handle. rewrite (handle_log d _ _ Hok). cbn [bind].
  pose proof (log_resolves_app d wrappedVcs _ Hlog) as Hall.
  unfold log_resolves in Hall.
  destruct (traverse_Forall2 (descriptor_of_result d)
              (filter is_info (results this ++ appended_results d wrappedVcs)))
    as (dm & Hdm & Hent).
  { rewrite forallb_forall in Hall |- *. intros e He. specialize (Hall e He).
    unfold resolvable in Hall. unfold descriptor_of_result.
    now destruct (first_node_value _). }
  exists dm. rewrite Hdm. cbn [bind]. repeat split; assumption.
Qed.

End UriHandle.

(** ** Hashlink detection *)

Section Hashlinks.
Import UriEvaluationHandler.

Lemma star_class_empty (p : ascii -> bool) (prev : option ascii)
  (k : option ascii -> string -> bool) :
  rmatch (Star (Class p)) prev EmptyString k = k prev EmptyString.
Proof. cbn. now destruct (k prev EmptyString). Qed.

Lemma star_class_step (p : ascii -> bool) (prev : option ascii) (c : ascii)
  (s : string) (k : option ascii -> string -> bool) :
  rmatch (Star (Class p)) prev (String c s) k
  = if k prev (String c s) then true
    else if p c then rmatch (Star (Class p)) (Some c) s k else false.
Proof.
  cbn [rmatch String.length].
  destruct (k prev (String c s)); [reflexivity|].
  destruct (p c); [|reflexivity].
  assert (H : Nat.ltb (String.length s) (S (String.length s)) = true)
    by (apply Nat.ltb_lt; lia).
  rewrite H. reflexivity.
Qed.

Lemma star_class_token (p : ascii -> bool) (k : option ascii -> string -> bool)
  (token rest : string) :
  all_chars p token = true ->
  forall prev,
    k (last_char prev token) rest = true ->
    rmatch (Star (Class p)) prev (token ++ rest) k = true.
Proof.
  induction token as [|c token IH]; intros Hall prev Hk.
  - cbn [append last_char] in *. destruct rest as [|c rest].
    + now rewrite star_class_empty.
    + rewrite star_class_step. now rewrite Hk.
  - cbn [append all_chars last_char] in *. rewrite star_class_step.
    destruct (k prev (String c (token ++ rest))); [reflexivity|].
    destruct (p c); [|discriminate]. now apply IH.
Qed.

Lemma plus_class_token (p : ascii -> bool) (k : option ascii -> string -> bool)
  (token rest : string) (prev : option ascii) :
  token <> EmptyString ->
  all_chars p token = true ->
  k (last_char prev token) rest = true ->
  rmatch (plus (Class p)) prev (token ++ rest) k = true.
Proof.
  destruct token as [|c token]; [congruence|]. intros _ Hall Hk.
  cbn [append all_chars last_char] in *.
  unfold plus. cbn [rmatch]. destruct (p c); [|discriminate].
  now apply star_class_token.
Qed.

Lemma search_here (r : regex) (prev : option ascii) (s : string) :
  rmatch r prev s (fun _ _ => true) = true -> search r prev s = true.
Proof. intros H. destruct s; cbn [search]; now rewrite H. Qed.

Lemma search_skips (r : regex) (before s : string) :
  forall prev,
    search r (last_char prev before) s = true ->
    search r prev (before ++ s) = true.
Proof.
  induction before as [|c before IH]; intros prev H; [exact H|].
  cbn [append search last_char] in *.
  destruct (rmatch r prev (String c (before ++ s)) (fun _ _ => true));
    [reflexivity|now apply IH].
Qed.

(** The encoded form: [hl:], a token, a colon and a token, the tokens
    being one or more letters or digits, is detected wherever it occurs
    in a URI. *)
Lemma encoded_hashlink_is_detected (before token1 token2 after : string) :
  token1 <> EmptyString -> all_chars is_alnum token1 = true ->
  token2 <> EmptyString -> all_chars is_alnum token2 = true ->
  containsHashlink (before ++ "hl:" ++ token1 ++ ":" ++ token2 ++ after) = true.
Proof.
  intros H1 A1 H2 A2. unfold containsHashlink.
  assert (Hs : search HASHLINK_URL_ENCODED_REGEX None
                 (before ++ "hl:" ++ token1 ++ ":" ++ token2 ++ after) = true).
  { apply search_skips, search_here. cbn [append].
    unfold HASHLINK_URL_ENCODED_REGEX. cbn [rmatch lit Ascii.eqb Bool.eqb].
    apply plus_class_token; auto.
    cbn [rmatch lit Ascii.eqb Bool.eqb append last_char].
    now apply plus_class_token. }
  unfold matchAll_done at 2. rewrite Hs. cbn [negb].
  now destruct (matchAll_done _ HASHLINK_QUERY_URL_REGEX).
Qed.

End Hashlinks.

(** ** The URI evaluation handler *)

Section UriClaims.
Import UriEvaluationHandler.

Lemma filter_nothing {A : Type} (keep : A -> bool) (l : list A) :
  (forall x, In x l -> keep x = false) -> filter keep l = [].
Proof.
  induction l as [|x l IH]; intros H; simpl; [reflexivity|].
  rewrite (H x) by now left. apply IH. intros; apply H. now right.
Qed.

Lemma map_const_repeat {A B : Type} (b : B) (l : list A) :
  map (fun _ => b) l = repeat b (List.length l).
Proof.
  induction l as [|x l IH]; simpl; [reflexivity|now rewrite IH].
Qed.

Lemma of_pair_iff (i j : nat) (e : HandlerCheckResult) :
  of_pair i j e = true <->
  input_descriptor_path e = input_descriptors_path i
  /\ verifiable_credential_path e = ("$[" ++ string_of_nat j ++ "]")%string.
Proof.
  unfold of_pair. now rewrite andb_true_iff, !String.eqb_eq.
Qed.

(** Among the results of a run, those of the pair [(i, j)] are the ones
    the turn for that pair appended. *)
Lemma appended_results_of_pair (d : IInternalPresentationDefinition)
  (wrappedVcs : list WrappedVerifiableCredential) (keep : HandlerCheckResult -> bool)
  (i j : nat) (inDesc : InputDescriptorV1) (wvc : WrappedVerifiableCredential) :
  (forall e, keep e = true -> of_pair i j e = true) ->
  nth_error (input_descriptors d) i = Some inDesc ->
  nth_error wrappedVcs j = Some wvc ->
  filter keep (appended_results d wrappedVcs)
  = filter keep (pair_results d inDesc i wvc j).
Proof.
  intros Hkeep Hi Hj. unfold appended_results.
  assert (Hout : forall inDesc' i' wvc' j' e,
             (i' <> i \/ j' <> j) ->
             In e (pair_results d inDesc' i' wvc' j') -> keep e = false).
  { intros inDesc' i' wvc' j' e Hne He.
    destruct (keep e) eqn:Hk; [|reflexivity]. exfalso.
    apply Hkeep, of_pair_iff in Hk as [Hp Hc].
    apply pair_results_paths in He as [Hp' Hc'].
    rewrite Hp' in Hp. rewrite Hc' in Hc.
    apply input_descriptors_path_inj in Hp. apply credential_path_inj in Hc.
    destruct Hne; congruence. }
  rewrite (filter_flat_mapi_select _ keep _ 0 i inDesc); [|  |exact Hi].
  - cbn [Nat.add].
    rewrite (filter_flat_mapi_select _ keep _ 0 j wvc); [reflexivity| |exact Hj].
    intros wvc' j' Hj'. apply filter_nothing. intros e. apply Hout. now right.
  - intros inDesc' i' Hi'. apply filter_nothing. intros e He.
    apply in_flat_mapi in He as (wvc' & j' & _ & He).
    revert He. apply Hout. now left.
Qed.

Lemma match_result_status (wvc : WrappedVerifiableCredential) (vcUris : list value)
  (uris : list string) (i j : nat) (version : PEVersion) :
  status (match_result wvc vcUris uris i j version)
  = if match version with v1 => has_match uris vcUris | v2 => true end
    then INFO else ERROR.
Proof.
  unfold match_result.
  now destruct (match version with v1 => _ | v2 => true end).
Qed.

Lemma match_result_of_pair (wvc : WrappedVerifiableCredential) (vcUris : list value)
  (uris : list string) (i j : nat) (version : PEVersion) :
  is_match_result_of i j (match_result wvc vcUris uris i j version) = true.
Proof.
  unfold is_match_result_of, of_pair, match_result.
  destruct (match version with v1 => _ | v2 => true end); simpl;
    now rewrite !String.eqb_refl.
Qed.

Lemma filter_match_pair_results (d : IInternalPresentationDefinition)
  (inDesc : InputDescriptorV1) (i : nat) (wvc : WrappedVerifiableCredential)
  (j : nat) :
  filter (is_match_result_of i j) (pair_results d inDesc i wvc j)
  = [match_result wvc (extracted_uris (credential wvc))
                  (descriptor_uris d inDesc) i j (getVersion d)].
Proof.
  unfold pair_results. rewrite filter_app. cbn [filter].
  rewrite match_result_of_pair.
  rewrite filter_nothing; [reflexivity|].
  intros e He. unfold warn_results in He.
  destruct (getVersion d); [|destruct He].
  apply in_map_iff in He as (u & <- & _).
  unfold is_match_result_of. simpl. now rewrite andb_false_r.
Qed.

Lemma filter_warn_pair_results (d : IInternalPresentationDefinition)
  (inDesc : InputDescriptorV1) (i : nat) (wvc : WrappedVerifiableCredential)
  (j : nat) :
  filter (is_warn_result_of i j) (pair_results d inDesc i wvc j)
  = warn_results (descriptor_uris d inDesc) i j (getVersion d).
Proof.
  unfold pair_results. rewrite filter_app. cbn [filter].
  assert (Hm : is_warn_result_of i j
                 (match_result wvc (extracted_uris (credential wvc))
                    (descriptor_uris d inDesc) i j (getVersion d)) = false).
  { unfold is_warn_result_of. rewrite match_result_status.
    destruct (match getVersion d with v1 => _ | v2 => true end);
      now rewrite andb_false_r. }
  rewrite Hm, app_nil_r. unfold warn_results.
  destruct (getVersion d); [|reflexivity].
  induction (filter containsHashlink (descriptor_uris d inDesc)) as [|u us IH];
    [reflexivity|].
  cbn [map filter]. rewrite IH.
  unfold is_warn_result_of, of_pair. simpl. now rewrite !String.eqb_refl.
Qed.

Lemma has_match_iff (uris : list string) (vcUris : list value) :
  has_match uris vcUris = true <->
  exists u, In u uris /\ In (JString u) vcUris.
Proof.
  unfold has_match. rewrite existsb_exists. split.
  - intros (v & Hv & Hex). apply existsb_exists in Hex as (u & Hu & Heq).
    destruct v; try discriminate. apply String.eqb_eq in Heq as <-. eauto.
  - intros (u & Hu & Hv). exists (JString u). split; [exact Hv|].
    apply existsb_exists. exists u. split; [exact Hu|]. simpl. apply String.eqb_refl.
Qed.

(** C1: for every pair of a descriptor [i] and a credential [j], one run
    of [handle] appends exactly one match result.  Under version 1 its
    status is INFO exactly when some URI extracted from the credential
    is a string equal to a URI of the descriptor's schema list, and
    ERROR otherwise; under version 2 it is INFO whatever the URIs are. *)
Theorem uri_handle_match_result (d : IInternalPresentationDefinition)
  (wrappedVcs : list WrappedVerifiableCredential) (nanoid : string)
  (this : EvaluationClient) (i j : nat) (inDesc : InputDescriptorV1)
  (wvc : WrappedVerifiableCredential) :
  forallb extractable wrappedVcs = true ->
  log_resolves d (results this) = true ->
  nth_error (input_descriptors d) i = Some inDesc ->
  nth_error wrappedVcs j = Some wvc ->
  exists this' appended vcUris r,
    handle d wrappedVcs nanoid this = Some this'
    /\ results this' = results this ++ appended
    /\ buildVcContextAndSchemaUris (credential wvc) = Some vcUris
    /\ filter (is_match_result_of i j) appended = [r]
    /\ match getVersion d with
       | v1 =>
           (status r = INFO <->
            exists u, In u (map uri (schema inDesc)) /\ In (JString u) vcUris)
           /\ (status r <> INFO -> status r = ERROR)
       | v2 => status r = INFO
       end.
Proof.
  intros Hok Hlog Hi Hj.
  destruct (handle_spec d wrappedVcs nanoid this Hok Hlog) as (dm & _ & _ & Hrun).
  eexists _, (appended_results d wrappedVcs), (extracted_uris (credential wvc)), _.
  split; [exact Hrun|]. split; [reflexivity|]. split.
  { apply buildVcContextAndSchemaUris_spec.
    rewrite forallb_forall in Hok. apply (Hok wvc). eapply nth_error_In; eauto. }
  split.
  { rewrite (appended_results_of_pair d wrappedVcs _ i j inDesc wvc); auto.
    - apply filter_match_pair_results.
    - unfold is_match_result_of. intros e He. now apply andb_prop in He. }
  rewrite match_result_status. unfold descriptor_uris.
  destruct (getVersion d); cbn [PEVersion_eqb negb]; [|reflexivity].
  rewrite <- has_match_iff.
  destruct (has_match _ _); split; try tauto; try congruence.
  split; congruence.
Qed.

Lemma uri_handle_match_result_witness :
  exists this' appended r,
    handle Samples.definition_v1 Samples.wrapped_credentials "submission-1"
           Samples.used_client = Some this'
    /\ results this' = results Samples.used_client ++ appended
    /\ filter (is_match_result_of 0 0) appended = [r]
    /\ status r = INFO.
Proof.
  destruct (uri_handle_match_result Samples.definition_v1
              Samples.wrapped_credentials "submission-1" Samples.used_client 0 0
              (mkInputDescriptor "degree"
                 [mkSchema "hl:zQmAbc:zQmXyz"; mkSchema "https://example.org/schema#A"])
              (mkWrapped Samples.degree_credential)
              eq_refl eq_refl eq_refl eq_refl)
    as (this' & appended & vcUris & r & Hrun & Hlog & Huris & Hone & Hstatus & _).
  exists this', appended, r. repeat split; try assumption.
  apply Hstatus. exists "https://example.org/schema#A". split.
  - simpl. tauto.
  - injection Huris as <-. simpl. tauto.
Defined.

(** C2: after all pairs, [handle] replaces the submission by a new one.
    Its [descriptor_map] has one entry for each INFO result of the whole
    result log, in the order of the log; the entry's [id] is the [id]
    of the descriptor its [input_descriptor_path] resolves to, its
    [format] is ["ldp_vc"], its [path] the [verifiable_credential_path]
    of the result.  The submission's [id] is the identifier generated
    in this run, its [definition_id] the [id] of the definition. *)
Theorem uri_handle_submission (d : IInternalPresentationDefinition)
  (wrappedVcs : list WrappedVerifiableCredential) (nanoid : string)
  (this : EvaluationClient) :
  forallb extractable wrappedVcs = true ->
  log_resolves d (results this) = true ->
  exists this' submission,
    handle d wrappedVcs nanoid this = Some this'
    /\ presentationSubmission this' = Some submission
    /\ submission_id submission = nanoid
    /\ definition_id submission = pd_id d
    /\ List.length (descriptor_map submission)
       = List.length (filter is_info (results this'))
    /\ Forall2
         (fun e entry =>
            exists inputDescriptor,
              first_node_value (jp_nodes d (input_descriptor_path e))
              = Some inputDescriptor
              /\ descriptor_id entry = id inputDescriptor
              /\ descriptor_format entry = "ldp_vc"
              /\ descriptor_path entry = verifiable_credential_path e)
         (filter is_info (results this')) (descriptor_map submission).
Proof.
  intros Hok Hlog.
  destruct (handle_spec d wrappedVcs nanoid this Hok Hlog) as (dm & _ & Hent & Hrun).
  eexists _, _. split; [exact Hrun|]. cbn [presentationSubmission results].
  split; [reflexivity|]. cbn [submission_id definition_id descriptor_map].
  split; [reflexivity|]. split; [reflexivity|]. split.
  - symmetry. eapply Forall2_length; eauto.
  - eapply Forall2_impl; [|exact Hent]. intros e entry He.
    unfold descriptor_of_result in He.
    destruct (first_node_value _) as [inputDescriptor|]; [|discriminate].
    cbn [bind] in He. injection He as <-. exists inputDescriptor. now repeat split.
Qed.

Lemma uri_handle_submission_witness :
  exists this',
    handle Samples.definition_v1 Samples.wrapped_credentials "submission-1"
           Samples.used_client = Some this'
    /\ presentationSubmission this'
       = Some (mkSubmission "submission-1" "definition-1"
                 [mkDescriptor "licence" "ldp_vc" "$[0]";
                  mkDescriptor "degree" "ldp_vc" "$[0]"]).
Proof.
  destruct (uri_handle_submission Samples.definition_v1
              Samples.wrapped_credentials "submission-1" Samples.used_client
              eq_refl eq_refl)
    as (this' & submission & Hrun & Hsub & _).
  exists this'. split; [exact Hrun|].
  vm_compute in Hrun. injection Hrun as <-. reflexivity.
Defined.

(** C7, as stated, fails: the WARN result of a declared hashlink carries
    the text about hashlink verification as its payload; its message is
    the one of a failed URI evaluation. *)
Lemma uri_warn_message_is_not_the_hashlink_text :
  exists this' w,
    handle Samples.definition_v1 Samples.wrapped_credentials "submission-1"
           Samples.fresh_client = Some this'
    /\ filter (is_warn_result_of 0 0) (results this') = [w]
    /\ result_message w = MsgPex URI_EVALUATION_DIDNT_PASS
    /\ result_message w
       <> MsgPex INPUT_DESCRIPTOR_CONTEXT_CONTAINS_HASHLINK_VERIFICATION_NOT_SUPPORTED.
Proof.
  eexists _, _. split; [vm_compute; reflexivity|].
  split; [vm_compute; reflexivity|]. split; [reflexivity|discriminate].
Qed.

(** C7, amended: under version 1, for every pair of a descriptor and a
    credential, each declared URI that matches one of the two hashlink
    patterns yields exactly one WARN result, whose payload is the text
    that hashlink verification is not supported and whose message is
    the one of a failed URI evaluation; the warnings come with the
    pair's one INFO or ERROR match result and do not prevent it.  A
    declared ["hl:zQmAbc:zQmXyz"] always yields such a WARN. *)
Theorem uri_handle_hashlink_warnings (d : IInternalPresentationDefinition)
  (wrappedVcs : list WrappedVerifiableCredential) (nanoid : string)
  (this : EvaluationClient) (i j : nat) (inDesc : InputDescriptorV1)
  (wvc : WrappedVerifiableCredential) :
  forallb extractable wrappedVcs = true ->
  log_resolves d (results this) = true ->
  getVersion d = v1 ->
  nth_error (input_descriptors d) i = Some inDesc ->
  nth_error wrappedVcs j = Some wvc ->
  exists this' appended,
    handle d wrappedVcs nanoid this = Some this'
    /\ results this' = results this ++ appended
    /\ filter (is_warn_result_of i j) appended
       = repeat (createWarnResultObject i j)
                (List.length (filter containsHashlink (map uri (schema inDesc))))
    /\ status (createWarnResultObject i j) = WARN
    /\ result_payload (createWarnResultObject i j)
       = PayloadPex INPUT_DESCRIPTOR_CONTEXT_CONTAINS_HASHLINK_VERIFICATION_NOT_SUPPORTED
    /\ result_message (createWarnResultObject i j)
       = MsgPex URI_EVALUATION_DIDNT_PASS
    /\ List.length (filter (is_match_result_of i j) appended) = 1
    /\ containsHashlink "hl:zQmAbc:zQmXyz" = true
    /\ (In "hl:zQmAbc:zQmXyz" (map uri (schema inDesc)) ->
        In (createWarnResultObject i j) appended).
Proof.
  intros Hok Hlog Hv Hi Hj.
  destruct (handle_spec d wrappedVcs nanoid this Hok Hlog) as (dm & _ & _ & Hrun).
  eexists _, (appended_results d wrappedVcs).
  split; [exact Hrun|]. split; [reflexivity|].
  assert (Hwarns : filter (is_warn_result_of i j) (appended_results d wrappedVcs)
                   = repeat (createWarnResultObject i j)
                       (List.length (filter containsHashlink (map uri (schema inDesc))))).
  { rewrite (appended_results_of_pair d wrappedVcs _ i j inDesc wvc); auto.
    - rewrite filter_warn_pair_results. unfold warn_results, descriptor_uris.
      rewrite Hv. cbn [PEVersion_eqb negb]. apply map_const_repeat.
    - unfold is_warn_result_of. intros e He. now apply andb_prop in He. }
  split; [exact Hwarns|]. do 3 (split; [reflexivity|]). split.
  { rewrite (appended_results_of_pair d wrappedVcs _ i j inDesc wvc); auto.
    - now rewrite filter_match_pair_results.
    - unfold is_match_result_of. intros e He. now apply andb_prop in He. }
  split; [vm_compute; reflexivity|].
  intros Hin.
  assert (Hw : In (createWarnResultObject i j)
                  (filter (is_warn_result_of i j) (appended_results d wrappedVcs))).
  { rewrite Hwarns.
    assert (Hf : In "hl:zQmAbc:zQmXyz"
                    (filter containsHashlink (map uri (schema inDesc)))).
    { apply filter_In. split; [exact Hin|vm_compute; reflexivity]. }
    destruct (filter containsHashlink (map uri (schema inDesc))); [destruct Hf|].
    now left. }
  now apply filter_In in Hw.
Qed.

Lemma uri_handle_hashlink_warnings_witness :
  exists this' appended,
    handle Samples.definition_v1 Samples.wrapped_credentials "submission-1"
           Samples.fresh_client = Some this'
    /\ results this' = results Samples.fresh_client ++ appended
    /\ filter (is_warn_result_of 0 1) appended = [createWarnResultObject 0 1]
    /\ In (createWarnResultObject 0 1) appended.
Proof.
  destruct (uri_handle_hashlink_warnings Samples.definition_v1
              Samples.wrapped_credentials "submission-1" Samples.fresh_client 0 1
              (mkInputDescriptor "degree"
                 [mkSchema "hl:zQmAbc:zQmXyz"; mkSchema "https://example.org/schema#A"])
              (mkWrapped Samples.bare_credential)
              eq_refl eq_refl eq_refl eq_refl eq_refl)
    as (this' & appended & Hrun & Hlog & Hwarns & _ & _ & _ & _ & _ & Hin).
  exists this', appended. repeat split; try assumption.
  apply Hin. simpl. tauto.
Defined.

(** C9: two runs of [handle] on the same definition and the same
    credentials, each starting from an empty result log, end with
    submissions whose descriptor maps agree entry for entry in [id],
    [format] and [path]; the identifiers of the two submissions are
    whatever was generated in each run. *)
Theorem uri_handle_descriptor_map_repeatable (d : IInternalPresentationDefinition)
  (wrappedVcs : list WrappedVerifiableCredential) (nanoid1 nanoid2 : string)
  (this1 this2 : EvaluationClient) :
  forallb extractable wrappedVcs = true ->
  results this1 = [] ->
  results this2 = [] ->
  exists after1 after2 submission1 submission2,
    handle d wrappedVcs nanoid1 this1 = Some after1
    /\ handle d wrappedVcs nanoid2 this2 = Some after2
    /\ presentationSubmission after1 = Some submission1
    /\ presentationSubmission after2 = Some submission2
    /\ submission_id submission1 = nanoid1
    /\ submission_id submission2 = nanoid2
    /\ descriptor_map submission1 = descriptor_map submission2
    /\ Forall2 (fun a b => descriptor_id a = descriptor_id b
                         /\ descriptor_format a = descriptor_format b
                         /\ descriptor_path a = descriptor_path b)
               (descriptor_map submission1) (descriptor_map submission2).
Proof.
  intros Hok H1 H2.
  assert (Hlog1 : log_resolves d (results this1) = true) by now rewrite H1.
  assert (Hlog2 : log_resolves d (results this2) = true) by now rewrite H2.
  destruct (handle_spec d wrappedVcs nanoid1 this1 Hok Hlog1) as (dm1 & Hdm1 & _ & Hrun1).
  destruct (handle_spec d wrappedVcs nanoid2 this2 Hok Hlog2) as (dm2 & Hdm2 & _ & Hrun2).
  rewrite H1 in Hdm1. rewrite H2, Hdm1 in Hdm2. injection Hdm2 as <-.
  eexists _, _, _, _. split; [exact Hrun1|]. split; [exact Hrun2|].
  cbn [presentationSubmission submission_id descriptor_map].
  do 5 (split; [reflexivity|]).
  clear. induction dm1; constructor; auto.
Qed.

Lemma uri_handle_descriptor_map_repeatable_witness :
  exists after1 after2 submission1 submission2,
    handle Samples.definition_v1 Samples.wrapped_credentials "first"
           Samples.fresh_client = Some after1
    /\ handle Samples.definition_v1 Samples.wrapped_credentials "second"
              (mkClient [] (presentationSubmission Samples.used_client))
       = Some after2
    /\ presentationSubmission after1 = Some submission1
    /\ presentationSubmission after2 = Some submission2
    /\ descriptor_map submission1 = descriptor_map submission2.
Proof.
  destruct (uri_handle_descriptor_map_repeatable Samples.definition_v1
              Samples.wrapped_credentials "first" "second" Samples.fresh_client
              (mkClient [] (presentationSubmission Samples.used_client))
              eq_refl eq_refl eq_refl)
    as (a1 & a2 & s1 & s2 & H1 & H2 & Hs1 & Hs2 & _ & _ & Hdm & _).
  exists a1, a2, s1, s2. repeat split; assumption.
Defined.

End UriClaims.

(** ** Containers *)

Lemma lookup_assign_same (key : string) (v : value) (props : list (string * value)) :
  lookup key (assign key v props) = Some v.
Proof.
  induction props as [|[k w] props IH]; simpl.
  - now rewrite String.eqb_refl.
  - destruct (String.eqb key k) eqn:E; simpl; rewrite E; [reflexivity|exact IH].
Qed.

Lemma lookup_assign_other (key key' : string) (v : value)
  (props : list (string * value)) :
  key' <> key -> lookup key' (assign key v props) = lookup key' props.
Proof.
  intros Hne. induction props as [|[k w] props IH]; simpl.
  - apply String.eqb_neq in Hne. now rewrite Hne.
  - destruct (String.eqb key k) eqn:E; simpl.
    + apply String.eqb_eq in E as <-.
      apply String.eqb_neq in Hne. now rewrite Hne.
    + now rewrite IH.
Qed.

Lemma assign_assign (key : string) (v w : value) (props : list (string * value)) :
  assign key w (assign key v props) = assign key w props.
Proof.
  induction props as [|[k u] props IH]; simpl.
  - now rewrite String.eqb_refl.
  - destruct (String.eqb key k) eqn:E; simpl; rewrite E; [reflexivity|now rewrite IH].
Qed.

Lemma has_key_assign (key key' : string) (v : value) (props : list (string * value)) :
  has_key key' props = true -> has_key key' (assign key v props) = true.
Proof.
  unfold has_key. destruct (String.eqb key' key) eqn:E.
  - apply String.eqb_eq in E as ->. now rewrite lookup_assign_same.
  - apply String.eqb_neq in E. now rewrite lookup_assign_other.
Qed.

Lemma nth_array_set (n : nat) (v : value) (l : list value) :
  nth n (array_set n v l) JUndefined = v.
Proof.
  revert l; induction n as [|n IH]; intros [|x l]; simpl; auto.
Qed.

Lemma array_set_array_set (n : nat) (v w : value) (l : list value) :
  array_set n w (array_set n v l) = array_set n w l.
Proof.
  revert l; induction n as [|n IH]; intros [|x l]; simpl; auto; now rewrite IH.
Qed.

Section Containers.
Import LimitDisclosureEvaluationHandler.

Lemma index_is_not_length (key : string) (n : nat) :
  array_index key = Some n -> String.eqb key "length" = false.
Proof.
  intros H. destruct (String.eqb key "length") eqn:E; [|reflexivity].
  apply String.eqb_eq in E. subst key. discriminate H.
Qed.

Lemma get_set_member (c : value) (key : string) (v : value) :
  accepts c key = true -> get_member (set_member c key v) key = Some v.
Proof.
  destruct c; simpl; try discriminate; intros H.
  - destruct (array_index key) as [n|] eqn:E; [|discriminate]. simpl.
    now rewrite (index_is_not_length _ _ E), E, nth_array_set.
  - unfold field. now rewrite lookup_assign_same.
Qed.

Lemma set_set_member (c : value) (key : string) (v w : value) :
  set_member (set_member c key v) key w = set_member c key w.
Proof.
  destruct c; simpl; try reflexivity.
  - destruct (array_index key) as [n|] eqn:E; simpl; rewrite E; [|reflexivity].
    now rewrite array_set_array_set.
  - now rewrite assign_assign.
Qed.

Lemma accepts_set_member (c : value) (key key' : string) (v : value) :
  accepts (set_member c key v) key' = accepts c key'.
Proof.
  destruct c; simpl; try reflexivity. now destruct (array_index key).
Qed.

Lemma isArray_set_member (c : value) (key : string) (v : value) :
  isArray (set_member c key v) = isArray c.
Proof.
  destruct c; simpl; try reflexivity. now destruct (array_index key).
Qed.

Lemma is_object_set_member (c : value) (key : string) (v : value) :
  is_object (set_member c key v) = is_object c.
Proof.
  destruct c; simpl; try reflexivity. now destruct (array_index key).
Qed.

Lemma write_at_root (toSend : list (string * value)) (cursor : list string)
  (key : string) (v : value) :
  write_at (JObject toSend) cursor key v = JObject (write_root toSend cursor key v).
Proof.
  destruct cursor; reflexivity.
Qed.

(** After a write, the cursor extended by the key leads to what was
    written. *)
Lemma addresses_write_at (root : value) (cursor : list string) (c : value)
  (key : string) (v : value) :
  addresses root cursor c ->
  accepts c key = true ->
  addresses (write_at root cursor key v) (cursor ++ [key]) v.
Proof.
  induction 1 as [c|root k child cursor c Hacc Hget _ IH]; intros Hkey; simpl.
  - apply addresses_step with (child := v).
    + now rewrite accepts_set_member.
    + now apply get_set_member.
    + constructor.
  - rewrite Hget. apply addresses_step with (child := write_at child cursor key v).
    + now rewrite accepts_set_member.
    + now apply get_set_member.
    + now apply IH.
Qed.

(** Writing into a container that has just been put in place is the same
    as putting the container in place with the write already done. *)
Lemma write_at_fusion (root : value) (cursor : list string) (c : value)
  (key key' : string) (x y : value) :
  addresses root cursor c ->
  accepts c key = true ->
  write_at (write_at root cursor key x) (cursor ++ [key]) key' y
  = write_at root cursor key (set_member x key' y).
Proof.
  induction 1 as [c|root k child cursor c Hacc Hget _ IH]; intros Hkey; simpl.
  - rewrite (get_set_member _ _ _ Hkey). now rewrite set_set_member.
  - rewrite Hget. rewrite (get_set_member _ _ _ Hacc).
    now rewrite set_set_member, IH.
Qed.

Lemma intermediate_container_accepts (seg next : segment) :
  accepts (intermediate_container seg next) (property_key next) = true.
Proof.
  destruct seg, next; simpl; try reflexivity.
  now rewrite array_index_string_of_nat.
Qed.

Lemma copy_path_loop_step (seg next : segment) (rest : list segment)
  (source : value) (toSend : list (string * value)) (cursor : list string) :
  copy_path_loop (seg :: next :: rest) source toSend cursor
  = (source' <- get_member source (property_key seg) ;;
     copy_path_loop (next :: rest) source'
       (write_root toSend cursor (property_key seg)
                   (intermediate_container seg next))
       (cursor ++ [property_key seg])).
Proof. reflexivity. Qed.

Lemma disclosed_step (seg next : segment) (rest : list segment) (source : value) :
  disclosed seg (next :: rest) source
  = (source' <- get_member source (property_key seg) ;;
     sub <- disclosed next rest source' ;;
     Some (set_member (intermediate_container seg next) (property_key next) sub)).
Proof. reflexivity. Qed.

(** The loop builds, under the key of the first segment, the nested
    containers [disclosed] describes. *)
Lemma copy_path_loop_disclosed (rest : list segment) :
  forall (seg : segment) (source : value) (toSend : list (string * value))
         (cursor : list string) (c : value),
    addresses (JObject toSend) cursor c ->
    accepts c (property_key seg) = true ->
    option_map JObject (copy_path_loop (seg :: rest) source toSend cursor)
    = option_map (write_at (JObject toSend) cursor (property_key seg))
                 (disclosed seg rest source).
Proof.
  induction rest as [|next rest IH]; intros seg source toSend cursor c Haddr Hacc.
  - simpl. destruct (get_member source (property_key seg)); simpl; [|reflexivity].
    now rewrite write_at_root.
  - rewrite copy_path_loop_step, disclosed_step.
    destruct (get_member source (property_key seg)) as [source'|]; [|reflexivity].
    cbn [bind].
    rewrite (IH next source' _ (cursor ++ [property_key seg])
                (intermediate_container seg next)).
    + rewrite <- write_at_root.
      destruct (disclosed next rest source') as [sub|]; [|reflexivity].
      cbn [bind option_map]. f_equal.
      now apply write_at_fusion with (c := c).
    + rewrite <- write_at_root. now apply addresses_write_at with (c := c).
    + apply intermediate_container_accepts.
Qed.

Lemma disclosed_total (rest : list segment) :
  forall (seg : segment) (source leaf : value),
    walk source (seg :: rest) = Some leaf ->
    exists d, disclosed seg rest source = Some d /\ walk d rest = Some leaf.
Proof.
  induction rest as [|next rest IH]; intros seg source leaf; cbn [walk disclosed].
  - destruct (get_member source (property_key seg)) as [source'|]; [|discriminate].
    cbn [bind]. intros [= <-]. now exists source'.
  - fold (disclosed next rest).
    destruct (get_member source (property_key seg)) as [source'|]; [|discriminate].
    cbn [bind]. intros Hwalk.
    destruct (IH next source' leaf Hwalk) as (sub & Hsub & Hleaf).
    rewrite Hsub. cbn [bind]. eexists. split; [reflexivity|].
    rewrite (get_set_member _ _ _ (intermediate_container_accepts seg next)).
    exact Hleaf.
Qed.

(** The kind of the container found at each segment that is not the
    last one. *)
Lemma disclosed_containers (rest : list segment) :
  forall (seg : segment) (source d : value) (pre : list segment)
         (s next : segment) (post : list segment),
    disclosed seg rest source = Some d ->
    seg :: rest = pre ++ s :: next :: post ->
    exists c sub,
      walk d (tl (pre ++ [s])) = Some c
      /\ c = set_member (intermediate_container s next) (property_key next) sub
      /\ isArray c = is_string_segment s && negb (is_string_segment next)
      /\ is_object c = negb (is_string_segment s && negb (is_string_segment next)).
Proof.
  induction rest as [|next0 rest IH]; intros seg source d pre s next post Hd Hsplit.
  - destruct pre as [|? [|? ?]]; discriminate.
  - rewrite disclosed_step in Hd.
    destruct (get_member source (property_key seg)) as [source'|]; [|discriminate].
    cbn [bind] in Hd.
    destruct (disclosed next0 rest source') as [sub|] eqn:Hsub; [|discriminate].
    cbn [bind] in Hd. injection Hd as <-.
    destruct pre as [|seg' pre].
    + injection Hsplit as -> -> ->. eexists _, sub. split; [reflexivity|].
      split; [reflexivity|].
      rewrite isArray_set_member, is_object_set_member.
      destruct s, next; now split.
    + injection Hsplit as <- Hrest.
      destruct (IH next0 source' sub pre s next post Hsub Hrest)
        as (c & sub' & Hc & Hkind).
      exists c, sub'. split; [|exact Hkind].
      assert (Hhead : exists more, pre ++ [s] = next0 :: more
                                   /\ tl (pre ++ [s]) = more).
      { destruct pre as [|p pre]; simpl in *.
        - injection Hrest as -> _. now exists [].
        - injection Hrest as -> _. now eexists. }
      destruct Hhead as (more & Hmore & Htl).
      cbn [tl app]. rewrite Hmore. cbn [walk].
      rewrite (get_set_member _ _ _ (intermediate_container_accepts seg next0)).
      cbn [bind]. now rewrite <- Htl.
Qed.

End Containers.

(** ** The limit disclosure handler *)

Lemma forEach_index_irrelevant {A St : Type} (body : A -> nat -> St -> option St)
  (l : list A) :
  (forall x i j s, body x i s = body x j s) ->
  forall i j s, forEach body l i s = forEach body l j s.
Proof.
  intros Hbody. induction l as [|x l IH]; intros i j s; simpl; [reflexivity|].
  rewrite (Hbody x i j s). destruct (body x j s); simpl; [apply IH|reflexivity].
Qed.

(** A loop whose every turn completes and appends to the log kept in
    its state completes, with the turns' entries appended in order. *)
Lemma forEach_logs {A St B : Type} (log : St -> list B)
  (body : A -> nat -> St -> option St) (f : A -> nat -> list B) (l : list A) :
  (forall x k s, In x l ->
     exists s', body x k s = Some s' /\ log s' = log s ++ f x k) ->
  forall i s, exists s',
    forEach body l i s = Some s' /\ log s' = log s ++ flat_mapi f l i.
Proof.
  induction l as [|x l IH]; intros Hbody i s; simpl.
  - exists s. now rewrite app_nil_r.
  - destruct (Hbody x i s (or_introl eq_refl)) as (s1 & Hs1 & Hlog1).
    rewrite Hs1. cbn [bind].
    destruct (IH (fun y k t Hy => Hbody y k t (or_intror Hy)) (S i) s1)
      as (s2 & Hs2 & Hlog2).
    exists s2. split; [exact Hs2|]. now rewrite Hlog2, Hlog1, <- app_assoc.
Qed.

Lemma forEach_invariant {A St : Type} (R : St -> St -> Prop)
  (body : A -> nat -> St -> option St) (l : list A) :
  (forall s, R s s) ->
  (forall s1 s2 s3, R s1 s2 -> R s2 s3 -> R s1 s3) ->
  (forall x k s s', body x k s = Some s' -> R s s') ->
  forall i s s', forEach body l i s = Some s' -> R s s'.
Proof.
  intros Hrefl Htrans Hbody.
  induction l as [|x l IH]; intros i s s'; simpl.
  - intros [= <-]. apply Hrefl.
  - destruct (body x i s) as [s1|] eqn:Hs1; [|discriminate]. cbn [bind].
    intros Hrest. eapply Htrans; [eapply Hbody; eauto|eapply IH; eauto].
Qed.

Section LimitDisclosure.
Import LimitDisclosureEvaluationHandler.

Variable extractInputField : value -> list string -> list Node.

Lemma copyMandatoryFields_result (vc : list (string * value)) (keys : list string) :
  fst (copyMandatoryFieldsAndDeletePredefinedKeys vc [] keys)
  = map (fun k => (k, field vc k)) mandatoryFields.
Proof. reflexivity. Qed.

(** Copying a path that the source has. *)
Lemma copyResultPath_spec (marker seg : segment) (rest : list segment)
  (vc toSend : list (string * value)) (idIdx vcIdx : nat)
  (rs : list HandlerCheckResult) (leaf : value) :
  walk (JObject vc) (seg :: rest) = Some leaf ->
  exists d,
    disclosed seg rest (JObject vc) = Some d
    /\ walk d rest = Some leaf
    /\ copyResultPathToDestinationCredential (marker :: seg :: rest) vc toSend
         idIdx vcIdx rs
       = Some (assign (property_key seg) d toSend,
               rs ++ [success_result idIdx vcIdx (marker :: seg :: rest)]).
Proof.
  intros Hwalk. destruct (disclosed_total rest seg _ _ Hwalk) as (d & Hd & Hleaf).
  exists d. split; [exact Hd|]. split; [exact Hleaf|].
  unfold copyResultPathToDestinationCredential. cbn [tl].
  pose proof (copy_path_loop_disclosed rest seg (JObject vc) toSend []
                (JObject toSend) (addresses_here _) eq_refl) as Hloop.
  rewrite Hd in Hloop. cbn [option_map write_at set_member] in Hloop.
  destruct (copy_path_loop (seg :: rest) (JObject vc) toSend []) as [out|];
    [|discriminate].
  cbn [option_map] in Hloop. injection Hloop as ->. reflexivity.
Qed.

(** Whatever a copy writes, the keys already there stay. *)
Lemma copy_path_loop_keeps_keys (segs : list segment) (source : value)
  (toSend out : list (string * value)) (key : string) :
  copy_path_loop segs source toSend [] = Some out ->
  has_key key toSend = true -> has_key key out = true.
Proof.
  destruct segs as [|seg rest]; [now intros [= <-]|].
  intros Hloop Hkey.
  pose proof (copy_path_loop_disclosed rest seg source toSend []
                (JObject toSend) (addresses_here _) eq_refl) as Hd.
  rewrite Hloop in Hd. destruct (disclosed seg rest source) as [d|]; [|discriminate].
  cbn [option_map write_at set_member] in Hd. injection Hd as ->.
  now apply has_key_assign.
Qed.

Lemma determineNecessaryPaths_cons (vc toSend : list (string * value))
  (f : Field) (fs : list Field) (idIdx vcIdx : nat) (rs : list HandlerCheckResult) :
  determineNecessaryPaths extractInputField vc toSend (f :: fs) idIdx vcIdx rs
  = ('(toSend', rs') <-
       match extractInputField (JObject vc) (path f) with
       | first :: _ =>
           copyResultPathToDestinationCredential (node_path first) vc toSend
                                                 idIdx vcIdx rs
       | [] =>
           Some (toSend, createMandatoryFieldNotFoundResult idIdx vcIdx (path f) rs)
       end ;;
     determineNecessaryPaths extractInputField vc toSend' fs idIdx vcIdx rs').
Proof.
  unfold determineNecessaryPaths. cbn [forEach].
  destruct (match extractInputField (JObject vc) (path f) with
            | first :: _ => _ | [] => _ end) as [[toSend' rs']|];
    cbn [bind]; [|reflexivity].
  apply forEach_index_irrelevant. reflexivity.
Qed.

Lemma determineNecessaryPaths_keeps_keys (fields : list Field) :
  forall (vc toSend out : list (string * value)) (idIdx vcIdx : nat)
         (rs rs' : list HandlerCheckResult) (key : string),
    determineNecessaryPaths extractInputField vc toSend fields idIdx vcIdx rs
    = Some (out, rs') ->
    has_key key toSend = true -> has_key key out = true.
Proof.
  induction fields as [|f fs IH]; intros vc toSend out idIdx vcIdx rs rs' key.
  - now intros [= <- _].
  - rewrite determineNecessaryPaths_cons.
    destruct (extractInputField (JObject vc) (path f)) as [|first others].
    + cbn [bind]. apply IH.
    + unfold copyResultPathToDestinationCredential.
      destruct (copy_path_loop _ _ toSend []) as [mid|] eqn:Hloop; [|discriminate].
      cbn [bind]. intros Hrest Hkey.
      eapply IH; [exact Hrest|].
      eapply copy_path_loop_keeps_keys; eauto.
Qed.

(** The fields of one credential: each leaves its one result. *)
Lemma determineNecessaryPaths_results (fields : list Field) :
  forall (vc toSend : list (string * value)) (idIdx vcIdx : nat)
         (rs : list HandlerCheckResult),
    forallb (field_walks extractInputField vc) fields = true ->
    exists out,
      determineNecessaryPaths extractInputField vc toSend fields idIdx vcIdx rs
      = Some (out, rs ++ map (field_result extractInputField vc idIdx vcIdx) fields).
Proof.
  induction fields as [|f fs IH]; intros vc toSend idIdx vcIdx rs Hwalk.
  - exists toSend. cbn. now rewrite app_nil_r.
  - cbn [forallb] in Hwalk. apply andb_prop in Hwalk as [Hf Hfs].
    rewrite determineNecessaryPaths_cons. cbn [map].
    unfold field_walks in Hf.
    assert (Hstep : exists mid,
               match extractInputField (JObject vc) (path f) with
               | first :: _ =>
                   copyResultPathToDestinationCredential (node_path first) vc toSend
                                                         idIdx vcIdx rs
               | [] =>
                   Some (toSend,
                         createMandatoryFieldNotFoundResult idIdx vcIdx (path f) rs)
               end
               = Some (mid, rs ++ [field_result extractInputField vc idIdx vcIdx f])).
    { unfold field_result.
      destruct (extractInputField (JObject vc) (path f)) as [|first others].
      - now exists toSend.
      - destruct (node_path first) as [|marker [|seg rest]].
        + now exists toSend.
        + now exists toSend.
        + cbn [tl] in Hf.
          destruct (walk (JObject vc) (seg :: rest)) as [leaf|] eqn:Hleaf;
            [|discriminate].
          destruct (copyResultPath_spec marker seg rest vc toSend idIdx vcIdx rs
                      leaf Hleaf) as (d & _ & _ & Hcopy).
          rewrite Hcopy. now eexists. }
    destruct Hstep as (mid & ->). cbn [bind].
    destruct (IH vc mid idIdx vcIdx
                (rs ++ [field_result extractInputField vc idIdx vcIdx f]) Hfs)
      as (out & Hout).
    exists out. now rewrite Hout, <- app_assoc.
Qed.

Lemma descriptor_map_loop (out : list (string * value)) (inputDescriptorId : string)
  (descriptors : list Descriptor) (credentials : list (list (string * value))) :
  fold_left
    (fun creds currentDescriptor =>
       if String.eqb (descriptor_id currentDescriptor) inputDescriptorId
       then push creds out else creds)
    descriptors credentials
  = credentials
    ++ repeat out (List.length (filter (names_descriptor inputDescriptorId) descriptors)).
Proof.
  revert credentials; induction descriptors as [|e descriptors IH];
    intros credentials; simpl.
  - now rewrite app_nil_r.
  - rewrite IH. unfold names_descriptor at 2.
    destruct (String.eqb (descriptor_id e) inputDescriptorId); [|reflexivity].
    unfold push. now rewrite <- app_assoc.
Qed.

(** What the turn for one credential does, once the object for it has
    been built. *)
Lemma enforce_on_credential_built (fields : list Field) (idIdx : nat)
  (inputDescriptorId : string) (vc : list (string * value)) (i : nat)
  (this : EvaluationClient) (out : list (string * value))
  (rs : list HandlerCheckResult) :
  determineNecessaryPaths extractInputField vc
    (fst (copyMandatoryFieldsAndDeletePredefinedKeys vc [] (map fst vc)))
    fields idIdx i (results this) = Some (out, rs) ->
  enforce_on_credential extractInputField fields idIdx inputDescriptorId vc i this
  = Some
      {| results := rs;
         verifiablePresentation :=
           match existing_descriptor_map this with
           | Some descriptors =>
               {| verifiableCredential :=
                    Some (credentials_of this
                          ++ repeat out
                               (List.length
                                  (filter (names_descriptor inputDescriptorId)
                                          descriptors)));
                  presentationSubmission :=
                    presentationSubmission (verifiablePresentation this) |}
           | None => verifiablePresentation this
           end |}.
Proof.
  intros Hbuilt. unfold enforce_on_credential.
  destruct (copyMandatoryFieldsAndDeletePredefinedKeys vc [] (map fst vc))
    as [toSend keys].
  cbn [fst] in Hbuilt. rewrite Hbuilt. cbn [bind].
  unfold existing_descriptor_map, with_results. cbn [verifiablePresentation].
  destruct (presentationSubmission (verifiablePresentation this)) as [sub|] eqn:Hsub;
    [|reflexivity].
  destruct (descriptor_map sub) as [descriptors|]; [|reflexivity].
  unfold copyModifiedVerifiableCredentialToExisting.
  cbn [verifiablePresentation results]. rewrite descriptor_map_loop, Hsub.
  unfold credentials_of. reflexivity.
Qed.

(** C3, as stated, fails: between two list positions the handler makes
    an object, not a list.  Copying the path [$.a[0][1]] out of
    [{a: [[10, 20]]}] leaves [{a: [{"1": 20}]}]. *)
Lemma ld_index_after_index_gets_an_object :
  copyResultPathToDestinationCredential
    [SKey "$"; SKey "a"; SIdx 0; SIdx 1] Samples.nested_list_credential [] 0 0 []
  = Some ([("a", JArray [JObject [("1", JNumber 20)]])],
          [success_result 0 0 [SKey "$"; SKey "a"; SIdx 0; SIdx 1]])
  /\ walk (JObject Samples.nested_list_credential) [SKey "a"; SIdx 0; SIdx 1]
     = Some (JNumber 20)
  /\ ~ (forall pathDetails vc toSend idIdx vcIdx rs out rs' pre s next post c,
          copyResultPathToDestinationCredential pathDetails vc toSend idIdx vcIdx rs
          = Some (out, rs') ->
          tl pathDetails = pre ++ s :: next :: post ->
          walk (JObject out) (pre ++ [s]) = Some c ->
          isArray c = negb (is_string_segment next)).
Proof.
  split; [reflexivity|]. split; [reflexivity|]. intros H.
  specialize (H [SKey "$"; SKey "a"; SIdx 0; SIdx 1] Samples.nested_list_credential
                [] 0 0 [] _ _ [SKey "a"] (SIdx 0) (SIdx 1) []
                (JObject [("1", JNumber 20)]) eq_refl eq_refl eq_refl).
  discriminate H.
Qed.

(** C3, amended: when the path expressions of a field resolve, only the
    first path found is used.  Its root marker is skipped; the value the
    source has at the path is written at the key or index of the last
    segment; and for every segment before the last one a container is
    made at its key or index before descending: a single-element list
    when the segment is a string key and the next one is not, an object
    otherwise (when the next segment is a string key, and also when the
    segment itself is an index). *)
Theorem ld_first_path_disclosed (vc toSend : list (string * value))
  (f : Field) (fs : list Field) (idIdx vcIdx : nat) (rs : list HandlerCheckResult)
  (first : Node) (others : list Node) (leaf : value) :
  extractInputField (JObject vc) (path f) = first :: others ->
  tl (node_path first) <> [] ->
  walk (JObject vc) (tl (node_path first)) = Some leaf ->
  exists out,
    copyResultPathToDestinationCredential (node_path first) vc toSend idIdx vcIdx rs
    = Some (out, rs ++ [success_result idIdx vcIdx (node_path first)])
    /\ determineNecessaryPaths extractInputField vc toSend (f :: fs) idIdx vcIdx rs
       = determineNecessaryPaths extractInputField vc out fs idIdx vcIdx
           (rs ++ [success_result idIdx vcIdx (node_path first)])
    /\ walk (JObject out) (tl (node_path first)) = Some leaf
    /\ (forall pre s next post,
          tl (node_path first) = pre ++ s :: next :: post ->
          exists c sub,
            walk (JObject out) (pre ++ [s]) = Some c
            /\ c = set_member
                     (if is_string_segment s && negb (is_string_segment next)
                      then JArray [JObject []] else JObject [])
                     (property_key next) sub
            /\ isArray c = is_string_segment s && negb (is_string_segment next)
            /\ is_object c
               = negb (is_string_segment s && negb (is_string_segment next))).
Proof.
  intros Hfirst Hlong Hleaf.
  destruct (node_path first) as [|marker [|seg rest]] eqn:Hpath;
    try (exfalso; now apply Hlong).
  cbn [tl] in *.
  destruct (copyResultPath_spec marker seg rest vc toSend idIdx vcIdx rs leaf Hleaf)
    as (d & Hd & Hwalk & Hcopy).
  exists (assign (property_key seg) d toSend).
  assert (Hget : get_member (JObject (assign (property_key seg) d toSend))
                            (property_key seg) = Some d).
  { cbn [get_member]. unfold field. now rewrite lookup_assign_same. }
  split; [exact Hcopy|]. split.
  { rewrite determineNecessaryPaths_cons, Hfirst, Hpath, Hcopy. reflexivity. }
  split.
  { cbn [walk]. rewrite Hget. exact Hwalk. }
  intros pre s next post Hsplit.
  destruct (disclosed_containers rest seg _ d pre s next post Hd Hsplit)
    as (c & sub & Hc & Hmade & Hkind).
  exists c, sub. split; [|split; [|exact Hkind]].
  - assert (Hhead : pre ++ [s] = seg :: tl (pre ++ [s])).
    { destruct pre; simpl in *; now injection Hsplit as -> _. }
    rewrite Hhead. cbn [walk]. rewrite Hget. exact Hc.
  - rewrite Hmade. unfold intermediate_container. now destruct s, next.
Qed.

(** What the loop leaves: nothing new for a path without segments, and
    otherwise one key, that of the first segment. *)
Lemma copy_path_loop_result (segs : list segment) (source : value)
  (toSend out : list (string * value)) :
  copy_path_loop segs source toSend [] = Some out ->
  (segs = [] /\ out = toSend)
  \/ exists seg rest d,
       segs = seg :: rest /\ disclosed seg rest source = Some d
       /\ out = assign (property_key seg) d toSend.
Proof.
  destruct segs as [|seg rest]; [intros [= <-]; now left|].
  intros Hloop. right.
  pose proof (copy_path_loop_disclosed rest seg source toSend []
                (JObject toSend) (addresses_here _) eq_refl) as Hd.
  rewrite Hloop in Hd.
  destruct (disclosed seg rest source) as [d|] eqn:Hdis; [|discriminate].
  cbn [option_map write_at set_member] in Hd. injection Hd as ->.
  now exists seg, rest, d.
Qed.

(** A key at which no path starts keeps what it held. *)
Lemma determineNecessaryPaths_untouched (fields : list Field) :
  forall (vc toSend out : list (string * value)) (idIdx vcIdx : nat)
         (rs rs' : list HandlerCheckResult) (key : string),
    determineNecessaryPaths extractInputField vc toSend fields idIdx vcIdx rs
    = Some (out, rs') ->
    existsb (path_starts_at extractInputField vc key) fields = false ->
    lookup key out = lookup key toSend.
Proof.
  induction fields as [|f fs IH]; intros vc toSend out idIdx vcIdx rs rs' key.
  - now intros [= <- _].
  - rewrite determineNecessaryPaths_cons. cbn [existsb]. unfold path_starts_at at 1.
    destruct (extractInputField (JObject vc) (path f)) as [|first others].
    + cbn [bind orb]. apply IH.
    + unfold copyResultPathToDestinationCredential.
      destruct (copy_path_loop _ _ toSend []) as [mid|] eqn:Hloop; [|discriminate].
      cbn [bind]. intros Hrest Hnone.
      apply Bool.orb_false_iff in Hnone as [Hf Hfs].
      rewrite (IH _ _ _ _ _ _ _ _ Hrest Hfs).
      apply copy_path_loop_result in Hloop
        as [[_ ->]|(seg & rest & d & Hsegs & _ & ->)]; [reflexivity|].
      rewrite Hsegs in Hf. apply lookup_assign_other.
      intros ->. now rewrite String.eqb_refl in Hf.
Qed.

(** A key at which a path starts holds what was rebuilt for such a
    path. *)
Lemma determineNecessaryPaths_touched (fields : list Field) :
  forall (vc toSend out : list (string * value)) (idIdx vcIdx : nat)
         (rs rs' : list HandlerCheckResult) (key : string),
    determineNecessaryPaths extractInputField vc toSend fields idIdx vcIdx rs
    = Some (out, rs') ->
    existsb (path_starts_at extractInputField vc key) fields = true ->
    exists f first others marker seg rest d,
      In f fields
      /\ extractInputField (JObject vc) (path f) = first :: others
      /\ node_path first = marker :: seg :: rest
      /\ property_key seg = key
      /\ disclosed seg rest (JObject vc) = Some d
      /\ lookup key out = Some d.
Proof.
  induction fields as [|f fs IH]; intros vc toSend out idIdx vcIdx rs rs' key.
  - intros _ Hsome. discriminate Hsome.
  - rewrite determineNecessaryPaths_cons. cbn [existsb]. intros Hrun Hsome.
    assert (Hmid : exists mid rs1,
              determineNecessaryPaths extractInputField vc mid fs idIdx vcIdx rs1
              = Some (out, rs')
              /\ match extractInputField (JObject vc) (path f) with
                 | first :: _ =>
                     copy_path_loop (tl (node_path first)) (JObject vc) toSend []
                     = Some mid
                 | [] => mid = toSend
                 end).
    { destruct (extractInputField (JObject vc) (path f)) as [|first others].
      - cbn [bind] in Hrun. now exists toSend, (createMandatoryFieldNotFoundResult
                                                  idIdx vcIdx (path f) rs).
      - unfold copyResultPathToDestinationCredential in Hrun.
        destruct (copy_path_loop _ _ toSend []) as [mid|]; [|discriminate].
        cbn [bind] in Hrun. now exists mid, (createSuccessResult idIdx vcIdx
                                               (node_path first) rs). }
    destruct Hmid as (mid & rs1 & Hrest & Hstep).
    destruct (existsb (path_starts_at extractInputField vc key) fs) eqn:Hfs.
    + destruct (IH _ _ _ _ _ _ _ _ Hrest Hfs)
        as (f' & first & others & marker & seg & rest & d & Hin & H).
      exists f', first, others, marker, seg, rest, d. split; [now right|exact H].
    + rewrite Bool.orb_false_r in Hsome. unfold path_starts_at in Hsome.
      destruct (extractInputField (JObject vc) (path f)) as [|first others] eqn:Hf;
        [discriminate|].
      destruct (node_path first) as [|marker segs] eqn:Hpath; [discriminate|].
      cbn [tl] in Hsome, Hstep. destruct segs as [|seg rest]; [discriminate|].
      apply String.eqb_eq in Hsome.
      apply copy_path_loop_result in Hstep
        as [[Hnil _]|(seg' & rest' & d & Hsegs & Hd & ->)]; [discriminate|].
      injection Hsegs as <- <-.
      exists f, first, others, marker, seg, rest, d.
      split; [now left|]. split; [exact Hf|]. split; [exact Hpath|].
      split; [exact Hsome|]. split; [exact Hd|].
      rewrite (determineNecessaryPaths_untouched _ _ _ _ _ _ _ _ _ Hrest Hfs).
      rewrite <- Hsome. apply lookup_assign_same.
Qed.

(** C4, as stated, fails: the object the handler puts out does not hold
    every mandatory key as the source has it.  With one field whose path
    is [$.credentialSubject.degree.type], the object appended for the
    sample credential holds under [credentialSubject] only what was
    rebuilt for the path, [{degree: {type: "BachelorDegree"}}], while
    the source has the holder's [id] and the degree's [name] there
    too. *)
Lemma ld_mandatory_value_can_be_replaced :
  (exists this' out,
     enforce_on_credential Samples.extractInputField [Samples.degree_type_field]
       0 "degree" Samples.degree_credential 0 Samples.disclosure_client
     = Some this'
     /\ credentials_of this' = [Samples.degree_credential; out; out]
     /\ lookup "credentialSubject" out
        = Some (JObject [("degree", JObject [("type", JString "BachelorDegree")])])
     /\ lookup "credentialSubject" out
        <> Some (field Samples.degree_credential "credentialSubject"))
  /\ ~ (forall fields idIdx inputDescriptorId vc i this this' out,
          enforce_on_credential Samples.extractInputField fields idIdx
            inputDescriptorId vc i this = Some this' ->
          In out (skipn (List.length (credentials_of this)) (credentials_of this')) ->
          forall key, In key mandatoryFields ->
                      lookup key out = Some (field vc key)).
Proof.
  split.
  - eexists _, _. split; [vm_compute; reflexivity|].
    split; [reflexivity|]. split; [reflexivity|]. discriminate.
  - intros H.
    specialize (H [Samples.degree_type_field] 0 "degree" Samples.degree_credential
                  0 Samples.disclosure_client).
    vm_compute in H.
    specialize (H _ _ eq_refl (or_introl eq_refl) "credentialSubject").
    assert (Hin : In "credentialSubject"
                     ["@context"; "id"; "credentialSchema"; "credentialSubject";
                      "type"]) by (simpl; tauto).
    specialize (H Hin). discriminate H.
Qed.

(** C4, amended: for every credential processed under a descriptor that
    requires limited disclosure, the object the handler builds, and
    appends to the presentation once for each entry of the descriptor
    map named after the descriptor, starts as the five mandatory keys,
    each copied as the source has it, [undefined] when the source has no
    such key, and the fields are then written into it.  All five keys
    are in the object at the end.  A mandatory key at which the path
    found first for no field starts still holds the source's value,
    [undefined] when the source lacks the key; a mandatory key at which
    such a path starts holds instead what was rebuilt for such a
    path. *)
Theorem ld_mandatory_fields_copied (fields : list Field) (idIdx : nat)
  (inputDescriptorId : string) (vc : list (string * value)) (i : nat)
  (this : EvaluationClient) :
  forallb (field_walks extractInputField vc) fields = true ->
  exists out this',
    enforce_on_credential extractInputField fields idIdx inputDescriptorId vc i this
    = Some this'
    /\ determineNecessaryPaths extractInputField vc
         (map (fun key => (key, field vc key))
              ["@context"; "id"; "credentialSchema"; "credentialSubject"; "type"])
         fields idIdx i (results this)
       = Some (out, results this')
    /\ (forall descriptors,
          existing_descriptor_map this = Some descriptors ->
          credentials_of this'
          = credentials_of this
            ++ repeat out
                 (List.length
                    (filter (names_descriptor inputDescriptorId) descriptors)))
    /\ (forall key, In key mandatoryFields -> has_key key out = true)
    /\ (forall key,
          In key mandatoryFields ->
          existsb (path_starts_at extractInputField vc key) fields = false ->
          lookup key out = Some (field vc key)
          /\ (lookup key vc = None -> lookup key out = Some JUndefined))
    /\ (forall key,
          In key mandatoryFields ->
          existsb (path_starts_at extractInputField vc key) fields = true ->
          exists f first others marker seg rest d,
            In f fields
            /\ extractInputField (JObject vc) (path f) = first :: others
            /\ node_path first = marker :: seg :: rest
            /\ property_key seg = key
            /\ disclosed seg rest (JObject vc) = Some d
            /\ lookup key out = Some d).
Proof.
  intros Hwalk.
  destruct (determineNecessaryPaths_results fields vc
              (fst (copyMandatoryFieldsAndDeletePredefinedKeys vc [] (map fst vc)))
              idIdx i (results this) Hwalk) as (out & Hbuilt).
  pose proof (enforce_on_credential_built fields idIdx inputDescriptorId vc i
                this out _ Hbuilt) as Hrun.
  rewrite copyMandatoryFields_result in Hbuilt.
  assert (Hcopied : forall key, In key mandatoryFields ->
             lookup key (map (fun k => (k, field vc k)) mandatoryFields)
             = Some (field vc key)).
  { intros key Hin. cbn in Hin.
    repeat (destruct Hin as [<-|Hin]; [reflexivity|]). destruct Hin. }
  exists out. eexists. split; [exact Hrun|].
  cbn [results]. split; [exact Hbuilt|]. split; [|split; [|split]].
  - intros descriptors Hmap. rewrite Hmap. reflexivity.
  - intros key Hin.
    eapply determineNecessaryPaths_keeps_keys; [exact Hbuilt|].
    unfold has_key. now rewrite (Hcopied key Hin).
  - intros key Hin Hnone.
    rewrite (determineNecessaryPaths_untouched _ _ _ _ _ _ _ _ _ Hbuilt Hnone).
    rewrite (Hcopied key Hin). split; [reflexivity|].
    intros Habsent. unfold field. now rewrite Habsent.
  - intros key _ Hsome.
    exact (determineNecessaryPaths_touched _ _ _ _ _ _ _ _ _ Hbuilt Hsome).
Qed.

(** C5: once the object for a credential has been built, and the
    presentation has a submission with a descriptor map, the object is
    appended to the credential list of the presentation once for every
    entry of the map whose [id] is the [id] of the current descriptor;
    a list that was not there yet starts empty.  The credentials that
    were in the list stay where they were. *)
Theorem ld_disclosed_credential_appended (fields : list Field) (idIdx : nat)
  (inputDescriptorId : string) (vc : list (string * value)) (i : nat)
  (this : EvaluationClient) (out : list (string * value))
  (rs : list HandlerCheckResult) (descriptors : list Descriptor) :
  determineNecessaryPaths extractInputField vc
    (fst (copyMandatoryFieldsAndDeletePredefinedKeys vc [] (map fst vc)))
    fields idIdx i (results this) = Some (out, rs) ->
  existing_descriptor_map this = Some descriptors ->
  exists this',
    enforce_on_credential extractInputField fields idIdx inputDescriptorId vc i this
    = Some this'
    /\ verifiableCredential (verifiablePresentation this')
       = Some (credentials_of this
               ++ repeat out
                    (List.length
                       (filter (names_descriptor inputDescriptorId) descriptors)))
    /\ (forall k c, nth_error (credentials_of this) k = Some c ->
                    nth_error (credentials_of this') k = Some c)
    /\ presentationSubmission (verifiablePresentation this')
       = presentationSubmission (verifiablePresentation this).
Proof.
  intros Hbuilt Hmap.
  pose proof (enforce_on_credential_built fields idIdx inputDescriptorId vc i
                this out rs Hbuilt) as Hrun.
  rewrite Hmap in Hrun. eexists. split; [exact Hrun|].
  cbn [verifiablePresentation verifiableCredential presentationSubmission].
  split; [reflexivity|]. split; [|reflexivity].
  intros k c Hk. unfold credentials_of in *.
  cbn [verifiablePresentation verifiableCredential].
  rewrite nth_error_app1; [exact Hk|].
  apply nth_error_Some. congruence.
Qed.

Lemma enforce_on_credential_logs (fields : list Field) (idIdx : nat)
  (inputDescriptorId : string) (vc : list (string * value)) (i : nat)
  (this : EvaluationClient) :
  forallb (field_walks extractInputField vc) fields = true ->
  exists this',
    enforce_on_credential extractInputField fields idIdx inputDescriptorId vc i this
    = Some this'
    /\ results this'
       = results this ++ map (field_result extractInputField vc idIdx i) fields.
Proof.
  intros Hwalk.
  destruct (determineNecessaryPaths_results fields vc
              (fst (copyMandatoryFieldsAndDeletePredefinedKeys vc [] (map fst vc)))
              idIdx i (results this) Hwalk) as (out & Hout).
  eexists. split; [exact (enforce_on_credential_built fields idIdx inputDescriptorId
                            vc i this out _ Hout)|].
  reflexivity.
Qed.

(** C6: a field of a descriptor that requires limited disclosure whose
    path expressions find nothing in the source leaves exactly one ERROR
    result, with the requested path as payload and the message that the
    mandatory field is not present, and the loop goes on with the next
    field; nothing is thrown, and the loops over descriptors,
    credentials and fields run to their end, leaving one result for
    each field. *)
Theorem ld_missing_field_logged (pd : PresentationDefinition)
  (p : VerifiablePresentation) (this : EvaluationClient)
  (credentials : list (list (string * value))) :
  verifiableCredential p = Some credentials ->
  all_fields_walk extractInputField pd credentials = true ->
  exists this',
    handle extractInputField pd p this = Some this'
    /\ results this'
       = results this ++ expected_results extractInputField pd credentials
    /\ (forall vc toSend f fs idIdx vcIdx rs,
          extractInputField (JObject vc) (path f) = [] ->
          field_result extractInputField vc idIdx vcIdx f
          = not_found_result idIdx vcIdx (path f)
          /\ determineNecessaryPaths extractInputField vc toSend (f :: fs)
               idIdx vcIdx rs
             = determineNecessaryPaths extractInputField vc toSend fs idIdx vcIdx
                 (rs ++ [not_found_result idIdx vcIdx (path f)]))
    /\ (forall idIdx vcIdx requested,
          status (not_found_result idIdx vcIdx requested) = ERROR
          /\ result_payload (not_found_result idIdx vcIdx requested)
             = PayloadPath requested
          /\ result_message (not_found_result idIdx vcIdx requested)
             = MsgText "mandatory field not present in the verifiableCredential").
Proof.
  intros Hp Hwalk. unfold all_fields_walk in Hwalk. rewrite forallb_forall in Hwalk.
  destruct (forEach_logs results
              (fun inDesc i this0 =>
                 match limit_disclosure_required inDesc with
                 | Some c =>
                     limitDisclosureShouldBeEnforced extractInputField p (fields c) i
                       (id inDesc) this0
                 | None => Some this0
                 end)
              (fun inDesc i =>
                 match limit_disclosure_required inDesc with
                 | Some c =>
                     flat_mapi (fun vc j => map (field_result extractInputField vc i j)
                                                (fields c))
                               credentials 0
                 | None => []
                 end)
              (input_descriptors pd)) with (i := 0) (s := this) as (this' & Hrun & Hlog).
  { intros inDesc i this0 Hin. specialize (Hwalk inDesc Hin).
    destruct (limit_disclosure_required inDesc) as [c|].
    - unfold limitDisclosureShouldBeEnforced. rewrite Hp. cbn [bind].
      apply forEach_logs. intros vc j this1 Hvc.
      apply enforce_on_credential_logs.
      rewrite forallb_forall in Hwalk. now apply Hwalk.
    - exists this0. now rewrite app_nil_r. }
  exists this'. split; [exact Hrun|]. split; [exact Hlog|]. split.
  - intros vc toSend f fs idIdx vcIdx rs Hnone. split.
    + unfold field_result. now rewrite Hnone.
    + now rewrite determineNecessaryPaths_cons, Hnone.
  - intros idIdx vcIdx requested. now repeat split.
Qed.

(** Over a whole run, the credentials that were in the presentation
    stay where they were: the run only appends. *)
Lemma ld_handle_keeps_credentials (pd : PresentationDefinition)
  (p : VerifiablePresentation) (this this' : EvaluationClient) :
  handle extractInputField pd p this = Some this' ->
  exists added, credentials_of this' = credentials_of this ++ added.
Proof.
  set (R := fun s s' : EvaluationClient =>
              exists added, credentials_of s' = credentials_of s ++ added).
  assert (Hrefl : forall s, R s s) by (intros s; exists []; now rewrite app_nil_r).
  assert (Htrans : forall s1 s2 s3, R s1 s2 -> R s2 s3 -> R s1 s3).
  { intros s1 s2 s3 (a & Ha) (b & Hb). exists (a ++ b).
    now rewrite Hb, Ha, app_assoc. }
  unfold handle. apply (forEach_invariant R); auto.
  intros inDesc i s s'.
  destruct (limit_disclosure_required inDesc) as [c|]; [|intros [= <-]; apply Hrefl].
  unfold limitDisclosureShouldBeEnforced.
  destruct (verifiableCredential p) as [credentials|]; [|discriminate]. cbn [bind].
  apply (forEach_invariant R); auto.
  intros vc j t t' Hturn.
  destruct (determineNecessaryPaths extractInputField vc
              (fst (copyMandatoryFieldsAndDeletePredefinedKeys vc [] (map fst vc)))
              (fields c) i j (results t)) as [[out rs]|] eqn:Hbuilt.
  - rewrite (enforce_on_credential_built _ _ _ _ _ _ _ _ Hbuilt) in Hturn.
    injection Hturn as <-. unfold R, credentials_of.
    cbn [verifiablePresentation].
    destruct (existing_descriptor_map t); cbn [verifiableCredential].
    + eexists. reflexivity.
    + exists []. now rewrite app_nil_r.
  - unfold enforce_on_credential in Hturn.
    destruct (copyMandatoryFieldsAndDeletePredefinedKeys vc [] (map fst vc)).
    cbn [fst] in Hbuilt. rewrite Hbuilt in Hturn. discriminate.
Qed.

End LimitDisclosure.

(** *** The theorems on the sample data *)

Section LimitDisclosureSamples.
Import LimitDisclosureEvaluationHandler.

Lemma ld_first_path_disclosed_witness :
  exists out,
    determineNecessaryPaths Samples.extractInputField Samples.degree_credential
      [("credentialSubject", JObject [("id", JString "did:example:holder")])]
      [Samples.degree_type_field] 0 0 []
    = Some (out,
            [success_result 0 0
               [SKey "$"; SKey "credentialSubject"; SKey "degree"; SKey "type"]])
    /\ walk (JObject out) [SKey "credentialSubject"; SKey "degree"; SKey "type"]
       = Some (JString "BachelorDegree")
    /\ out = [("credentialSubject",
               JObject [("degree", JObject [("type", JString "BachelorDegree")])])].
Proof.
  destruct (ld_first_path_disclosed Samples.extractInputField
              Samples.degree_credential
              [("credentialSubject", JObject [("id", JString "did:example:holder")])]
              Samples.degree_type_field [] 0 0 []
              (mkNode [SKey "$"; SKey "credentialSubject"; SKey "degree"; SKey "type"]
                      (JString "BachelorDegree"))
              [] (JString "BachelorDegree") eq_refl
              ltac:(discriminate) eq_refl)
    as (out & Hcopy & Hrun & Hleaf & _).
  exists out. split; [|split; [exact Hleaf|]].
  - rewrite Hrun. reflexivity.
  - vm_compute in Hcopy. now injection Hcopy as <-.
Defined.

Lemma ld_mandatory_fields_copied_witness :
  exists out this',
    enforce_on_credential Samples.extractInputField
      [Samples.missing_field; Samples.degree_type_field] 0 "degree"
      Samples.bare_credential 0 Samples.disclosure_client = Some this'
    /\ credentials_of this' = [Samples.degree_credential; out; out]
    /\ map fst out = mandatoryFields
    /\ lookup "@context" out = Some JUndefined
    /\ lookup "type" out = Some (JString "https://example.org/schema#B").
Proof.
  destruct (ld_mandatory_fields_copied Samples.extractInputField
              [Samples.missing_field; Samples.degree_type_field] 0 "degree"
              Samples.bare_credential 0 Samples.disclosure_client eq_refl)
    as (out & this' & Hrun & Hbuilt & Happended & _ & Hkept & _).
  exists out, this'. split; [exact Hrun|].
  split; [exact (Happended _ eq_refl)|].
  split; [vm_compute in Hbuilt; now injection Hbuilt as <- _|].
  split.
  - apply (Hkept "@context"); [simpl; tauto|reflexivity|reflexivity].
  - apply (Hkept "type"); [simpl; tauto|reflexivity].
Defined.

Lemma ld_disclosed_credential_appended_witness :
  exists this' out,
    enforce_on_credential Samples.extractInputField
      [Samples.missing_field; Samples.degree_type_field] 0 "degree"
      Samples.degree_credential 0 Samples.disclosure_client = Some this'
    /\ verifiableCredential (verifiablePresentation this')
       = Some [Samples.degree_credential; out; out].
Proof.
  destruct (determineNecessaryPaths Samples.extractInputField
              Samples.degree_credential
              (fst (copyMandatoryFieldsAndDeletePredefinedKeys
                      Samples.degree_credential []
                      (map fst Samples.degree_credential)))
              [Samples.missing_field; Samples.degree_type_field] 0 0
              (results Samples.disclosure_client)) as [[out rs]|] eqn:Hbuilt;
    [|discriminate Hbuilt].
  destruct (ld_disclosed_credential_appended Samples.extractInputField
              [Samples.missing_field; Samples.degree_type_field] 0 "degree"
              Samples.degree_credential 0 Samples.disclosure_client out rs
              [mkDescriptor "degree" "ldp_vc" "$[0]";
               mkDescriptor "licence" "ldp_vc" "$[0]";
               mkDescriptor "degree" "ldp_vc" "$[1]"]
              Hbuilt eq_refl)
    as (this' & Hrun & Hlist & _).
  exists this', out. split; [exact Hrun|exact Hlist].
Defined.

Lemma ld_missing_field_logged_witness :
  exists this',
    handle Samples.extractInputField Samples.disclosure_definition
           Samples.candidate_presentation Samples.disclosure_client = Some this'
    /\ results this'
       = [not_found_result 0 0 ["$.credentialSubject.birthdate"];
          success_result 0 0
            [SKey "$"; SKey "credentialSubject"; SKey "degree"; SKey "type"]].
Proof.
  destruct (ld_missing_field_logged Samples.extractInputField
              Samples.disclosure_definition Samples.candidate_presentation
              Samples.disclosure_client [Samples.degree_credential]
              eq_refl eq_refl)
    as (this' & Hrun & Hlog & _).
  exists this'. split; [exact Hrun|exact Hlog].
Defined.

End LimitDisclosureSamples.

(** ** The handlers on the sample data *)

Section Runs.
Import UriEvaluationHandler.

Example hashlink_encoded : containsHashlink "hl:zQmAbc:zQmXyz" = true.
Proof. vm_compute. reflexivity. Qed.

Example hashlink_in_query :
  containsHashlink "https://www.example.com/schemas/degree.json?hl=zQmAbc" = true.
Proof. vm_compute. reflexivity. Qed.

Example hashlink_needs_two_tokens : containsHashlink "hl:zQmAbc" = false.
Proof. vm_compute. reflexivity. Qed.

Example plain_schema_is_no_hashlink :
  containsHashlink "https://example.org/schema#A" = false.
Proof. vm_compute. reflexivity. Qed.

(** The word boundary of the query form: after [.org] a letter does not
    start the path, a slash does. *)
Example hashlink_word_boundary :
  containsHashlink "https://example.orghl=abc" = false
  /\ containsHashlink "https://example.org/hl=abc" = true.
Proof. split; vm_compute; reflexivity. Qed.

Example path_of_descriptor_12 :
  input_descriptors_path 12 = "$.input_descriptors[12]"
  /\ descriptor_index "$.input_descriptors[12]" = Some 12
  /\ descriptor_index "$.input_descriptors[012]" = None
  /\ descriptor_index "$.input_descriptors" = None.
Proof. repeat split. Qed.

(** Version 2: one INFO result for each pair, whatever the credentials
    hold, and a descriptor map with one entry for each. *)
Example run_version_2 :
  option_map (fun this' => (map status (results this'),
                            option_map descriptor_map (presentationSubmission this')))
             (handle Samples.definition_v2 Samples.wrapped_credentials "s"
                     Samples.fresh_client)
  = Some ([INFO; INFO],
          Some [mkDescriptor "degree" "ldp_vc" "$[0]";
                mkDescriptor "degree" "ldp_vc" "$[1]"]).
Proof. vm_compute. reflexivity. Qed.

(** Version 1: the first descriptor warns about its hashlink for each
    credential and matches the first credential only; the second
    descriptor matches none. *)
Example run_version_1 :
  option_map (fun this' => map status (results this'))
             (handle Samples.definition_v1 Samples.wrapped_credentials "s"
                     Samples.fresh_client)
  = Some [WARN; INFO; WARN; ERROR; ERROR; ERROR].
Proof. vm_compute. reflexivity. Qed.

(** A [null] entry in a [credentialSchema] list stops the run. *)
Example run_stops_on_null_schema_entry :
  handle Samples.definition_v1
         [mkWrapped [("credentialSchema", JArray [JNull])]] "s" Samples.fresh_client
  = None.
Proof. vm_compute. reflexivity. Qed.

End Runs.

(* ================================================================= *)
(** * Part III: further properties of the handlers *)
(* ================================================================= *)

(** ** The matcher and the patterns *)

Lemma rmatch_star (r1 : regex) (prev : option ascii) (s : string)
  (k : option ascii -> string -> bool) :
  rmatch (Star r1) prev s k = star_iterate r1 k (String.length s) prev s.
Proof. reflexivity. Qed.

Lemma rmatch_repeat (r1 : regex) (lo hi : nat) (prev : option ascii) (s : string)
  (k : option ascii -> string -> bool) :
  rmatch (Repeat lo hi r1) prev s k = repeat_times r1 k lo hi prev s.
Proof. reflexivity. Qed.

Lemma star_iterate_eq (r1 : regex) (k : option ascii -> string -> bool)
  (fuel : nat) (prev : option ascii) (s : string) :
  star_iterate r1 k fuel prev s
  = if k prev s then true
    else match fuel with
         | O => false
         | S fuel' =>
             rmatch r1 prev s
               (fun prev' s' =>
                  if Nat.ltb (String.length s') (String.length s)
                  then star_iterate r1 k fuel' prev' s' else false)
         end.
Proof. destruct fuel; reflexivity. Qed.

Lemma repeat_times_eq (r1 : regex) (k : option ascii -> string -> bool)
  (lo hi : nat) (prev : option ascii) (s : string) :
  repeat_times r1 k lo hi prev s
  = if (if Nat.eqb lo 0 then k prev s else false) then true
    else match hi with
         | O => false
         | S hi' =>
             rmatch r1 prev s
               (fun prev' s' => repeat_times r1 k (Nat.pred lo) hi' prev' s')
         end.
Proof. destruct hi; reflexivity. Qed.

Lemma last_char_app (a b : string) :
  forall prev, last_char prev (a ++ b) = last_char (last_char prev a) b.
Proof. induction a as [|c a IH]; intros prev; simpl; [reflexivity|apply IH]. Qed.

Lemma string_app_assoc (a b c : string) :
  ((a ++ b) ++ c)%string = (a ++ (b ++ c))%string.
Proof. induction a as [|x a IH]; simpl; [reflexivity|now rewrite IH]. Qed.

Lemma string_length_app (a b : string) :
  String.length (a ++ b) = String.length a + String.length b.
Proof. induction a as [|x a IH]; simpl; [reflexivity|now rewrite IH]. Qed.

(** What the matcher accepts, the pattern matches. *)
Lemma rmatch_sound (r : regex) :
  forall prev s k,
    rmatch r prev s k = true ->
    exists m rest,
      s = (m ++ rest)%string /\ matches r prev m rest
      /\ k (last_char prev m) rest = true.
Proof.
  induction r as [|p|r1 IH1 r2 IH2|r1 IH1|r1 IH1|lo hi r1 IH1|]; intros prev s k H.
  - exists EmptyString, s. repeat split; [constructor|exact H].
  - destruct s as [|c s]; [discriminate|]. cbn [rmatch] in H.
    destruct (p c) eqn:Hp; [|discriminate].
    exists (String c EmptyString), s. repeat split; [now constructor|exact H].
  - cbn [rmatch] in H.
    destruct (IH1 _ _ _ H) as (m1 & s' & -> & Hm1 & H2).
    destruct (IH2 _ _ _ H2) as (m2 & rest & -> & Hm2 & Hk).
    exists (m1 ++ m2)%string, rest.
    rewrite string_app_assoc, last_char_app. repeat split; [|exact Hk].
    now constructor.
  - cbn [rmatch] in H. destruct (rmatch r1 prev s k) eqn:Hr.
    + destruct (IH1 _ _ _ Hr) as (m & rest & -> & Hm & Hk).
      exists m, rest. repeat split; [now constructor|exact Hk].
    + exists EmptyString, s. repeat split; [apply matches_optional_none|exact H].
  - rewrite rmatch_star in H. revert H. generalize (String.length s) as fuel.
    intros fuel; revert prev s.
    induction fuel as [|fuel IHf]; intros prev s H; rewrite star_iterate_eq in H;
      destruct (k prev s) eqn:Hk;
      try (exists EmptyString, s; repeat split; [constructor|exact Hk]);
      try discriminate.
    destruct (IH1 _ _ _ H) as (m1 & s' & -> & Hm1 & H2).
    destruct (Nat.ltb (String.length s') (String.length (m1 ++ s'))) eqn:Hlt;
      [|discriminate].
    destruct (IHf _ _ H2) as (m2 & rest & -> & Hm2 & Hk2).
    exists (m1 ++ m2)%string, rest.
    rewrite string_app_assoc, last_char_app. repeat split; [|exact Hk2].
    constructor; auto.
    intros ->. apply Nat.ltb_lt in Hlt. simpl in Hlt. lia.
  - rewrite rmatch_repeat in H. revert lo prev s H.
    induction hi as [|hi IHh]; intros lo prev s H; rewrite repeat_times_eq in H.
    + destruct (Nat.eqb lo 0) eqn:Hlo; [|discriminate].
      apply Nat.eqb_eq in Hlo as ->. destruct (k prev s) eqn:Hk; [|discriminate].
      exists EmptyString, s. repeat split; [constructor|exact Hk].
    + destruct (if Nat.eqb lo 0 then k prev s else false) eqn:Hstop.
      * destruct (Nat.eqb lo 0) eqn:Hlo; [|discriminate].
        apply Nat.eqb_eq in Hlo as ->.
        exists EmptyString, s. repeat split; [constructor|exact Hstop].
      * destruct (IH1 _ _ _ H) as (m1 & s' & -> & Hm1 & H2).
        destruct (IHh _ _ _ H2) as (m2 & rest & -> & Hm2 & Hk2).
        exists (m1 ++ m2)%string, rest.
        rewrite string_app_assoc, last_char_app. repeat split; [|exact Hk2].
        now constructor.
  - cbn [rmatch] in H.
    destruct (xorb (is_word_at prev) (is_word_at (head_char s))) eqn:Hb;
      [|discriminate].
    exists EmptyString, s. repeat split; [now constructor|exact H].
Qed.

Lemma rmatch_mono (r : regex) :
  forall prev s (k1 k2 : option ascii -> string -> bool),
    (forall p s', k1 p s' = true -> k2 p s' = true) ->
    rmatch r prev s k1 = true -> rmatch r prev s k2 = true.
Proof.
  induction r as [|p|r1 IH1 r2 IH2|r1 IH1|r1 IH1|lo hi r1 IH1|];
    intros prev s k1 k2 Hk H.
  - now apply Hk.
  - destruct s as [|c s]; [discriminate|]. cbn [rmatch] in *.
    destruct (p c); [now apply Hk|discriminate].
  - cbn [rmatch] in *. eapply IH1; [|exact H].
    intros p s'. now apply IH2.
  - cbn [rmatch] in *. destruct (rmatch r1 prev s k1) eqn:H1.
    + now rewrite (IH1 _ _ _ _ Hk H1).
    + destruct (rmatch r1 prev s k2); [reflexivity|now apply Hk].
  - rewrite rmatch_star in *. revert H. generalize (String.length s) as fuel.
    intros fuel; revert prev s.
    induction fuel as [|fuel IHf]; intros prev s H;
      rewrite star_iterate_eq in H; rewrite star_iterate_eq;
      destruct (k1 prev s) eqn:Hk1;
      try (now rewrite (Hk _ _ Hk1)); try discriminate.
    destruct (k2 prev s); [reflexivity|].
    eapply IH1; [|exact H]. intros p s'. cbn beta.
    destruct (Nat.ltb (String.length s') (String.length s)); [apply IHf|discriminate].
  - rewrite rmatch_repeat in *. revert lo prev s H.
    induction hi as [|hi IHh]; intros lo prev s H;
      rewrite repeat_times_eq in H; rewrite repeat_times_eq;
      destruct (Nat.eqb lo 0); destruct (k1 prev s) eqn:Hk1;
      try (now rewrite (Hk _ _ Hk1)); try discriminate.
    + destruct (k2 prev s); [reflexivity|].
      eapply IH1; [|exact H]. intros p s'. apply IHh.
    + eapply IH1; [|exact H]. intros p s'. apply IHh.
    + eapply IH1; [|exact H]. intros p s'. apply IHh.
  - cbn [rmatch] in *.
    destruct (xorb (is_word_at prev) (is_word_at (head_char s)));
      [now apply Hk|discriminate].
Qed.

Lemma star_iterate_more_fuel (r1 : regex) (k : option ascii -> string -> bool)
  (fuel : nat) :
  forall more prev s,
    fuel <= more ->
    star_iterate r1 k fuel prev s = true -> star_iterate r1 k more prev s = true.
Proof.
  induction fuel as [|fuel IH]; intros more prev s Hle H;
    rewrite star_iterate_eq in H; rewrite star_iterate_eq;
    destruct (k prev s); try reflexivity; try discriminate.
  destruct more as [|more]; [lia|].
  eapply rmatch_mono; [|exact H]. intros p s'. cbn beta.
  destruct (Nat.ltb (String.length s') (String.length s)); [|discriminate].
  apply IH. lia.
Qed.

(** What the pattern matches, the matcher accepts. *)
Lemma rmatch_complete (r : regex) (prev : option ascii) (m rest : string) :
  matches r prev m rest ->
  forall k, k (last_char prev m) rest = true ->
            rmatch r prev (m ++ rest) k = true.
Proof.
  induction 1 as [prev rest|p c prev rest Hp
                 |r1 r2 prev m1 m2 rest _ IH1 _ IH2
                 |r prev m rest _ IH|r prev rest
                 |r prev rest|r prev m1 m2 rest Hne _ IH1 _ IH2
                 |r hi prev rest|r lo hi prev m1 m2 rest _ IH1 _ IH2
                 |prev rest Hb]; intros k Hk.
  - exact Hk.
  - cbn. now rewrite Hp.
  - rewrite string_app_assoc. cbn [rmatch]. apply IH1. apply IH2.
    now rewrite <- last_char_app.
  - cbn [rmatch]. now rewrite (IH k Hk).
  - cbn [rmatch append last_char] in *.
    destruct (rmatch r prev rest k); [reflexivity|exact Hk].
  - rewrite rmatch_star, star_iterate_eq. cbn [append last_char] in *.
    now rewrite Hk.
  - rewrite rmatch_star, star_iterate_eq, string_app_assoc.
    destruct (k prev (m1 ++ m2 ++ rest)%string); [reflexivity|].
    assert (Hlt : String.length (m2 ++ rest) < String.length (m1 ++ m2 ++ rest)).
    { rewrite (string_length_app m1). destruct m1; [congruence|simpl; lia]. }
    destruct (String.length (m1 ++ m2 ++ rest)) as [|fuel] eqn:Hlen; [lia|].
    apply IH1. cbn beta.
    rewrite (proj2 (Nat.ltb_lt _ _) Hlt).
    apply star_iterate_more_fuel with (fuel := String.length (m2 ++ rest)); [lia|].
    rewrite <- rmatch_star. apply IH2. now rewrite <- last_char_app.
  - rewrite rmatch_repeat, repeat_times_eq. cbn [append last_char Nat.eqb] in *.
    now rewrite Hk.
  - rewrite rmatch_repeat, repeat_times_eq, string_app_assoc.
    destruct (if Nat.eqb lo 0 then k prev (m1 ++ m2 ++ rest)%string else false);
      [reflexivity|].
    apply IH1. rewrite <- rmatch_repeat. apply IH2. now rewrite <- last_char_app.
  - cbn [rmatch append last_char] in *. now rewrite Hb.
Qed.

Lemma search_sound (r : regex) (s : string) :
  forall prev,
    search r prev s = true ->
    exists before m after,
      s = (before ++ m ++ after)%string
      /\ matches r (last_char prev before) m after.
Proof.
  induction s as [|c s IH]; intros prev H; cbn [search] in H.
  - destruct (rmatch r prev EmptyString (fun _ _ => true)) eqn:Hr; [|discriminate].
    destruct (rmatch_sound r _ _ _ Hr) as (m & after & Hs & Hm & _).
    now exists EmptyString, m, after.
  - destruct (rmatch r prev (String c s) (fun _ _ => true)) eqn:Hr.
    + destruct (rmatch_sound r _ _ _ Hr) as (m & after & Hs & Hm & _).
      now exists EmptyString, m, after.
    + destruct (IH _ H) as (before & m & after & -> & Hm).
      now exists (String c before), m, after.
Qed.

Lemma search_complete (r : regex) (before m after : string) (prev : option ascii) :
  matches r (last_char prev before) m after ->
  search r prev (before ++ m ++ after) = true.
Proof.
  intros Hm. apply search_skips, search_here.
  now apply (rmatch_complete r _ _ _ Hm).
Qed.

Lemma matches_seq_inv (r1 r2 : regex) (prev : option ascii) (m rest : string) :
  matches (Seq r1 r2) prev m rest ->
  exists m1 m2,
    m = (m1 ++ m2)%string /\ matches r1 prev m1 (m2 ++ rest)
    /\ matches r2 (last_char prev m1) m2 rest.
Proof. inversion 1; subst; eauto. Qed.

Lemma matches_class_inv (p : ascii -> bool) (prev : option ascii) (m rest : string) :
  matches (Class p) prev m rest ->
  exists c, m = String c EmptyString /\ p c = true.
Proof. inversion 1; subst; eauto. Qed.

Lemma matches_lit (w : string) :
  forall prev rest, matches (lit w) prev w rest.
Proof.
  induction w as [|c w IH]; intros prev rest; cbn [lit]; [constructor|].
  change (String c w) with (String c EmptyString ++ w)%string.
  constructor; [|apply IH]. constructor. apply Ascii.eqb_refl.
Qed.

Lemma matches_lit_inv (w : string) :
  forall prev m rest, matches (lit w) prev m rest -> m = w.
Proof.
  induction w as [|c w IH]; intros prev m rest H; cbn [lit] in H.
  - now inversion H.
  - apply matches_seq_inv in H as (m1 & m2 & -> & H1 & H2).
    apply matches_class_inv in H1 as (c' & -> & Hc).
    apply Ascii.eqb_eq in Hc as <-. cbn. now rewrite (IH _ _ _ H2).
Qed.

Lemma all_chars_app (p : ascii -> bool) (a b : string) :
  all_chars p (a ++ b) = all_chars p a && all_chars p b.
Proof.
  induction a as [|c a IH]; simpl; [reflexivity|].
  destruct (p c); [exact IH|reflexivity].
Qed.

Lemma matches_star_class (p : ascii -> bool) (m : string) :
  forall prev rest,
    all_chars p m = true -> matches (Star (Class p)) prev m rest.
Proof.
  induction m as [|c m IH]; intros prev rest Hall; [constructor|].
  cbn [all_chars] in Hall. destruct (p c) eqn:Hp; [|discriminate].
  change (String c m) with (String c EmptyString ++ m)%string.
  apply matches_star_step; [discriminate|now constructor|now apply IH].
Qed.

Lemma matches_star_class_inv (p : ascii -> bool) (prev : option ascii)
  (m rest : string) :
  matches (Star (Class p)) prev m rest -> all_chars p m = true.
Proof.
  intros H. remember (Star (Class p)) as r eqn:Hr. revert Hr.
  induction H; intros Hr; try discriminate; [reflexivity|].
  injection Hr as ->.
  apply matches_class_inv in H0 as (c & -> & Hc).
  rewrite all_chars_app. cbn [all_chars]. rewrite Hc. cbn [andb]. now apply IHmatches2.
Qed.

Lemma matches_plus_class (p : ascii -> bool) (m : string) (prev : option ascii)
  (rest : string) :
  matches (plus (Class p)) prev m rest <->
  m <> EmptyString /\ all_chars p m = true.
Proof.
  unfold plus. split.
  - intros H. apply matches_seq_inv in H as (m1 & m2 & -> & H1 & H2).
    apply matches_class_inv in H1 as (c & -> & Hc).
    apply matches_star_class_inv in H2. split; [discriminate|].
    cbn. now rewrite Hc.
  - intros [Hne Hall]. destruct m as [|c m]; [congruence|].
    cbn [all_chars] in Hall. destruct (p c) eqn:Hc; [|discriminate].
    change (String c m) with (String c EmptyString ++ m)%string.
    constructor; [now constructor|now apply matches_star_class].
Qed.

Lemma matches_repeat_class (p : ascii -> bool) (m : string) :
  forall lo hi prev rest,
    all_chars p m = true -> lo <= String.length m <= hi ->
    matches (Repeat lo hi (Class p)) prev m rest.
Proof.
  induction m as [|c m IH]; intros lo hi prev rest Hall Hlen.
  - cbn in Hlen. assert (lo = 0) as -> by lia. constructor.
  - cbn [all_chars] in Hall. destruct (p c) eqn:Hp; [|discriminate].
    cbn [String.length] in Hlen. destruct hi as [|hi]; [lia|].
    change (String c m) with (String c EmptyString ++ m)%string.
    apply matches_repeat_step; [now constructor|]. apply IH; [exact Hall|lia].
Qed.

Lemma matches_repeat_class_inv (p : ascii -> bool) (lo hi : nat)
  (prev : option ascii) (m rest : string) :
  matches (Repeat lo hi (Class p)) prev m rest ->
  all_chars p m = true /\ lo <= String.length m <= hi.
Proof.
  intros H. remember (Repeat lo hi (Class p)) as r eqn:Hr. revert lo hi Hr.
  induction H; intros lo0 hi0 Hr; try discriminate.
  - injection Hr as Hlo Hhi _. subst. cbn. split; [reflexivity|lia].
  - injection Hr as Hlo Hhi Hcl. subst.
    apply matches_class_inv in H as (c & -> & Hc).
    destruct (IHmatches2 _ _ eq_refl) as [Hall Hlen].
    cbn [append all_chars String.length]. rewrite Hc. split; [exact Hall|lia].
Qed.

Lemma matches_optional_lit (w : string) (prev : option ascii) (m rest : string) :
  matches (Optional (lit w)) prev m rest <-> m = EmptyString \/ m = w.
Proof.
  split.
  - inversion 1; subst; [right; eapply matches_lit_inv; eauto|now left].
  - intros [->| ->]; [apply matches_optional_none|].
    apply matches_optional_some, matches_lit.
Qed.

Lemma last_char_nonempty (s : string) (prev prev' : option ascii) :
  s <> EmptyString -> last_char prev s = last_char prev' s.
Proof. destruct s; [congruence|reflexivity]. Qed.

Section Patterns.
Import UriEvaluationHandler.

(** The strings the encoded pattern matches. *)
Lemma matches_encoded (prev : option ascii) (m rest : string) :
  matches HASHLINK_URL_ENCODED_REGEX prev m rest <-> encoded_hashlink m.
Proof.
  unfold HASHLINK_URL_ENCODED_REGEX, encoded_hashlink. split.
  - intros H.
    apply matches_seq_inv in H as (m1 & ma & -> & H1 & H).
    apply matches_lit_inv in H1 as ->.
    apply matches_seq_inv in H as (t1 & mb & -> & Ht1 & H).
    apply matches_plus_class in Ht1 as [Hne1 Hall1].
    apply matches_seq_inv in H as (m2 & t2 & -> & H2 & Ht2).
    apply matches_lit_inv in H2 as ->.
    apply matches_plus_class in Ht2 as [Hne2 Hall2].
    exists t1, t2. now repeat split.
  - intros (t1 & t2 & -> & Hne1 & Hall1 & Hne2 & Hall2).
    constructor; [apply matches_lit|].
    constructor; [now apply matches_plus_class|].
    constructor; [apply matches_lit|]. now apply matches_plus_class.
Qed.

Lemma matches_word_boundary_inv (prev : option ascii) (m rest : string) :
  matches WordBoundary prev m rest ->
  m = EmptyString
  /\ xorb (is_word_at prev) (is_word_at (head_char rest)) = true.
Proof. inversion 1; subst; now split. Qed.

Lemma boundary_after_domain (prev : option ascii) (domain path token rest : string) :
  domain <> EmptyString ->
  xorb (is_word_at (last_char prev domain))
       (is_word_at (head_char ((path ++ "hl=" ++ token) ++ rest)))
  = xorb (is_word_at (last_char None domain))
         (is_word_at (head_char (path ++ "hl="))).
Proof.
  intros Hne. rewrite (last_char_nonempty domain prev None Hne). f_equal. f_equal.
  destruct path; reflexivity.
Qed.

Lemma length_positive_nonempty (s : string) :
  1 <= String.length s -> s <> EmptyString.
Proof. destruct s; simpl; [lia|discriminate]. Qed.

(** The strings the query pattern matches. *)
Lemma matches_query (prev : option ascii) (m rest : string) :
  matches HASHLINK_QUERY_URL_REGEX prev m rest <-> query_hashlink m.
Proof.
  unfold HASHLINK_QUERY_URL_REGEX, query_hashlink. split.
  - intros H.
    apply matches_seq_inv in H as (m1 & ma & -> & H1 & H).
    apply matches_lit_inv in H1 as ->.
    apply matches_seq_inv in H as (ss & mb & -> & Hss & H).
    apply matches_star_class_inv in Hss.
    apply matches_seq_inv in H as (m2 & mc & -> & H2 & H).
    apply matches_lit_inv in H2 as ->.
    apply matches_seq_inv in H as (www & md & -> & Hwww & H).
    apply matches_optional_lit in Hwww.
    apply matches_seq_inv in H as (host & me & -> & Hhost & H).
    apply matches_repeat_class_inv in Hhost as [Hhost Hhostlen].
    apply matches_seq_inv in H as (m3 & mf & -> & H3 & H).
    apply matches_lit_inv in H3 as ->.
    apply matches_seq_inv in H as (domain & mg & -> & Hdomain & H).
    apply matches_repeat_class_inv in Hdomain as [Hdomain Hdomainlen].
    apply matches_seq_inv in H as (m4 & mh & -> & Hb & H).
    apply matches_word_boundary_inv in Hb as [-> Hb].
    apply matches_seq_inv in H as (path & mi & -> & Hpath & H).
    apply matches_star_class_inv in Hpath.
    apply matches_seq_inv in H as (m5 & token & -> & H5 & Htoken).
    apply matches_lit_inv in H5 as ->.
    apply matches_plus_class in Htoken as [Hne Htoken].
    exists ss, www, host, domain, path, token.
    repeat split; try assumption; try lia.
    rewrite boundary_after_domain in Hb; [exact Hb|].
    apply length_positive_nonempty. lia.
  - intros (ss & www & host & domain & path & token & -> & Hss & Hwww & Hhost
            & Hhostlen & Hdomain & Hdomainlen & Hb & Hpath & Hne & Htoken).
    constructor; [apply matches_lit|].
    constructor; [now apply matches_star_class|].
    constructor; [apply matches_lit|].
    constructor; [now apply matches_optional_lit|].
    constructor; [now apply matches_repeat_class|].
    constructor; [apply matches_lit|].
    constructor; [now apply matches_repeat_class|].
    change (path ++ "hl=" ++ token)%string
      with (EmptyString ++ path ++ "hl=" ++ token)%string.
    constructor.
    + constructor.
      rewrite boundary_after_domain; [exact Hb|].
      apply length_positive_nonempty. lia.
    + constructor; [now apply matches_star_class|].
      constructor; [apply matches_lit|]. now apply matches_plus_class.
Qed.

Lemma search_iff (r : regex) (s : string) :
  search r None s = true <->
  exists before m after,
    s = (before ++ m ++ after)%string /\ matches r (last_char None before) m after.
Proof.
  split; [apply search_sound|].
  intros (before & m & after & -> & Hm). now apply search_complete.
Qed.

(** X1: a URI is taken for a hashlink exactly when some part of it has
    the query form or the encoded form. *)
Theorem containsHashlink_iff (url : string) :
  containsHashlink url = true <->
  exists before m after,
    url = (before ++ m ++ after)%string
    /\ (query_hashlink m \/ encoded_hashlink m).
Proof.
  unfold containsHashlink, matchAll_done. split.
  - intros H.
    destruct (search HASHLINK_QUERY_URL_REGEX None url) eqn:Hq.
    + apply search_iff in Hq as (before & m & after & -> & Hm).
      exists before, m, after. split; [reflexivity|]. left.
      now apply matches_query in Hm.
    + cbn [negb] in H.
      destruct (search HASHLINK_URL_ENCODED_REGEX None url) eqn:He; [|discriminate].
      apply search_iff in He as (before & m & after & -> & Hm).
      exists before, m, after. split; [reflexivity|]. right.
      now apply matches_encoded in Hm.
  - intros (before & m & after & -> & [Hm|Hm]).
    + assert (Hq : search HASHLINK_QUERY_URL_REGEX None (before ++ m ++ after) = true).
      { apply search_iff. exists before, m, after. split; [reflexivity|].
        now apply matches_query. }
      now rewrite Hq.
    + assert (He : search HASHLINK_URL_ENCODED_REGEX None (before ++ m ++ after) = true).
      { apply search_iff. exists before, m, after. split; [reflexivity|].
        now apply matches_encoded. }
      rewrite He. now destruct (search HASHLINK_QUERY_URL_REGEX None _).
Qed.

(** X2: a URI that holds neither [hl:] nor [hl=] is never taken for a
    hashlink. *)
Theorem containsHashlink_needs_hl (url : string) :
  containsHashlink url = true ->
  exists before after,
    url = (before ++ "hl:" ++ after)%string
    \/ url = (before ++ "hl=" ++ after)%string.
Proof.
  unfold containsHashlink, matchAll_done. intros H.
  destruct (search HASHLINK_QUERY_URL_REGEX None url) eqn:Hq.
  - apply search_iff in Hq as (before & m & after & -> & Hm).
    apply matches_query in Hm.
    destruct Hm as (ss & www & host & domain & path & token & -> & _).
    exists (before ++ "http" ++ ss ++ "://" ++ www ++ host ++ "." ++ domain
            ++ path)%string, (token ++ after)%string.
    right. now rewrite !string_app_assoc.
  - cbn [negb] in H.
    destruct (search HASHLINK_URL_ENCODED_REGEX None url) eqn:He; [|discriminate].
    apply search_iff in He as (before & m & after & -> & Hm).
    apply matches_encoded in Hm. destruct Hm as (t1 & t2 & -> & _).
    exists before, (t1 ++ ":" ++ t2 ++ after)%string.
    left. now rewrite !string_app_assoc.
Qed.

End Patterns.

(** ** Loops that may stop *)

Lemma traverse_app {A B : Type} (f : A -> option B) (l1 l2 : list A)
  (ys1 ys2 : list B) :
  UriEvaluationHandler.traverse f l1 = Some ys1 ->
  UriEvaluationHandler.traverse f l2 = Some ys2 ->
  UriEvaluationHandler.traverse f (l1 ++ l2) = Some (ys1 ++ ys2).
Proof.
  revert ys1; induction l1 as [|x l1 IH]; intros ys1 H1 H2; simpl in *.
  - now injection H1 as <-.
  - destruct (f x) as [y|]; [|discriminate]. cbn [bind] in *.
    destruct (UriEvaluationHandler.traverse f l1) as [ys|]; [|discriminate].
    cbn [bind] in *. injection H1 as <-.
    now rewrite (IH ys eq_refl H2).
Qed.

Lemma traverse_is_some {A B : Type} (f : A -> option B) (l : list A) :
  is_some (UriEvaluationHandler.traverse f l)
  = forallb (fun x => is_some (f x)) l.
Proof.
  induction l as [|x l IH]; [reflexivity|]. simpl.
  destruct (f x) as [y|]; [|reflexivity]. cbn [bind is_some andb].
  rewrite <- IH. now destruct (UriEvaluationHandler.traverse f l).
Qed.

(** A loop whose turns complete or not whatever the state is completes
    exactly when every turn does. *)
Lemma forEach_is_some {A St : Type} (body : A -> nat -> St -> option St)
  (good : A -> bool) (l : list A) :
  (forall x k s, is_some (body x k s) = good x) ->
  forall i s, is_some (forEach body l i s) = forallb good l.
Proof.
  intros Hbody. induction l as [|x l IH]; intros i s; [reflexivity|].
  cbn [forEach forallb]. rewrite <- (Hbody x i s).
  destruct (body x i s) as [s'|]; [|reflexivity]. cbn [bind is_some andb].
  apply IH.
Qed.

Lemma forallb_pointwise {A : Type} (f g : A -> bool) (l : list A) :
  (forall x, f x = g x) -> forallb f l = forallb g l.
Proof.
  intros H. induction l as [|x l IH]; [reflexivity|]. cbn. now rewrite H, IH.
Qed.

(** ** The URI evaluation handler, further *)

Section UriFurther.
Import UriEvaluationHandler.

Lemma buildVc_is_some (c : list (string * value)) :
  is_some (buildVcContextAndSchemaUris c) = schema_readable c.
Proof.
  destruct (schema_readable c) eqn:Hc.
  - now rewrite (buildVcContextAndSchemaUris_spec c Hc).
  - now rewrite (buildVcContextAndSchemaUris_throws c Hc).
Qed.

Lemma forallb_const {A : Type} (b : bool) (l : list A) :
  forallb (fun _ => b) l = match l with [] => true | _ :: _ => b end.
Proof.
  destruct l as [|x l]; [reflexivity|]. cbn [forallb].
  induction l as [|y l IH]; cbn [forallb]; [apply andb_true_r|].
  destruct b; [exact IH|reflexivity].
Qed.

Lemma handle_unfold (d : IInternalPresentationDefinition)
  (wrappedVcs : list WrappedVerifiableCredential) (nanoid : string)
  (this : EvaluationClient) :
  handle d wrappedVcs nanoid this
  = (results1 <- pairs_loop d wrappedVcs (results this) ;;
     descriptorMap <- traverse (descriptor_of_result d) (filter is_info results1) ;;
     Some {| results := results1;
             presentationSubmission :=
               Some {| submission_id := nanoid;
                       definition_id := pd_id d;
                       descriptor_map := descriptorMap |} |}).
Proof. reflexivity. Qed.

(** The loops stop exactly when there is a descriptor and a credential
    that cannot be read; otherwise they append the results of all
    pairs. *)
Lemma pairs_loop_cases (d : IInternalPresentationDefinition)
  (wrappedVcs : list WrappedVerifiableCredential) (log : list HandlerCheckResult) :
  pairs_loop d wrappedVcs log
  = if match input_descriptors d with
       | [] => true
       | _ :: _ => forallb extractable wrappedVcs
       end
    then Some (log ++ appended_results d wrappedVcs) else None.
Proof.
  destruct (input_descriptors d) as [|inDesc rest] eqn:Hd.
  - unfold pairs_loop, appended_results. rewrite Hd. cbn. now rewrite app_nil_r.
  - destruct (forallb extractable wrappedVcs) eqn:Hok.
    + unfold pairs_loop. now apply handle_log.
    + assert (H : is_some (pairs_loop d wrappedVcs log) = false).
      { unfold pairs_loop.
        rewrite (forEach_is_some _ (fun _ => forallb extractable wrappedVcs)).
        - rewrite forallb_const, Hd. exact Hok.
        - intros x k s. cbv zeta. apply forEach_is_some.
          intros wvc j rs. unfold extractable. rewrite <- buildVc_is_some.
          now destruct (buildVcContextAndSchemaUris (credential wvc)). }
      now destruct (pairs_loop d wrappedVcs log).
Qed.

Lemma log_resolves_app_eq (d : IInternalPresentationDefinition)
  (wrappedVcs : list WrappedVerifiableCredential) (log : list HandlerCheckResult) :
  log_resolves d (log ++ appended_results d wrappedVcs) = log_resolves d log.
Proof.
  destruct (log_resolves d log) eqn:Hlog; [now apply log_resolves_app|].
  unfold log_resolves in *. now rewrite filter_app, forallb_app, Hlog.
Qed.

Lemma descriptor_of_result_is_some (d : IInternalPresentationDefinition)
  (e : HandlerCheckResult) :
  is_some (descriptor_of_result d e) = resolvable d e.
Proof.
  unfold descriptor_of_result, resolvable. now destruct (first_node_value _).
Qed.

Lemma handle_is_some_iff (d : IInternalPresentationDefinition)
  (wrappedVcs : list WrappedVerifiableCredential) (nanoid : string)
  (this : EvaluationClient) :
  is_some (handle d wrappedVcs nanoid this)
  = handle_completes d wrappedVcs (results this).
Proof.
  rewrite handle_unfold, pairs_loop_cases. unfold handle_completes.
  destruct (match input_descriptors d with [] => true | _ :: _ => _ end);
    [|reflexivity].
  cbn [bind andb]. rewrite <- (log_resolves_app_eq d wrappedVcs).
  unfold log_resolves.
  rewrite <- (forallb_pointwise _ _ _ (descriptor_of_result_is_some d)).
  rewrite <- traverse_is_some.
  now destruct (traverse (descriptor_of_result d) _).
Qed.

Lemma log_resolves_positions (d : IInternalPresentationDefinition)
  (log : list HandlerCheckResult) :
  (forall e, In e log -> status e = INFO ->
             exists n, input_descriptor_path e = input_descriptors_path n) ->
  log_resolves d log = true <->
  (forall e n, In e log -> status e = INFO ->
               input_descriptor_path e = input_descriptors_path n ->
               n < List.length (input_descriptors d)).
Proof.
  intros Haddr. unfold log_resolves. rewrite forallb_forall. split.
  - intros H e n He Hst Hp.
    assert (Hin : In e (filter is_info log)).
    { apply filter_In. split; [exact He|]. unfold is_info. now rewrite Hst. }
    apply H in Hin. unfold resolvable, jp_nodes in Hin.
    rewrite Hp, descriptor_index_path in Hin.
    destruct (nth_error (input_descriptors d) n) eqn:Hn; [|discriminate].
    apply nth_error_Some. congruence.
  - intros H e He. apply filter_In in He as [He Hinfo].
    assert (Hst : status e = INFO).
    { unfold is_info in Hinfo. now destruct (status e). }
    destruct (Haddr e He Hst) as [n Hp]. specialize (H e n He Hst Hp).
    unfold resolvable, jp_nodes. rewrite Hp, descriptor_index_path.
    apply nth_error_Some in H.
    now destruct (nth_error (input_descriptors d) n).
Qed.

(** X3: on a log whose INFO entries are addressed the way the handlers
    address their results, as [$.input_descriptors[n]], [handle] runs to
    its end exactly when each of these entries names a position within
    the descriptor list of the definition and, if the definition has a
    descriptor at all, no [credentialSchema] list of a credential holds
    [undefined] or [null]; in every other case it throws. *)
Theorem uri_handle_completes_iff (d : IInternalPresentationDefinition)
  (wrappedVcs : list WrappedVerifiableCredential) (nanoid : string)
  (this : EvaluationClient) :
  (forall e, In e (results this) -> status e = INFO ->
             exists n, input_descriptor_path e = input_descriptors_path n) ->
  (exists this', handle d wrappedVcs nanoid this = Some this')
  <->
  (input_descriptors d = [] \/ forallb extractable wrappedVcs = true)
  /\ (forall e n, In e (results this) -> status e = INFO ->
                  input_descriptor_path e = input_descriptors_path n ->
                  n < List.length (input_descriptors d)).
Proof.
  intros Haddr.
  pose proof (handle_is_some_iff d wrappedVcs nanoid this) as Hsome.
  unfold handle_completes in Hsome.
  rewrite <- (log_resolves_positions d (results this) Haddr).
  split.
  - intros [this' Hrun]. rewrite Hrun in Hsome. cbn [is_some] in Hsome.
    symmetry in Hsome. apply Bool.andb_true_iff in Hsome as [H1 H2].
    split; [|exact H2]. destruct (input_descriptors d); [now left|now right].
  - intros [H1 H2]. rewrite H2, Bool.andb_true_r in Hsome.
    assert (Hb : match input_descriptors d with
                 | [] => true
                 | _ :: _ => forallb extractable wrappedVcs
                 end = true).
    { destruct H1 as [-> | H1]; [reflexivity|].
      now destruct (input_descriptors d). }
    rewrite Hb in Hsome.
    destruct (handle d wrappedVcs nanoid this) as [this'|];
      [now exists this'|discriminate].
Qed.

Lemma uri_handle_completes_iff_witness :
  exists this',
    handle Samples.definition_v1 Samples.wrapped_credentials "s" Samples.used_client
    = Some this'.
Proof.
  assert (Haddr : forall e, In e (results Samples.used_client) -> status e = INFO ->
                    exists n, input_descriptor_path e = input_descriptors_path n).
  { intros e [<-|[]] _. now exists 1. }
  apply (proj2 (uri_handle_completes_iff Samples.definition_v1
                  Samples.wrapped_credentials "s" Samples.used_client Haddr)).
  split; [now right|].
  intros e n [<-|[]] _ Hp.
  change (input_descriptors_path 1 = input_descriptors_path n) in Hp.
  apply input_descriptors_path_inj in Hp. subst n. cbn. lia.
Defined.

Lemma get_member_throws (v : value) (key : string) :
  get_member v key = None <-> v = JUndefined \/ v = JNull.
Proof.
  split.
  - destruct v; simpl; try discriminate; auto.
    + destruct (String.eqb key "length"); [discriminate|].
      destruct (array_index key); discriminate.
    + destruct (String.eqb key "length"); [discriminate|].
      destruct (array_index key); discriminate.
  - now intros [-> | ->].
Qed.

(** X4: extracting the URIs of a credential throws exactly when its
    [credentialSchema] is a list that holds [undefined] or [null]. *)
Theorem uri_extraction_throws_iff (c : list (string * value)) :
  buildVcContextAndSchemaUris c = None <->
  exists es, field c "credentialSchema" = JArray es
             /\ (In JUndefined es \/ In JNull es).
Proof.
  assert (Hread : schema_readable c = false <->
                  exists es, field c "credentialSchema" = JArray es
                             /\ (In JUndefined es \/ In JNull es)).
  { unfold schema_readable.
    destruct (field c "credentialSchema") as [| |b|z|s|es|ps];
      try (split; [discriminate|intros (es' & H & _); discriminate]).
    split.
    - intros H. exists es. split; [reflexivity|].
      induction es as [|e es IH]; [discriminate|]. cbn [forallb] in H.
      destruct (get_member e "id") eqn:He.
      + cbn [is_some andb] in H. destruct (IH H); [left|right]; now right.
      + apply get_member_throws in He as [-> | ->]; [left|right]; now left.
    - intros (es' & [= <-] & Hin).
      assert (Hbad : exists e, In e es /\ get_member e "id" = None).
      { destruct Hin as [Hin|Hin]; eexists; (split; [exact Hin|reflexivity]). }
      destruct Hbad as (e & He & Hnone). clear Hin.
      induction es as [|e' es IH]; [destruct He|]. cbn [forallb].
      destruct He as [-> |He]; [now rewrite Hnone|].
      rewrite (IH He). apply andb_false_r. }
  rewrite <- Hread. pose proof (buildVc_is_some c) as H.
  destruct (buildVcContextAndSchemaUris c), (schema_readable c);
    simpl in H; split; congruence.
Qed.

(** What a run that returns leaves behind. *)
Lemma handle_returns (d : IInternalPresentationDefinition)
  (wrappedVcs : list WrappedVerifiableCredential) (nanoid : string)
  (this this' : EvaluationClient) :
  handle d wrappedVcs nanoid this = Some this' ->
  results this' = results this ++ appended_results d wrappedVcs
  /\ exists descriptorMap,
       traverse (descriptor_of_result d) (filter is_info (results this'))
       = Some descriptorMap
       /\ presentationSubmission this'
          = Some {| submission_id := nanoid;
                    definition_id := pd_id d;
                    descriptor_map := descriptorMap |}.
Proof.
  rewrite handle_unfold, pairs_loop_cases.
  destruct (match input_descriptors d with [] => true | _ :: _ => _ end);
    [|discriminate].
  cbn [bind].
  destruct (traverse (descriptor_of_result d) _) as [dm|] eqn:Hdm; [|discriminate].
  cbn [bind]. intros [= <-]. cbn [results presentationSubmission].
  split; [reflexivity|]. now exists dm.
Qed.

Lemma traverse_filter_flat_mapi {A B C : Type} (f : B -> option C)
  (keep : B -> bool) (F : A -> nat -> list B) (G : A -> nat -> list C)
  (l : list A) :
  forall i,
    (forall k x, nth_error l k = Some x ->
                 traverse f (filter keep (F x (i + k))) = Some (G x (i + k))) ->
    traverse f (filter keep (flat_mapi F l i)) = Some (flat_mapi G l i).
Proof.
  induction l as [|x l IH]; intros i H; [reflexivity|].
  cbn [flat_mapi]. rewrite filter_app. apply traverse_app.
  - specialize (H 0 x eq_refl). now rewrite Nat.add_0_r in H.
  - apply IH. intros k y Hk. specialize (H (S k) y Hk).
    now rewrite Nat.add_succ_r in H.
Qed.

Lemma filter_info_warns (uris : list string) (i j : nat) (version : PEVersion) :
  filter is_info (warn_results uris i j version) = [].
Proof.
  apply filter_nothing. intros e He. unfold warn_results in He.
  destruct version; [|destruct He].
  apply in_map_iff in He as (u & <- & _). reflexivity.
Qed.

Lemma satisfies_match (d : IInternalPresentationDefinition)
  (inDesc : InputDescriptorV1) (wvc : WrappedVerifiableCredential) :
  match getVersion d with
  | v1 => has_match (descriptor_uris d inDesc) (extracted_uris (credential wvc))
  | v2 => true
  end = satisfies d inDesc wvc.
Proof.
  unfold satisfies, descriptor_uris. now destruct (getVersion d).
Qed.

(** The entries the results of one pair give rise to. *)
Lemma pair_entries (d : IInternalPresentationDefinition)
  (inDesc : InputDescriptorV1) (i : nat) (wvc : WrappedVerifiableCredential)
  (j : nat) :
  nth_error (input_descriptors d) i = Some inDesc ->
  traverse (descriptor_of_result d) (filter is_info (pair_results d inDesc i wvc j))
  = Some (if satisfies d inDesc wvc then [map_entry inDesc j] else []).
Proof.
  intros Hi. unfold pair_results. rewrite filter_app, filter_info_warns.
  cbn [app filter]. unfold is_info. rewrite match_result_status, satisfies_match.
  destruct (satisfies d inDesc wvc) eqn:Hs; [|reflexivity].
  cbn [Status_eqb traverse]. unfold descriptor_of_result, match_result.
  rewrite satisfies_match, Hs. cbn [createSuccessResultObject with_outcome
    createResult input_descriptor_path verifiable_credential_path].
  now rewrite (jp_nodes_own_path d i inDesc Hi).
Qed.

Lemma appended_entries (d : IInternalPresentationDefinition)
  (wrappedVcs : list WrappedVerifiableCredential) :
  traverse (descriptor_of_result d) (filter is_info (appended_results d wrappedVcs))
  = Some (satisfied_pairs d wrappedVcs).
Proof.
  unfold appended_results, satisfied_pairs.
  apply traverse_filter_flat_mapi. intros i inDesc Hi. cbn [Nat.add].
  apply traverse_filter_flat_mapi. intros j wvc _. now apply pair_entries.
Qed.

(** X5: from an empty log, the descriptor map [handle] builds lists,
    descriptor by descriptor and in the order of the credentials, the
    credentials that satisfy the descriptor: one entry with the
    descriptor's [id], the format ["ldp_vc"] and the path [$[j]] for
    each credential [j] of which an extracted URI is a declared one
    (version 1), or for each credential (version 2). *)
Theorem uri_descriptor_map_of_fresh_run (d : IInternalPresentationDefinition)
  (wrappedVcs : list WrappedVerifiableCredential) (nanoid : string)
  (this : EvaluationClient) :
  forallb extractable wrappedVcs = true ->
  results this = [] ->
  exists this' submission,
    handle d wrappedVcs nanoid this = Some this'
    /\ presentationSubmission this' = Some submission
    /\ descriptor_map submission = satisfied_pairs d wrappedVcs.
Proof.
  intros Hok Hfresh.
  assert (Hlog : log_resolves d (results this) = true) by now rewrite Hfresh.
  destruct (handle_spec d wrappedVcs nanoid this Hok Hlog) as (dm & Hdm & _ & Hrun).
  rewrite Hfresh in Hdm. cbn [app] in Hdm. rewrite appended_entries in Hdm.
  injection Hdm as <-. eexists _, _. split; [exact Hrun|]. now split.
Qed.

Lemma uri_descriptor_map_of_fresh_run_witness :
  exists this' submission,
    handle Samples.definition_v1 Samples.wrapped_credentials "s"
           Samples.fresh_client = Some this'
    /\ presentationSubmission this' = Some submission
    /\ descriptor_map submission = [mkDescriptor "degree" "ldp_vc" "$[0]"].
Proof.
  destruct (uri_descriptor_map_of_fresh_run Samples.definition_v1
              Samples.wrapped_credentials "s" Samples.fresh_client eq_refl eq_refl)
    as (this' & submission & Hrun & Hsub & Hmap).
  exists this', submission. repeat split; assumption.
Defined.

Lemma length_flat_mapi_const {A B : Type} (f : A -> nat -> list B) (n : nat)
  (l : list A) :
  forall i,
    (forall x k, In x l -> List.length (f x k) = n) ->
    List.length (flat_mapi f l i) = List.length l * n.
Proof.
  induction l as [|x l IH]; intros i H; [reflexivity|].
  cbn [flat_mapi List.length]. rewrite length_app, H by now left.
  rewrite IH by (intros; apply H; now right). lia.
Qed.

(** X6: under version 2, from an empty log, every credential is mapped
    to every descriptor: the descriptor map has one entry for each pair,
    and every result of the run is an INFO. *)
Theorem uri_version_2_maps_every_pair (d : IInternalPresentationDefinition)
  (wrappedVcs : list WrappedVerifiableCredential) (nanoid : string)
  (this : EvaluationClient) :
  getVersion d = v2 ->
  forallb extractable wrappedVcs = true ->
  results this = [] ->
  exists this' submission,
    handle d wrappedVcs nanoid this = Some this'
    /\ presentationSubmission this' = Some submission
    /\ List.length (descriptor_map submission)
       = List.length (input_descriptors d) * List.length wrappedVcs
    /\ (forall i j inDesc wvc,
          nth_error (input_descriptors d) i = Some inDesc ->
          nth_error wrappedVcs j = Some wvc ->
          In {| descriptor_id := id inDesc;
                descriptor_format := "ldp_vc";
                descriptor_path := "$[" ++ string_of_nat j ++ "]" |}
             (descriptor_map submission))
    /\ Forall (fun e => status e = INFO) (results this').
Proof.
  intros Hv Hok Hfresh.
  assert (Hlog : log_resolves d (results this) = true) by now rewrite Hfresh.
  destruct (handle_spec d wrappedVcs nanoid this Hok Hlog) as (dm & Hdm & _ & Hrun).
  rewrite Hfresh in Hdm, Hrun. cbn [app] in Hdm, Hrun.
  rewrite appended_entries in Hdm. injection Hdm as <-.
  eexists _, _. split; [exact Hrun|]. split; [reflexivity|].
  cbn [descriptor_map results]. split; [|split].
  - unfold satisfied_pairs. apply length_flat_mapi_const. intros inDesc k _.
    replace (List.length wrappedVcs) with (List.length wrappedVcs * 1) by lia.
    apply length_flat_mapi_const. intros wvc k' _.
    unfold satisfies. now rewrite Hv.
  - intros i j inDesc wvc Hi Hj. unfold satisfied_pairs.
    apply in_flat_mapi. exists inDesc, i. split; [exact Hi|].
    apply in_flat_mapi. exists wvc, j. split; [exact Hj|].
    unfold satisfies. rewrite Hv. now left.
  - apply Forall_forall. intros e He.
    apply appended_results_resolve in He as (i & j & inDesc & wvc & _ & _ & He).
    unfold pair_results, warn_results, match_result in He. rewrite Hv in He.
    destruct He as [<-|[]]. reflexivity.
Qed.

Lemma uri_version_2_maps_every_pair_witness :
  exists this' submission,
    handle Samples.definition_v2 Samples.wrapped_credentials "s"
           Samples.fresh_client = Some this'
    /\ presentationSubmission this' = Some submission
    /\ List.length (descriptor_map submission) = 2.
Proof.
  destruct (uri_version_2_maps_every_pair Samples.definition_v2
              Samples.wrapped_credentials "s" Samples.fresh_client
              eq_refl eq_refl eq_refl)
    as (this' & submission & Hrun & Hsub & Hlen & _).
  exists this', submission. repeat split; assumption.
Defined.

(** X7: whenever [handle] returns, the log it was given is still there,
    unchanged, at the head of the log, and every result after it bears
    the handler's name and addresses a descriptor of the definition and
    a credential of the list by their positions; a WARN occurs only
    under version 1, for a descriptor that declares a hashlink. *)
Theorem uri_results_are_well_addressed (d : IInternalPresentationDefinition)
  (wrappedVcs : list WrappedVerifiableCredential) (nanoid : string)
  (this this' : EvaluationClient) :
  handle d wrappedVcs nanoid this = Some this' ->
  exists appended,
    results this' = results this ++ appended
    /\ Forall
         (fun e =>
            evaluator e = "UriEvaluation"
            /\ exists i j inDesc wvc,
                 nth_error (input_descriptors d) i = Some inDesc
                 /\ nth_error wrappedVcs j = Some wvc
                 /\ input_descriptor_path e = input_descriptors_path i
                 /\ verifiable_credential_path e
                    = ("$[" ++ string_of_nat j ++ "]")%string
                 /\ (status e = WARN ->
                     getVersion d = v1
                     /\ exists u, In u (map uri (schema inDesc))
                                  /\ containsHashlink u = true))
         appended.
Proof.
  intros Hrun. apply handle_returns in Hrun as [Hlog _].
  exists (appended_results d wrappedVcs). split; [exact Hlog|].
  apply Forall_forall. intros e He.
  apply appended_results_resolve in He as (i & j & inDesc & wvc & Hi & Hj & He).
  pose proof (pair_results_paths d inDesc i wvc j e He) as [Hp Hc].
  split.
  - unfold pair_results, warn_results, match_result in He.
    apply in_app_iff in He as [He|[<-|[]]].
    + destruct (getVersion d); [|destruct He].
      apply in_map_iff in He as (u & <- & _). reflexivity.
    + now destruct (match getVersion d with v1 => _ | v2 => true end).
  - exists i, j, inDesc, wvc. repeat split; try assumption.
    + unfold pair_results, warn_results in He.
      apply in_app_iff in He as [He|[<-|[]]].
      * now destruct (getVersion d).
      * rewrite match_result_status in H.
        now destruct (match getVersion d with v1 => _ | v2 => true end).
    + unfold pair_results, warn_results, descriptor_uris in He.
      apply in_app_iff in He as [He|[<-|[]]].
      * destruct (getVersion d); [|destruct He]. cbn [PEVersion_eqb negb] in He.
        apply in_map_iff in He as (u & _ & Hu). apply filter_In in Hu.
        now exists u.
      * rewrite match_result_status in H.
        now destruct (match getVersion d with v1 => _ | v2 => true end).
Qed.

Lemma uri_results_are_well_addressed_witness :
  exists appended,
    option_map results
      (handle Samples.definition_v1 Samples.wrapped_credentials "s"
              Samples.used_client)
    = Some (results Samples.used_client ++ appended)
    /\ List.length appended = 6.
Proof.
  destruct (handle Samples.definition_v1 Samples.wrapped_credentials "s"
                   Samples.used_client) as [this'|] eqn:Hrun;
    [|discriminate Hrun].
  destruct (uri_results_are_well_addressed Samples.definition_v1
              Samples.wrapped_credentials "s" Samples.used_client this' Hrun)
    as (appended & Hlog & _).
  exists appended. cbn [option_map]. rewrite Hlog. split; [reflexivity|].
  vm_compute in Hrun. injection Hrun as <-. cbn [results] in Hlog.
  injection Hlog as <-. reflexivity.
Defined.

(** X8: the two addressing strings of a result identify the pair it was
    made for: results made for different descriptors or different
    credentials differ in their paths. *)
Theorem uri_result_paths_identify_the_pair (i j i' j' : nat) :
  input_descriptor_path (createResult i j)
  = input_descriptor_path (createResult i' j') ->
  verifiable_credential_path (createResult i j)
  = verifiable_credential_path (createResult i' j') ->
  i = i' /\ j = j'.
Proof.
  cbn [createResult input_descriptor_path verifiable_credential_path].
  intros Hp Hc. split; [now apply input_descriptors_path_inj|].
  now apply credential_path_inj.
Qed.

Lemma uri_result_paths_identify_the_pair_witness : 10 = 10 /\ 3 = 3.
Proof.
  exact (uri_result_paths_identify_the_pair 10 3 10 3 eq_refl eq_refl).
Defined.

(** X9: under version 1, a descriptor that declares no schema URI is
    satisfied by no credential: the one result of each of its pairs is
    an ERROR. *)
Theorem uri_no_declared_uri_no_match (d : IInternalPresentationDefinition)
  (wrappedVcs : list WrappedVerifiableCredential) (nanoid : string)
  (this this' : EvaluationClient) (i j : nat) (inDesc : InputDescriptorV1)
  (wvc : WrappedVerifiableCredential) :
  handle d wrappedVcs nanoid this = Some this' ->
  getVersion d = v1 ->
  nth_error (input_descriptors d) i = Some inDesc ->
  schema inDesc = [] ->
  nth_error wrappedVcs j = Some wvc ->
  exists appended,
    results this' = results this ++ appended
    /\ filter (of_pair i j) appended = [createErrorResultObject wvc [] i j].
Proof.
  intros Hrun Hv Hi Hschema Hj. apply handle_returns in Hrun as [Hlog _].
  exists (appended_results d wrappedVcs). split; [exact Hlog|].
  rewrite (appended_results_of_pair d wrappedVcs (of_pair i j) i j inDesc wvc);
    auto.
  unfold pair_results, warn_results, match_result, descriptor_uris.
  rewrite Hv, Hschema. cbn [PEVersion_eqb negb map filter app].
  assert (Hno : has_match [] (extracted_uris (credential wvc)) = false).
  { unfold has_match. induction (extracted_uris (credential wvc)); auto. }
  rewrite Hno. unfold of_pair. cbn. now rewrite !String.eqb_refl.
Qed.

(** X10: the match check of a pair depends only on which URIs occur: the
    order of the declared URIs and of the extracted URIs, and how often
    each occurs, do not change the status of the match result. *)
Theorem uri_match_ignores_order (wvc : WrappedVerifiableCredential)
  (vcUris1 vcUris2 : list value) (uris1 uris2 : list string) (i j : nat)
  (version : PEVersion) (log1 log2 : list HandlerCheckResult) :
  (forall u, In u uris1 <-> In u uris2) ->
  (forall v, In v vcUris1 <-> In v vcUris2) ->
  status (last (evaluateUris wvc vcUris1 uris1 i j version log1) (createResult i j))
  = status (last (evaluateUris wvc vcUris2 uris2 i j version log2) (createResult i j)).
Proof.
  intros Hu Hv. rewrite !evaluateUris_spec, !app_assoc, !last_last.
  rewrite !match_result_status. destruct version; [|reflexivity].
  assert (Hsame : has_match uris1 vcUris1 = has_match uris2 vcUris2).
  { apply eq_true_iff_eq. rewrite !has_match_iff.
    split; intros (u & H1 & H2); exists u; split;
      try (now apply Hu); now apply Hv. }
  now rewrite Hsame.
Qed.

Lemma uri_match_ignores_order_witness :
  status (last (evaluateUris (mkWrapped Samples.degree_credential)
                  [JString "a"; JString "b"] ["b"; "c"] 0 0 v1 [])
               (createResult 0 0))
  = status (last (evaluateUris (mkWrapped Samples.degree_credential)
                    [JString "b"; JString "a"; JString "b"] ["c"; "b"; "c"] 0 0 v1 [])
                 (createResult 0 0)).
Proof.
  apply uri_match_ignores_order; intros x; simpl; tauto.
Defined.

End UriFurther.

(** ** The limit disclosure handler, further *)

Lemma forEach_unchanged {A St : Type} (body : A -> nat -> St -> option St)
  (l : list A) (s : St) :
  (forall x k, In x l -> body x k s = Some s) ->
  forall i, forEach body l i s = Some s.
Proof.
  induction l as [|x l IH]; intros H i; [reflexivity|].
  cbn [forEach]. rewrite H by now left. cbn [bind].
  apply IH. intros; apply H. now right.
Qed.

Lemma walk_cons (v : value) (seg : segment) (rest : list segment) :
  walk v (seg :: rest) = (v' <- get_member v (property_key seg) ;; walk v' rest).
Proof. reflexivity. Qed.

(** A walk stops exactly where a segment has to be read from [undefined]
    or [null]. *)
Lemma walk_throws (segs : list segment) :
  forall v,
    walk v segs = None <->
    exists pre seg post u,
      segs = pre ++ seg :: post /\ walk v pre = Some u
      /\ (u = JUndefined \/ u = JNull).
Proof.
  induction segs as [|seg segs IH]; intros v.
  - split; [discriminate|]. intros (pre & s & post & u & H & _).
    now destruct pre.
  - cbn [walk]. destruct (get_member v (property_key seg)) as [v'|] eqn:Hget.
    + cbn [bind]. rewrite IH. split.
      * intros (pre & s & post & u & -> & Hw & Hu).
        exists (seg :: pre), s, post, u. repeat split; [|exact Hu].
        cbn [walk]. now rewrite Hget.
      * intros (pre & s & post & u & Hsplit & Hw & Hu).
        destruct pre as [|seg0 pre].
        -- cbn in Hsplit, Hw. injection Hsplit as <- <-. injection Hw as <-.
           apply (proj2 (get_member_throws v (property_key seg))) in Hu.
           congruence.
        -- cbn in Hsplit. injection Hsplit as <- ->.
           cbn [walk] in Hw. rewrite Hget in Hw.
           now exists pre, s, post, u.
    + split; [intros _|reflexivity].
      exists [], seg, segs, v. repeat split.
      now apply (proj1 (get_member_throws v (property_key seg))).
Qed.

Section LimitDisclosureFurther.
Import LimitDisclosureEvaluationHandler.

Variable extractInputField : value -> list string -> list Node.

(** X11: a definition none of whose descriptors requires limited
    disclosure (no constraints, no [limit_disclosure], or one that is
    only preferred) leaves the log and the presentation as they were,
    whether or not the presentation given has a credential list. *)
Theorem ld_nothing_required_nothing_done (pd : PresentationDefinition)
  (p : VerifiablePresentation) (this : EvaluationClient) :
  (forall inDesc c, In inDesc (input_descriptors pd) ->
                    constraints inDesc = Some c ->
                    limit_disclosure c <> Some Required) ->
  handle extractInputField pd p this = Some this.
Proof.
  intros Hnone. unfold handle. apply forEach_unchanged.
  intros inDesc k Hin. unfold limit_disclosure_required.
  destruct (constraints inDesc) as [c|] eqn:Hc; [|reflexivity].
  specialize (Hnone inDesc c Hin Hc).
  destruct (limit_disclosure c) as [[|]|]; try reflexivity. congruence.
Qed.

Lemma disclosed_is_some (rest : list segment) :
  forall seg source,
    is_some (disclosed seg rest source) = is_some (walk source (seg :: rest)).
Proof.
  induction rest as [|next rest IH]; intros seg source.
  - cbn. now destruct (get_member source (property_key seg)).
  - rewrite disclosed_step, walk_cons.
    destruct (get_member source (property_key seg)) as [source'|]; [|reflexivity].
    cbn [bind]. rewrite <- (IH next source').
    now destruct (disclosed next rest source').
Qed.

Lemma copy_path_loop_is_some (segs : list segment) (source : value)
  (toSend : list (string * value)) :
  is_some (copy_path_loop segs source toSend []) = is_some (walk source segs).
Proof.
  destruct segs as [|seg rest]; [reflexivity|].
  rewrite <- disclosed_is_some.
  pose proof (copy_path_loop_disclosed rest seg source toSend []
                (JObject toSend) (addresses_here _) eq_refl) as H.
  destruct (copy_path_loop (seg :: rest) source toSend []),
           (disclosed seg rest source); try reflexivity; discriminate.
Qed.

Lemma copyResultPath_is_some (pathDetails : list segment)
  (vc toSend : list (string * value)) (idIdx vcIdx : nat)
  (rs : list HandlerCheckResult) :
  is_some (copyResultPathToDestinationCredential pathDetails vc toSend idIdx vcIdx rs)
  = is_some (walk (JObject vc) (tl pathDetails)).
Proof.
  unfold copyResultPathToDestinationCredential.
  rewrite <- (copy_path_loop_is_some _ _ toSend).
  now destruct (copy_path_loop (tl pathDetails) (JObject vc) toSend []).
Qed.

Lemma walk_app (segs1 segs2 : list segment) :
  forall v, walk v (segs1 ++ segs2) = (v' <- walk v segs1 ;; walk v' segs2).
Proof.
  induction segs1 as [|seg segs1 IH]; intros v; [reflexivity|].
  cbn [app walk]. destruct (get_member v (property_key seg)); [apply IH|reflexivity].
Qed.

(** X12: copying a path throws exactly when, on the way through the
    source, a segment has to be read from [undefined] or [null].  A
    last segment that reads as [undefined] where the source has got to,
    as a key the source lacks does, does not throw: the copy returns,
    logs its INFO result, and the object holds [undefined] at the
    path. *)
Theorem ld_copy_throws_iff (pathDetails : list segment)
  (vc toSend : list (string * value)) (idIdx vcIdx : nat)
  (rs : list HandlerCheckResult) :
  (copyResultPathToDestinationCredential pathDetails vc toSend idIdx vcIdx rs = None
   <->
   exists pre seg post u,
     tl pathDetails = pre ++ seg :: post
     /\ walk (JObject vc) pre = Some u
     /\ (u = JUndefined \/ u = JNull))
  /\ (forall marker pre last u,
        pathDetails = marker :: pre ++ [last] ->
        walk (JObject vc) pre = Some u ->
        get_member u (property_key last) = Some JUndefined ->
        exists out,
          copyResultPathToDestinationCredential pathDetails vc toSend idIdx vcIdx rs
          = Some (out, rs ++ [success_result idIdx vcIdx pathDetails])
          /\ walk (JObject out) (pre ++ [last]) = Some JUndefined).
Proof.
  split.
  - rewrite <- walk_throws.
    pose proof (copyResultPath_is_some pathDetails vc toSend idIdx vcIdx rs) as H.
    destruct (copyResultPathToDestinationCredential _ _ _ _ _ _),
             (walk (JObject vc) (tl pathDetails)); simpl in H; split; congruence.
  - intros marker pre last u -> Hpre Hlast.
    assert (Hwalk : walk (JObject vc) (pre ++ [last]) = Some JUndefined).
    { rewrite walk_app, Hpre. cbn [bind]. rewrite walk_cons, Hlast. reflexivity. }
    destruct (pre ++ [last]) as [|seg rest] eqn:Hsegs;
      [now destruct pre|].
    destruct (copyResultPath_spec marker seg rest vc toSend idIdx vcIdx rs
                JUndefined Hwalk) as (d & _ & Hd & Hcopy).
    eexists. split; [exact Hcopy|].
    rewrite walk_cons. cbn [get_member]. unfold field.
    rewrite lookup_assign_same. exact Hd.
Qed.

Lemma determineNecessaryPaths_is_some (fields : list Field)
  (vc toSend : list (string * value)) (idIdx vcIdx : nat)
  (rs : list HandlerCheckResult) :
  is_some (determineNecessaryPaths extractInputField vc toSend fields idIdx vcIdx rs)
  = forallb (field_walks extractInputField vc) fields.
Proof.
  unfold determineNecessaryPaths. apply forEach_is_some.
  intros f k [toSend' rs']. unfold field_walks.
  destruct (extractInputField (JObject vc) (path f)) as [|first others];
    [reflexivity|apply copyResultPath_is_some].
Qed.

Lemma enforce_on_credential_is_some (fields : list Field) (idIdx : nat)
  (inputDescriptorId : string) (vc : list (string * value)) (i : nat)
  (this : EvaluationClient) :
  is_some (enforce_on_credential extractInputField fields idIdx inputDescriptorId
                                 vc i this)
  = forallb (field_walks extractInputField vc) fields.
Proof.
  rewrite <- (determineNecessaryPaths_is_some fields vc
                (fst (copyMandatoryFieldsAndDeletePredefinedKeys vc [] (map fst vc)))
                idIdx i (results this)).
  unfold enforce_on_credential.
  destruct (copyMandatoryFieldsAndDeletePredefinedKeys vc [] (map fst vc))
    as [toSend keys]. cbn [fst].
  destruct (determineNecessaryPaths _ _ _ _ _ _ _) as [[out rs]|]; [|reflexivity].
  cbn [bind]. now destruct (existing_descriptor_map _).
Qed.

Lemma ld_handle_completes_iff_aux (pd : PresentationDefinition)
  (p : VerifiablePresentation) (this : EvaluationClient) :
  is_some (handle extractInputField pd p this)
  = disclosure_completes extractInputField pd p.
Proof.
  unfold handle, disclosure_completes. apply forEach_is_some.
  intros inDesc i this0.
  destruct (limit_disclosure_required inDesc) as [c|]; [|reflexivity].
  unfold limitDisclosureShouldBeEnforced.
  destruct (verifiableCredential p) as [credentials|]; [|reflexivity].
  cbn [bind]. apply forEach_is_some. intros vc j this1.
  apply enforce_on_credential_is_some.
Qed.

(** X13: [handle] runs to its end exactly when, for every descriptor
    that requires limited disclosure, the presentation given has a
    credential list and every path the resolver reports first for a
    field leads to a value of its credential; otherwise it throws.  In
    particular it throws on a presentation without credential list as
    soon as one descriptor requires limited disclosure. *)
Theorem ld_handle_completes_iff (pd : PresentationDefinition)
  (p : VerifiablePresentation) (this : EvaluationClient) :
  is_some (handle extractInputField pd p this)
  = disclosure_completes extractInputField pd p
  /\ (verifiableCredential p = None ->
      (exists inDesc c, In inDesc (input_descriptors pd)
                        /\ constraints inDesc = Some c
                        /\ limit_disclosure c = Some Required) ->
      handle extractInputField pd p this = None).
Proof.
  split; [apply ld_handle_completes_iff_aux|].
  intros Hp (inDesc & c & Hin & Hc & Hl).
  pose proof (ld_handle_completes_iff_aux pd p this) as H.
  assert (Hbad : disclosure_completes extractInputField pd p = false).
  { unfold disclosure_completes.
    destruct (forallb _ (input_descriptors pd)) eqn:Hall; [|reflexivity].
    rewrite forallb_forall in Hall. specialize (Hall inDesc Hin).
    unfold limit_disclosure_required in Hall. now rewrite Hc, Hl, Hp in Hall. }
  rewrite Hbad in H. now destruct (handle extractInputField pd p this).
Qed.

Lemma has_key_assign_inv (key key' : string) (v : value)
  (props : list (string * value)) :
  has_key key' (assign key v props) = true ->
  key' = key \/ has_key key' props = true.
Proof.
  unfold has_key. destruct (String.eqb key' key) eqn:E.
  - apply String.eqb_eq in E. now left.
  - apply String.eqb_neq in E. rewrite lookup_assign_other by exact E. now right.
Qed.

Lemma determineNecessaryPaths_keys (fields : list Field) :
  forall (vc toSend out : list (string * value)) (idIdx vcIdx : nat)
         (rs rs' : list HandlerCheckResult) (key : string),
    determineNecessaryPaths extractInputField vc toSend fields idIdx vcIdx rs
    = Some (out, rs') ->
    has_key key out = true ->
    has_key key toSend = true
    \/ exists f first others marker seg rest,
         In f fields
         /\ extractInputField (JObject vc) (path f) = first :: others
         /\ node_path first = marker :: seg :: rest
         /\ key = property_key seg.
Proof.
  induction fields as [|f fs IH]; intros vc toSend out idIdx vcIdx rs rs' key.
  - intros [= <- _] Hkey. now left.
  - rewrite determineNecessaryPaths_cons.
    destruct (extractInputField (JObject vc) (path f)) as [|first others] eqn:Hf.
    + cbn [bind]. intros Hrest Hkey.
      destruct (IH _ _ _ _ _ _ _ _ Hrest Hkey)
        as [H|(f' & a & b & c & d & e & Hin & H)]; [now left|].
      right. exists f', a, b, c, d, e. split; [now right|exact H].
    + unfold copyResultPathToDestinationCredential.
      destruct (copy_path_loop _ _ toSend []) as [mid|] eqn:Hloop; [|discriminate].
      cbn [bind]. intros Hrest Hkey.
      destruct (IH _ _ _ _ _ _ _ _ Hrest Hkey)
        as [H|(f' & a & b & c & d & e & Hin & H)].
      * apply copy_path_loop_result in Hloop
          as [[_ ->]|(seg & rest & d & Hsegs & _ & ->)]; [now left|].
        apply has_key_assign_inv in H as [-> |H]; [|now left].
        right. destruct (node_path first) as [|marker segs] eqn:Hpath;
          [discriminate|]. cbn [tl] in Hsegs. subst segs.
        exists f, first, others, marker, seg, rest.
        split; [now left|]. now repeat split.
      * right. exists f', a, b, c, d, e. split; [now right|exact H].
Qed.

(** X14: the object built for a credential discloses nothing that was
    not asked for: each of its keys is one of the five mandatory keys
    or the key of the first segment of the path found first for a field
    of the descriptor. *)
Theorem ld_discloses_only_what_is_asked (vc : list (string * value))
  (fields : list Field) (idIdx vcIdx : nat) (rs rs' : list HandlerCheckResult)
  (out : list (string * value)) (key : string) :
  determineNecessaryPaths extractInputField vc
    (fst (copyMandatoryFieldsAndDeletePredefinedKeys vc [] (map fst vc)))
    fields idIdx vcIdx rs = Some (out, rs') ->
  has_key key out = true ->
  In key mandatoryFields
  \/ exists f first others marker seg rest,
       In f fields
       /\ extractInputField (JObject vc) (path f) = first :: others
       /\ node_path first = marker :: seg :: rest
       /\ key = property_key seg.
Proof.
  intros Hrun Hkey.
  destruct (determineNecessaryPaths_keys _ _ _ _ _ _ _ _ _ Hrun Hkey) as [H|H];
    [left|now right].
  rewrite copyMandatoryFields_result in H. unfold has_key in H.
  cbn [map mandatoryFields lookup] in H.
  repeat match type of H with
         | context [String.eqb key ?k] =>
             let E := fresh "E" in
             destruct (String.eqb key k) eqn:E;
             [apply String.eqb_eq in E; subst key; simpl; tauto|]
         end.
  discriminate.
Qed.

Lemma disclosed_string_keys (keys : list string) :
  forall key source leaf,
    walk source (map SKey (key :: keys)) = Some leaf ->
    disclosed (SKey key) (map SKey keys) source = Some (nest keys leaf).
Proof.
  induction keys as [|key' keys IH]; intros key source leaf Hwalk.
  - cbn in *. now destruct (get_member source key) as [v|]; [injection Hwalk as ->|].
  - cbn [map] in *. rewrite disclosed_step. rewrite walk_cons in Hwalk.
    cbn [property_key] in *.
    destruct (get_member source key) as [source'|]; [|discriminate].
    cbn [bind] in *. now rewrite (IH key' source' leaf Hwalk).
Qed.

(** X15: for a path of string keys only, what is put under the first
    key is the chain of objects with one key each that leads down the
    rest of the path to the value the source has there: nothing else of
    the source comes along. *)
Theorem ld_string_path_is_a_chain (marker : segment) (key : string)
  (keys : list string) (vc toSend : list (string * value)) (idIdx vcIdx : nat)
  (rs : list HandlerCheckResult) (leaf : value) :
  walk (JObject vc) (map SKey (key :: keys)) = Some leaf ->
  copyResultPathToDestinationCredential (marker :: map SKey (key :: keys)) vc
    toSend idIdx vcIdx rs
  = Some (assign key (nest keys leaf) toSend,
          rs ++ [success_result idIdx vcIdx (marker :: map SKey (key :: keys))]).
Proof.
  intros Hwalk. cbn [map] in *.
  destruct (copyResultPath_spec marker (SKey key) (map SKey keys) vc toSend
              idIdx vcIdx rs leaf Hwalk) as (d & Hd & _ & Hcopy).
  rewrite (disclosed_string_keys keys key _ leaf Hwalk) in Hd.
  injection Hd as <-. exact Hcopy.
Qed.

(** X16: two paths with the same first key do not add up: the second
    copy puts its own chain under the key in place of what the first
    copy had put there, so the object is the one the second path alone
    gives; the log keeps the INFO results of both. *)
Theorem ld_later_path_replaces_earlier (marker1 seg1 marker2 seg2 : segment)
  (rest1 rest2 : list segment) (vc toSend : list (string * value))
  (idIdx vcIdx : nat) (rs : list HandlerCheckResult) (leaf1 leaf2 : value) :
  property_key seg1 = property_key seg2 ->
  walk (JObject vc) (seg1 :: rest1) = Some leaf1 ->
  walk (JObject vc) (seg2 :: rest2) = Some leaf2 ->
  exists out1 out2,
    copyResultPathToDestinationCredential (marker1 :: seg1 :: rest1) vc toSend
      idIdx vcIdx rs
    = Some (out1, rs ++ [success_result idIdx vcIdx (marker1 :: seg1 :: rest1)])
    /\ copyResultPathToDestinationCredential (marker2 :: seg2 :: rest2) vc out1
         idIdx vcIdx (rs ++ [success_result idIdx vcIdx (marker1 :: seg1 :: rest1)])
       = Some (out2,
               rs ++ [success_result idIdx vcIdx (marker1 :: seg1 :: rest1);
                      success_result idIdx vcIdx (marker2 :: seg2 :: rest2)])
    /\ option_map fst
         (copyResultPathToDestinationCredential (marker2 :: seg2 :: rest2) vc
            toSend idIdx vcIdx rs)
       = Some out2.
Proof.
  intros Hkey H1 H2.
  destruct (copyResultPath_spec marker1 seg1 rest1 vc toSend idIdx vcIdx rs leaf1 H1)
    as (d1 & _ & _ & Hc1).
  destruct (copyResultPath_spec marker2 seg2 rest2 vc
              (assign (property_key seg1) d1 toSend) idIdx vcIdx
              (rs ++ [success_result idIdx vcIdx (marker1 :: seg1 :: rest1)])
              leaf2 H2) as (d2 & Hd2 & _ & Hc2).
  destruct (copyResultPath_spec marker2 seg2 rest2 vc toSend idIdx vcIdx rs leaf2 H2)
    as (d2' & Hd2' & _ & Hc2').
  rewrite Hd2 in Hd2'. injection Hd2' as <-.
  eexists _, _. split; [exact Hc1|]. split.
  - rewrite Hc2, <- app_assoc. reflexivity.
  - rewrite Hc2'. cbn [option_map fst]. now rewrite Hkey, assign_assign.
Qed.

(** X17: two paths with different first keys leave each other alone:
    after both copies, the object has at either path the value the
    source has there. *)
Theorem ld_paths_with_different_keys_coexist (marker1 seg1 marker2 seg2 : segment)
  (rest1 rest2 : list segment) (vc toSend : list (string * value))
  (idIdx vcIdx : nat) (rs : list HandlerCheckResult) (leaf1 leaf2 : value) :
  property_key seg1 <> property_key seg2 ->
  walk (JObject vc) (seg1 :: rest1) = Some leaf1 ->
  walk (JObject vc) (seg2 :: rest2) = Some leaf2 ->
  exists out1 rs1 out2 rs2,
    copyResultPathToDestinationCredential (marker1 :: seg1 :: rest1) vc toSend
      idIdx vcIdx rs = Some (out1, rs1)
    /\ copyResultPathToDestinationCredential (marker2 :: seg2 :: rest2) vc out1
         idIdx vcIdx rs1 = Some (out2, rs2)
    /\ walk (JObject out2) (seg1 :: rest1) = Some leaf1
    /\ walk (JObject out2) (seg2 :: rest2) = Some leaf2.
Proof.
  intros Hkey H1 H2.
  destruct (copyResultPath_spec marker1 seg1 rest1 vc toSend idIdx vcIdx rs leaf1 H1)
    as (d1 & _ & Hl1 & Hc1).
  destruct (copyResultPath_spec marker2 seg2 rest2 vc
              (assign (property_key seg1) d1 toSend) idIdx vcIdx
              (rs ++ [success_result idIdx vcIdx (marker1 :: seg1 :: rest1)])
              leaf2 H2) as (d2 & _ & Hl2 & Hc2).
  eexists _, _, _, _. split; [exact Hc1|]. split; [exact Hc2|].
  rewrite !walk_cons. cbn [get_member]. unfold field.
  rewrite lookup_assign_other by exact Hkey.
  rewrite !lookup_assign_same. cbn [bind]. now split.
Qed.

(** X18: as long as the presentation under construction has no
    submission with a descriptor map, a run does not touch it: the
    objects built for the credentials are not kept anywhere. *)
Theorem ld_without_submission_nothing_is_kept (pd : PresentationDefinition)
  (p : VerifiablePresentation) (this this' : EvaluationClient) :
  existing_descriptor_map this = None ->
  handle extractInputField pd p this = Some this' ->
  verifiablePresentation this' = verifiablePresentation this.
Proof.
  intros Hnone Hrun.
  set (R := fun s s' : EvaluationClient =>
              existing_descriptor_map s = None ->
              verifiablePresentation s' = verifiablePresentation s).
  assert (Hrefl : forall s, R s s) by (intros s _; reflexivity).
  assert (Htrans : forall s1 s2 s3, R s1 s2 -> R s2 s3 -> R s1 s3).
  { intros s1 s2 s3 H12 H23 H1. specialize (H12 H1).
    rewrite <- H12. apply H23. unfold existing_descriptor_map in *.
    now rewrite H12. }
  revert Hnone. change (R this this'). revert Hrun. unfold handle.
  apply (forEach_invariant R); auto.
  intros inDesc i s s'.
  destruct (limit_disclosure_required inDesc) as [c|]; [|intros [= <-]; apply Hrefl].
  unfold limitDisclosureShouldBeEnforced.
  destruct (verifiableCredential p) as [credentials|]; [|discriminate]. cbn [bind].
  apply (forEach_invariant R); auto.
  intros vc j t t' Hturn Ht. unfold enforce_on_credential in Hturn.
  destruct (copyMandatoryFieldsAndDeletePredefinedKeys vc [] (map fst vc))
    as [toSend keys].
  destruct (determineNecessaryPaths _ _ _ _ _ _ _) as [[out rs]|]; [|discriminate].
  cbn [bind] in Hturn.
  change (existing_descriptor_map (with_results t rs))
    with (existing_descriptor_map t) in Hturn.
  rewrite Ht in Hturn. now injection Hturn as <-.
Qed.

Lemma limit_disclosure_required_inv (inDesc : InputDescriptor) (c : Constraints) :
  limit_disclosure_required inDesc = Some c ->
  constraints inDesc = Some c /\ limit_disclosure c = Some Required.
Proof.
  unfold limit_disclosure_required.
  destruct (constraints inDesc) as [c'|]; [|discriminate].
  destruct (limit_disclosure c') as [[|]|] eqn:Hl; try discriminate.
  intros [= <-]. now split.
Qed.

(** The log of a run that returns. *)
Lemma ld_handle_log (pd : PresentationDefinition) (p : VerifiablePresentation)
  (this this' : EvaluationClient) :
  handle extractInputField pd p this = Some this' ->
  results this'
  = results this ++ expected_results extractInputField pd (candidates p).
Proof.
  intros Hrun.
  assert (Hok : disclosure_completes extractInputField pd p = true).
  { rewrite <- (ld_handle_completes_iff_aux pd p this). now rewrite Hrun. }
  unfold disclosure_completes in Hok. rewrite forallb_forall in Hok.
  destruct (forEach_logs results
              (fun inDesc i this0 =>
                 match limit_disclosure_required inDesc with
                 | Some c =>
                     limitDisclosureShouldBeEnforced extractInputField p (fields c) i
                       (id inDesc) this0
                 | None => Some this0
                 end)
              (fun inDesc i =>
                 match limit_disclosure_required inDesc with
                 | Some c =>
                     flat_mapi (fun vc j => map (field_result extractInputField vc i j)
                                                (fields c))
                               (candidates p) 0
                 | None => []
                 end)
              (input_descriptors pd)) with (i := 0) (s := this)
    as (this'' & Hrun' & Hlog).
  { intros inDesc i this0 Hin. specialize (Hok inDesc Hin).
    destruct (limit_disclosure_required inDesc) as [c|].
    - unfold limitDisclosureShouldBeEnforced, candidates.
      destruct (verifiableCredential p) as [credentials|]; [|discriminate].
      cbn [bind]. apply forEach_logs. intros vc j this1 Hvc.
      apply enforce_on_credential_logs.
      rewrite forallb_forall in Hok. now apply Hok.
    - exists this0. now rewrite app_nil_r. }
  unfold handle in Hrun. rewrite Hrun' in Hrun. now injection Hrun as <-.
Qed.

Lemma descriptor_map_of_submission (t t' : EvaluationClient) :
  presentationSubmission (verifiablePresentation t')
  = presentationSubmission (verifiablePresentation t) ->
  existing_descriptor_map t' = existing_descriptor_map t.
Proof. unfold existing_descriptor_map. now intros ->. Qed.

Lemma enforce_on_credential_appends (fields0 : list Field) (idIdx : nat)
  (inputDescriptorId : string) (vc : list (string * value)) (j : nat)
  (t t' : EvaluationClient) (descriptors : list Descriptor) :
  enforce_on_credential extractInputField fields0 idIdx inputDescriptorId vc j t
  = Some t' ->
  existing_descriptor_map t = Some descriptors ->
  presentationSubmission (verifiablePresentation t')
  = presentationSubmission (verifiablePresentation t)
  /\ exists out,
       credentials_of t'
       = credentials_of t
         ++ repeat out
              (List.length (filter (names_descriptor inputDescriptorId) descriptors))
       /\ has_mandatory_keys out = true.
Proof.
  intros Hturn Hmap.
  assert (Hbuilt : exists out rs,
            determineNecessaryPaths extractInputField vc
              (fst (copyMandatoryFieldsAndDeletePredefinedKeys vc [] (map fst vc)))
              fields0 idIdx j (results t) = Some (out, rs)).
  { unfold enforce_on_credential in Hturn.
    destruct (copyMandatoryFieldsAndDeletePredefinedKeys vc [] (map fst vc))
      as [toSend keys].
    cbn [fst].
    destruct (determineNecessaryPaths _ _ _ _ _ _ _) as [[out rs]|];
      [eauto|discriminate]. }
  destruct Hbuilt as (out & rs & Hbuilt).
  rewrite (enforce_on_credential_built extractInputField fields0 idIdx
             inputDescriptorId vc j t out rs Hbuilt), Hmap in Hturn.
  injection Hturn as <-. split; [reflexivity|].
  exists out. split; [reflexivity|].
  unfold has_mandatory_keys. apply forallb_forall. intros key Hin.
  eapply determineNecessaryPaths_keeps_keys; [exact Hbuilt|].
  rewrite copyMandatoryFields_result. cbn in Hin.
  repeat (destruct Hin as [<-|Hin]; [reflexivity|]). destruct Hin.
Qed.

Lemma credentials_loop_appends (fields0 : list Field) (idIdx : nat)
  (inputDescriptorId : string) (descriptors : list Descriptor)
  (credentials : list (list (string * value))) :
  forall (j : nat) (t t' : EvaluationClient),
    forEach (enforce_on_credential extractInputField fields0 idIdx inputDescriptorId)
            credentials j t = Some t' ->
    existing_descriptor_map t = Some descriptors ->
    presentationSubmission (verifiablePresentation t')
    = presentationSubmission (verifiablePresentation t)
    /\ exists added,
         credentials_of t' = credentials_of t ++ added
         /\ List.length added
            = List.length credentials
              * List.length (filter (names_descriptor inputDescriptorId) descriptors)
         /\ forallb has_mandatory_keys added = true.
Proof.
  induction credentials as [|vc credentials IH]; intros j t t'; simpl.
  - intros [= <-] Hmap. split; [reflexivity|]. exists [].
    now rewrite app_nil_r.
  - destruct (enforce_on_credential _ _ _ _ vc j t) as [t1|] eqn:Hturn;
      [|discriminate].
    cbn [bind]. intros Hrest Hmap.
    destruct (enforce_on_credential_appends _ _ _ _ _ _ _ _ Hturn Hmap)
      as (Hsub1 & out & Hout & Hkeys).
    assert (Hmap1 : existing_descriptor_map t1 = Some descriptors)
      by now rewrite (descriptor_map_of_submission _ _ Hsub1).
    destruct (IH _ _ _ Hrest Hmap1) as (Hsub & added & Hadded & Hlen & Hall).
    split; [now rewrite Hsub|].
    exists (repeat out (List.length (filter (names_descriptor inputDescriptorId)
                                            descriptors)) ++ added).
    split; [|split].
    + now rewrite Hadded, Hout, <- app_assoc.
    + rewrite length_app, repeat_length, Hlen. reflexivity.
    + rewrite forallb_app, Hall, Bool.andb_true_r.
      apply forallb_forall. intros c Hc.
      apply repeat_spec in Hc. now subst c.
Qed.

(** X19: a run that returns, on a presentation under construction whose
    submission has a descriptor map, keeps the submission, keeps the
    credentials that were there, and appends, for each descriptor that
    requires limited disclosure, one object for each credential and each
    entry of the map named after the descriptor; every object appended
    has the five mandatory keys. *)
Theorem ld_run_appends_disclosed_credentials (pd : PresentationDefinition)
  (p : VerifiablePresentation) (this this' : EvaluationClient)
  (descriptors : list Descriptor) :
  handle extractInputField pd p this = Some this' ->
  existing_descriptor_map this = Some descriptors ->
  presentationSubmission (verifiablePresentation this')
  = presentationSubmission (verifiablePresentation this)
  /\ exists added,
       credentials_of this' = credentials_of this ++ added
       /\ List.length added = appended_count pd p descriptors
       /\ forallb has_mandatory_keys added = true.
Proof.
  unfold handle, appended_count.
  generalize 0 at 1. revert this this'.
  induction (input_descriptors pd) as [|inDesc descs IH]; intros this this' i; simpl.
  - intros [= <-] Hmap. split; [reflexivity|]. exists [].
    now rewrite app_nil_r.
  - destruct (limit_disclosure_required inDesc) as [c|].
    + destruct (limitDisclosureShouldBeEnforced _ p _ _ _ this) as [t1|] eqn:Hinner;
        [|discriminate].
      cbn [bind]. intros Hrest Hmap.
      unfold limitDisclosureShouldBeEnforced in Hinner.
      destruct (verifiableCredential p) as [credentials|] eqn:Hp; [|discriminate].
      assert (Hcand : candidates p = credentials)
        by (unfold candidates; now rewrite Hp).
      cbn [bind] in Hinner.
      destruct (credentials_loop_appends _ _ _ _ _ _ _ _ Hinner Hmap)
        as (Hsub1 & added1 & Hadded1 & Hlen1 & Hall1).
      assert (Hmap1 : existing_descriptor_map t1 = Some descriptors)
        by now rewrite (descriptor_map_of_submission _ _ Hsub1).
      destruct (IH t1 this' (S i) Hrest Hmap1) as (Hsub & added & Hadded & Hlen & Hall).
      split; [now rewrite Hsub|].
      exists (added1 ++ added). split; [|split].
      * now rewrite Hadded, Hadded1, <- app_assoc.
      * now rewrite length_app, Hlen1, Hlen, Hcand.
      * now rewrite forallb_app, Hall1, Hall.
    + cbn [bind]. intros Hrest Hmap.
      destruct (IH this this' (S i) Hrest Hmap) as (Hsub & added & Hadded & Hlen & Hall).
      split; [exact Hsub|]. exists added. now repeat split.
Qed.

Lemma length_array_set_nil (n : nat) (v : value) :
  List.length (array_set n v []) = S n.
Proof. induction n as [|n IH]; [reflexivity|]. cbn. now rewrite IH. Qed.

Lemma nth_array_set_nil_before (n : nat) (v : value) :
  forall m, m < n -> nth m (array_set n v []) JUndefined = JUndefined.
Proof.
  induction n as [|n IH]; intros m Hm; [lia|].
  destruct m as [|m]; [reflexivity|]. cbn. apply IH. lia.
Qed.

(** X20: a path that goes from a string key to a list position gives a
    list under that key, long enough to hold the position: the value
    disclosed sits at the position the source has it at; when that
    position is not the first, the first element is the empty object
    the list was made with and the elements in between are empty
    slots. *)
Theorem ld_list_element_keeps_its_position (marker : segment) (key : string)
  (n : nat) (rest : list segment) (vc toSend : list (string * value))
  (idIdx vcIdx : nat) (rs : list HandlerCheckResult) (leaf : value) :
  walk (JObject vc) (SKey key :: SIdx n :: rest) = Some leaf ->
  exists out l,
    copyResultPathToDestinationCredential (marker :: SKey key :: SIdx n :: rest)
      vc toSend idIdx vcIdx rs
    = Some (out,
            rs ++ [success_result idIdx vcIdx (marker :: SKey key :: SIdx n :: rest)])
    /\ lookup key out = Some (JArray l)
    /\ List.length l = S n
    /\ walk (nth n l JUndefined) rest = Some leaf
    /\ (0 < n -> nth 0 l JUndefined = JObject [])
    /\ (forall m, 0 < m < n -> nth m l JUndefined = JUndefined).
Proof.
  intros Hwalk.
  destruct (copyResultPath_spec marker (SKey key) (SIdx n :: rest) vc toSend
              idIdx vcIdx rs leaf Hwalk) as (d & Hd & _ & Hcopy).
  rewrite disclosed_step in Hd. rewrite walk_cons in Hwalk.
  destruct (get_member (JObject vc) (property_key (SKey key))) as [source'|];
    [|discriminate].
  cbn [bind] in Hd, Hwalk.
  destruct (disclosed_total rest (SIdx n) source' leaf Hwalk) as (sub & Hsub & Hleaf).
  rewrite Hsub in Hd. cbn [bind] in Hd.
  unfold intermediate_container in Hd. cbn [is_string_segment andb negb] in Hd.
  cbn [property_key set_member] in Hd.
  rewrite array_index_string_of_nat in Hd. injection Hd as <-.
  exists (assign key (JArray (array_set n sub [JObject []])) toSend),
         (array_set n sub [JObject []]).
  split; [exact Hcopy|]. split; [apply lookup_assign_same|].
  split; [|split; [|split]].
  - destruct n as [|n]; [reflexivity|]. cbn. now rewrite length_array_set_nil.
  - now rewrite nth_array_set.
  - intros Hn. destruct n as [|n]; [lia|]. reflexivity.
  - intros m Hm. destruct n as [|n]; [lia|]. destruct m as [|m]; [lia|].
    cbn. apply nth_array_set_nil_before. lia.
Qed.

Lemma filter_absent (key : string) (keys : list string) :
  ~ In key keys -> filter (fun k => negb (String.eqb k key)) keys = keys.
Proof.
  induction keys as [|k keys IH]; intros Hin; [reflexivity|]. cbn.
  destruct (String.eqb_spec k key) as [->|_]; [exfalso; apply Hin; now left|].
  cbn. rewrite IH; [reflexivity|]. intros H. apply Hin. now right.
Qed.

Lemma remove_first_filter (key : string) (keys : list string) :
  NoDup keys ->
  remove_first key keys = filter (fun k => negb (String.eqb k key)) keys.
Proof.
  induction 1 as [|k keys Hk Hnd IH]; [reflexivity|]. cbn.
  destruct (String.eqb_spec key k) as [->|Hne].
  - rewrite String.eqb_refl. cbn. now rewrite filter_absent.
  - destruct (String.eqb_spec k key) as [->|_]; [contradiction|].
    cbn. now rewrite IH.
Qed.

Lemma mandatory_loop (vc : list (string * value)) (names : list string) :
  forall (toSend : list (string * value)) (keys : list string),
    NoDup keys ->
    let out :=
      fold_left
        (fun '(toSend0, keys0) mandatory =>
           (assign mandatory (field vc mandatory) toSend0,
            remove_first mandatory keys0))
        names (toSend, keys) in
    snd out = filter (fun k => negb (existsb (String.eqb k) names)) keys
    /\ forall key,
         lookup key (fst out)
         = if existsb (String.eqb key) names then Some (field vc key)
           else lookup key toSend.
Proof.
  induction names as [|name names IH]; intros toSend keys Hnd; cbn [fold_left].
  - cbn. split; [|reflexivity]. induction keys; cbn; [reflexivity|].
    f_equal. apply IHkeys. now inversion Hnd.
  - assert (Hnd' : NoDup (remove_first name keys)).
    { rewrite remove_first_filter by exact Hnd. now apply NoDup_filter. }
    destruct (IH (assign name (field vc name) toSend) (remove_first name keys) Hnd')
      as (Hkeys & Hlookup).
    cbv zeta. split.
    + rewrite Hkeys, remove_first_filter by exact Hnd. clear.
      induction keys as [|k keys IHk]; [reflexivity|]. cbn.
      destruct (String.eqb k name); cbn; [exact IHk|].
      destruct (existsb (String.eqb k) names); cbn; [exact IHk|].
      now rewrite IHk.
    + intros key. rewrite Hlookup. cbn [existsb].
      destruct (String.eqb_spec key name) as [->|Hne]; cbn.
      * destruct (existsb (String.eqb name) names); [reflexivity|].
        apply lookup_assign_same.
      * destruct (existsb (String.eqb key) names); [reflexivity|].
        now apply lookup_assign_other.
Qed.

(** X21: [copyMandatoryFieldsAndDeletePredefinedKeys], on any object
    under construction and any list of distinct keys: it returns the
    keys that are not mandatory, in their order, and leaves the object
    with the five mandatory keys set to what the credential has there
    and every other key as it was. *)
Theorem ld_mandatory_keys_are_taken_out (vc toSend : list (string * value))
  (keys : list string) :
  NoDup keys ->
  snd (copyMandatoryFieldsAndDeletePredefinedKeys vc toSend keys)
  = filter (fun k => negb (is_mandatory k)) keys
  /\ forall key,
       lookup key (fst (copyMandatoryFieldsAndDeletePredefinedKeys vc toSend keys))
       = if is_mandatory key then Some (field vc key) else lookup key toSend.
Proof.
  intros Hnd. exact (mandatory_loop vc mandatoryFields toSend keys Hnd).
Qed.

(** X22: everything a run adds to the log is a result of this handler,
    [INFO] or [ERROR] and never [WARN], and it names a descriptor of
    the definition that requires limited disclosure and a credential of
    the presentation by their positions. *)
Theorem ld_results_are_well_addressed (pd : PresentationDefinition)
  (p : VerifiablePresentation) (this this' : EvaluationClient) :
  handle extractInputField pd p this = Some this' ->
  exists new,
    results this' = results this ++ new
    /\ forall r, In r new ->
         evaluator r = "LimitDisclosureEvaluation"
         /\ (status r = INFO \/ status r = ERROR)
         /\ exists i j inDesc c vc,
              nth_error (input_descriptors pd) i = Some inDesc
              /\ constraints inDesc = Some c
              /\ limit_disclosure c = Some Required
              /\ nth_error (candidates p) j = Some vc
              /\ input_descriptor_path r = input_descriptors_path i
              /\ verifiable_credential_path r = verifiableCredential_path j.
Proof.
  intros Hrun. exists (expected_results extractInputField pd (candidates p)).
  split; [now apply ld_handle_log|].
  intros r Hr. unfold expected_results in Hr.
  apply in_flat_mapi in Hr. destruct Hr as (inDesc & i & Hi & Hr).
  destruct (limit_disclosure_required inDesc) as [c|] eqn:Hreq; [|destruct Hr].
  apply limit_disclosure_required_inv in Hreq. destruct Hreq as (Hc & Hl).
  apply in_flat_mapi in Hr. destruct Hr as (vc & j & Hj & Hr).
  apply in_map_iff in Hr. destruct Hr as (f & <- & _).
  unfold field_result.
  destruct (extractInputField (JObject vc) (path f)) as [|first others].
  - split; [reflexivity|]. split; [now right|].
    exists i, j, inDesc, c, vc. now repeat split.
  - split; [reflexivity|]. split; [now left|].
    exists i, j, inDesc, c, vc. now repeat split.
Qed.

End LimitDisclosureFurther.

(** ** The properties above on the sample data *)

Section FurtherExamples.
Import LimitDisclosureEvaluationHandler.

Lemma containsHashlink_needs_hl_witness :
  exists before after,
    "https://www.example.com/schema?hl=zQmWvQxTqbG2Z9HPJgG57jjwR154cKhbtJenbyYTWkjgF3e"
    = (before ++ "hl:" ++ after)%string
    \/ "https://www.example.com/schema?hl=zQmWvQxTqbG2Z9HPJgG57jjwR154cKhbtJenbyYTWkjgF3e"
       = (before ++ "hl=" ++ after)%string.
Proof.
  apply containsHashlink_needs_hl. vm_compute. reflexivity.
Defined.

Lemma uri_no_declared_uri_no_match_witness :
  exists appended,
    option_map UriEvaluationHandler.results
      (UriEvaluationHandler.handle FurtherSamples.definition_without_schema
         Samples.wrapped_credentials "s" Samples.fresh_client)
    = Some appended
    /\ filter (UriEvaluationHandler.of_pair 0 1) appended
       = [UriEvaluationHandler.createErrorResultObject
            (UriEvaluationHandler.mkWrapped Samples.bare_credential) [] 0 1].
Proof.
  destruct (UriEvaluationHandler.handle FurtherSamples.definition_without_schema
              Samples.wrapped_credentials "s" Samples.fresh_client)
    as [this'|] eqn:Hrun; [|vm_compute in Hrun; discriminate Hrun].
  destruct (uri_no_declared_uri_no_match FurtherSamples.definition_without_schema
              Samples.wrapped_credentials "s" Samples.fresh_client this' 0 1
              (UriEvaluationHandler.mkInputDescriptor "anything" [])
              (UriEvaluationHandler.mkWrapped Samples.bare_credential)
              Hrun eq_refl eq_refl eq_refl eq_refl)
    as (appended & Hlog & Hpair).
  exists appended. cbn [option_map]. rewrite Hlog. now split.
Defined.

Lemma ld_nothing_required_nothing_done_witness :
  handle Samples.extractInputField FurtherSamples.preferred_definition
         FurtherSamples.empty_presentation Samples.disclosure_client
  = Some Samples.disclosure_client.
Proof.
  apply ld_nothing_required_nothing_done.
  intros inDesc c [<-|[<-|[]]]; [|discriminate].
  intros [= <-]. discriminate.
Defined.

Lemma ld_discloses_only_what_is_asked_witness :
  In "credentialSubject" mandatoryFields
  \/ exists f first others marker seg rest,
       In f [Samples.degree_type_field]
       /\ Samples.extractInputField (JObject Samples.degree_credential) (path f)
          = first :: others
       /\ node_path first = marker :: seg :: rest
       /\ "credentialSubject" = property_key seg.
Proof.
  destruct (determineNecessaryPaths Samples.extractInputField
              Samples.degree_credential
              (fst (copyMandatoryFieldsAndDeletePredefinedKeys
                      Samples.degree_credential []
                      (map fst Samples.degree_credential)))
              [Samples.degree_type_field] 0 0 [])
    as [[out rs']|] eqn:Hbuilt; [|vm_compute in Hbuilt; discriminate Hbuilt].
  apply (ld_discloses_only_what_is_asked Samples.extractInputField
           Samples.degree_credential [Samples.degree_type_field] 0 0 [] rs' out
           "credentialSubject" Hbuilt).
  vm_compute in Hbuilt. injection Hbuilt as <- _. reflexivity.
Defined.

Lemma ld_string_path_is_a_chain_witness :
  copyResultPathToDestinationCredential
    [SKey "$"; SKey "credentialSubject"; SKey "degree"; SKey "type"]
    Samples.degree_credential [] 0 0 []
  = Some ([("credentialSubject",
            JObject [("degree", JObject [("type", JString "BachelorDegree")])])],
          [success_result 0 0
             [SKey "$"; SKey "credentialSubject"; SKey "degree"; SKey "type"]]).
Proof.
  exact (ld_string_path_is_a_chain (SKey "$") "credentialSubject" ["degree"; "type"]
           Samples.degree_credential [] 0 0 [] (JString "BachelorDegree") eq_refl).
Defined.

Lemma ld_later_path_replaces_earlier_witness :
  exists out1 out2,
    copyResultPathToDestinationCredential
      [SKey "$"; SKey "credentialSubject"; SKey "id"] Samples.degree_credential
      [] 0 0 []
    = Some (out1,
            [success_result 0 0 [SKey "$"; SKey "credentialSubject"; SKey "id"]])
    /\ copyResultPathToDestinationCredential
         [SKey "$"; SKey "credentialSubject"; SKey "degree"; SKey "name"]
         Samples.degree_credential out1 0 0
         [success_result 0 0 [SKey "$"; SKey "credentialSubject"; SKey "id"]]
       = Some (out2,
               [success_result 0 0 [SKey "$"; SKey "credentialSubject"; SKey "id"];
                success_result 0 0
                  [SKey "$"; SKey "credentialSubject"; SKey "degree"; SKey "name"]])
    /\ option_map fst
         (copyResultPathToDestinationCredential
            [SKey "$"; SKey "credentialSubject"; SKey "degree"; SKey "name"]
            Samples.degree_credential [] 0 0 [])
       = Some out2.
Proof.
  exact (ld_later_path_replaces_earlier (SKey "$") (SKey "credentialSubject")
           (SKey "$") (SKey "credentialSubject") [SKey "id"]
           [SKey "degree"; SKey "name"] Samples.degree_credential [] 0 0 []
           (JString "did:example:holder") (JString "Bachelor of Science")
           eq_refl eq_refl eq_refl).
Defined.

Lemma ld_paths_with_different_keys_coexist_witness :
  exists out1 rs1 out2 rs2,
    copyResultPathToDestinationCredential
      [SKey "$"; SKey "credentialSubject"; SKey "id"] Samples.degree_credential
      [] 0 0 [] = Some (out1, rs1)
    /\ copyResultPathToDestinationCredential [SKey "$"; SKey "issuer"]
         Samples.degree_credential out1 0 0 rs1 = Some (out2, rs2)
    /\ walk (JObject out2) [SKey "credentialSubject"; SKey "id"]
       = Some (JString "did:example:holder")
    /\ walk (JObject out2) [SKey "issuer"] = Some (JString "did:example:issuer").
Proof.
  apply (ld_paths_with_different_keys_coexist (SKey "$") (SKey "credentialSubject")
           (SKey "$") (SKey "issuer") [SKey "id"] []);
    [discriminate|reflexivity|reflexivity].
Defined.

Lemma ld_without_submission_nothing_is_kept_witness :
  option_map verifiablePresentation
    (handle Samples.extractInputField Samples.disclosure_definition
            Samples.candidate_presentation FurtherSamples.client_without_submission)
  = Some (verifiablePresentation FurtherSamples.client_without_submission).
Proof.
  destruct (handle Samples.extractInputField Samples.disclosure_definition
              Samples.candidate_presentation
              FurtherSamples.client_without_submission)
    as [this'|] eqn:Hrun; [|vm_compute in Hrun; discriminate Hrun].
  cbn [option_map]. f_equal.
  exact (ld_without_submission_nothing_is_kept Samples.extractInputField
           Samples.disclosure_definition Samples.candidate_presentation
           FurtherSamples.client_without_submission this' eq_refl Hrun).
Defined.

Lemma ld_run_appends_disclosed_credentials_witness :
  exists added,
    option_map credentials_of
      (handle Samples.extractInputField Samples.disclosure_definition
              Samples.candidate_presentation Samples.disclosure_client)
    = Some (credentials_of Samples.disclosure_client ++ added)
    /\ List.length added = 2
    /\ forallb has_mandatory_keys added = true.
Proof.
  destruct (handle Samples.extractInputField Samples.disclosure_definition
              Samples.candidate_presentation Samples.disclosure_client)
    as [this'|] eqn:Hrun; [|vm_compute in Hrun; discriminate Hrun].
  destruct (ld_run_appends_disclosed_credentials Samples.extractInputField
              Samples.disclosure_definition Samples.candidate_presentation
              Samples.disclosure_client this'
              [mkDescriptor "degree" "ldp_vc" "$[0]";
               mkDescriptor "licence" "ldp_vc" "$[0]";
               mkDescriptor "degree" "ldp_vc" "$[1]"] Hrun eq_refl)
    as (_ & added & Hadded & Hlen & Hkeys).
  exists added. cbn [option_map]. rewrite Hadded. now repeat split.
Defined.

Lemma ld_list_element_keeps_its_position_witness :
  exists out l,
    copyResultPathToDestinationCredential [SKey "$"; SKey "grades"; SIdx 2]
      FurtherSamples.grades_credential [] 0 0 []
    = Some (out, [success_result 0 0 [SKey "$"; SKey "grades"; SIdx 2]])
    /\ lookup "grades" out = Some (JArray l)
    /\ l = [JObject []; JUndefined; JNumber 3].
Proof.
  destruct (ld_list_element_keeps_its_position (SKey "$") "grades" 2 []
              FurtherSamples.grades_credential [] 0 0 [] (JNumber 3) eq_refl)
    as (out & l & Hcopy & Hl & _).
  exists out, l. split; [exact Hcopy|]. split; [exact Hl|].
  vm_compute in Hcopy. injection Hcopy as <-. vm_compute in Hl. now injection Hl.
Defined.

Lemma ld_mandatory_keys_are_taken_out_witness :
  snd (copyMandatoryFieldsAndDeletePredefinedKeys Samples.degree_credential []
         (map fst Samples.degree_credential))
  = ["issuer"].
Proof.
  refine (proj1 (ld_mandatory_keys_are_taken_out Samples.degree_credential []
                   (map fst Samples.degree_credential) _)).
  repeat (constructor; [cbn; intuition discriminate|]). constructor.
Defined.

Lemma ld_results_are_well_addressed_witness :
  exists new,
    option_map results
      (handle Samples.extractInputField Samples.disclosure_definition
              Samples.candidate_presentation Samples.disclosure_client)
    = Some (results Samples.disclosure_client ++ new)
    /\ map status new = [ERROR; INFO].
Proof.
  destruct (handle Samples.extractInputField Samples.disclosure_definition
              Samples.candidate_presentation Samples.disclosure_client)
    as [this'|] eqn:Hrun; [|vm_compute in Hrun; discriminate Hrun].
  destruct (ld_results_are_well_addressed Samples.extractInputField
              Samples.disclosure_definition Samples.candidate_presentation
              Samples.disclosure_client this' Hrun)
    as (new & Hlog & _).
  exists new. cbn [option_map]. rewrite Hlog. split; [reflexivity|].
  vm_compute in Hrun. injection Hrun as <-.
  change (results Samples.disclosure_client) with (@nil HandlerCheckResult) in Hlog.
  cbn [results app] in Hlog. now rewrite <- Hlog.
Defined.

Lemma ld_copy_throws_iff_witness :
  exists out,
    copyResultPathToDestinationCredential
      [SKey "$"; SKey "credentialSubject"; SKey "birthdate"]
      Samples.degree_credential [] 0 0 []
    = Some (out,
            [success_result 0 0
               [SKey "$"; SKey "credentialSubject"; SKey "birthdate"]])
    /\ walk (JObject out) [SKey "credentialSubject"; SKey "birthdate"]
       = Some JUndefined.
Proof.
  exact (proj2 (ld_copy_throws_iff
                  [SKey "$"; SKey "credentialSubject"; SKey "birthdate"]
                  Samples.degree_credential [] 0 0 [])
               (SKey "$") [SKey "credentialSubject"] (SKey "birthdate")
               (field Samples.degree_credential "credentialSubject")
               eq_refl eq_refl eq_refl).
Defined.

End FurtherExamples.
